(** * Timeline: coordinate transform, tooltip anchoring, lane layout and
      interaction state of the zoomable historical timeline

    Shallow embedding of the [Timeline] component (the interactive chart with
    authors and texts, and the earlier composite-bar chart) together with the
    properties its specification states about it (Part II) and further
    properties of the code (Part III).

    Numbers.  Pixel coordinates, zoom factors and years are JavaScript
    numbers in the source.  They are embedded as exact rationals [Q]:
    comparisons, [Math.max], [Math.min], [Math.abs], [Math.floor] and
    [Math.round] are the exact functions, and the decimal constants of the
    source ([0.7], [0.15], [2.4]) are the rationals they denote; where the
    source compares two quantities that are equal in exact arithmetic (two
    lanes exactly one lane step apart), the embedding takes the exact
    result.  The BCE/CE helpers on integer years are embedded on [Z] with
    the rounding of doubles written out ([JSInt]), since they are total on
    numbers of any size.  Values that come from untyped JSON and may fail
    to be numbers or strings are embedded as [JSValue]: they go through
    [Number] explicitly, and a method call on one that is not a string is
    a thrown [TypeError] ([Rows.Outcome]).

    Strings.  A [string] holds the UTF-8 bytes of a JavaScript string;
    [charCodeAt] and [trim] are embedded on the UTF-16 code units and the
    Unicode white space those bytes encode. *)

From Stdlib Require Import ZArith QArith Qminmax Qabs Qround Lqa Lia Bool.
From stdpp Require Import gmap strings list fin_maps pretty sorting.

(* ===================================================================== *)
(** * Part I — definitions                                                *)
(* ===================================================================== *)

(** ** JavaScript arithmetic on exact rationals *)

Module JS.
Local Open Scope Q_scope.

Definition leb (a b : Q) : bool := Qle_bool a b.            (* a <= b *)
Definition ltb (a b : Q) : bool := negb (Qle_bool b a).     (* a <  b *)
Definition geb (a b : Q) : bool := Qle_bool b a.            (* a >= b *)
Definition gtb (a b : Q) : bool := negb (Qle_bool a b).     (* a >  b *)

(** [Math.max], [Math.min], [Math.abs] *)
Definition max (a b : Q) : Q := if leb a b then b else a.
Definition min (a b : Q) : Q := if leb a b then a else b.
Definition abs (a : Q) : Q := if ltb a 0 then - a else a.

(** [Math.floor]; [Math.round] rounds half-way cases towards +infinity. *)
Definition floor (a : Q) : Z := Qfloor a.
Definition round (a : Q) : Z := Qfloor (a + (1 # 2)).

(** [const clamp = (v, lo, hi) => Math.max(lo, Math.min(hi, v))] *)
Definition clamp (v lo hi : Q) : Q := max lo (min hi v).

(** Truthiness of a string-or-null reference ([if (ref.current)]). *)
Definition truthy (o : option string) : bool :=
  match o with
  | Some s => negb (String.eqb s EmptyString)
  | None => false
  end.

(** [a || b] on possibly missing strings. *)
Definition or_str (a : option string) (b : string) : string :=
  match a with
  | Some s => if String.eqb s EmptyString then b else s
  | None => b
  end.

End JS.

(** ** BCE/CE helpers (no year 0) *)

(** Integer years are JavaScript numbers, that is doubles: 53 bits of
    significand, so every integer up to [2 ^ 53] in size is a number, and
    beyond that only the multiples of the spacing [ulp].  [y + 1] and
    [a - 1] are the exact sum and difference rounded to the nearest
    number, a tie going to the even significand.  (Adding or subtracting 1
    never overflows to an infinity: the result rounds back.) *)
Module JSInt.
Local Open Scope Z_scope.

(** The spacing of the doubles around an integer [n]. *)
Definition ulp (n : Z) : Z :=
  if Z.abs n <? 2 ^ 53 then 1 else 2 ^ (Z.log2 (Z.abs n) - 52).

(** The double nearest to the integer [n], ties to even. *)
Definition round (n : Z) : Z :=
  let u := ulp n in
  let q := n / u in
  let r := n mod u in
  if 2 * r <? u then q * u
  else if u <? 2 * r then (q + 1) * u
  else if Z.even q then q * u else (q + 1) * u.

(** An integer that is a JavaScript number. *)
Definition isNumber (n : Z) : bool := round n =? n.

(** [a + b] and [a - b] on integer-valued numbers. *)
Definition add (a b : Z) : Z := round (a + b).
Definition sub (a b : Z) : Z := round (a - b).

End JSInt.

Module Year.
Local Open Scope Z_scope.

(** [const toAstronomical = (y) => (y <= 0 ? y + 1 : y)] on integer years *)
Definition toAstronomical (y : Z) : Z := if y <=? 0 then JSInt.add y 1 else y.

(** [const fromAstronomical = (a) => (a <= 0 ? a - 1 : a)] *)
Definition fromAstronomical (a : Z) : Z := if a <=? 0 then JSInt.sub a 1 else a.

End Year.

(** The same helper on the rational years the chart geometry uses. *)
Definition toAstronomicalQ (y : Q) : Q := if JS.leb y 0 then (y + 1)%Q else y.

(** A rescaled axis ([zx], [zy]): a function from data units to pixels. *)
Definition Scale : Type := Q -> Q.

(** [DOMRect] of [getBoundingClientRect()] *)
Record Rect := mkRect {
  r_left : Q;
  r_top : Q;
  r_width : Q;
  r_height : Q
}.

(** [const margin = { top: 8, right: 0, bottom: 28, left: 0 }] *)
Definition margin_top : Q := 8.
Definition margin_left : Q := 0.

(** ** Rows of the entity model *)

(** An element of [outlines]. *)
Record Outline := mkOutline {
  o_id : string;
  o_name : string;
  o_color : string;
  o_start : Q;
  o_end : Q;
  o_y : Q;
  o_h : Q
}.

(** An element of [segments] (the segment hit rects). *)
Record SegmentRow := mkSegmentRow {
  seg_id : string;
  seg_parentId : string;
  seg_parentColor : string;
  seg_start : Q;
  seg_end : Q;
  seg_y : Q;
  seg_h : Q;
  seg_label : option string;
  seg_note : option string
}.

(** An element of [authorRows]; the display-only string fields of the
    source row (tags, category, description, formatted dates, colour) are
    not part of the embedding. *)
Record AuthorRow := mkAuthorRow {
  ar_id : string;
  ar_durationId : string;
  ar_name : string;
  ar_start : Q;
  ar_end : Q;
  ar_y : Q
}.

(** An element of [textRows], with the same omission. *)
Record TextRow := mkTextRow {
  tr_id : string;
  tr_durationId : string;
  tr_when : Q;
  tr_y : Q;
  tr_title : string;
  tr_authorName : string
}.

(** ** Tooltip anchoring *)

Module Tooltip.
Local Open Scope Q_scope.

(** What a [show*] function writes: [left], [top] and the [below] class. *)
Record TipPos := mkTipPos {
  tip_left : Q;
  tip_top : Q;
  tip_below : bool
}.

(** [showTip(sel, html, clientX, clientY, accent)]: [tw], [th] are the
    rendered tooltip's [offsetWidth] and [offsetHeight]. *)
Definition showTip (wrapRect : Rect) (tw th : Q) (clientX clientY : Q) : TipPos :=
  let pad := 6 in
  (* center above cursor if possible; otherwise below *)
  let x := clientX - r_left wrapRect - tw / 2 in
  let y := clientY - r_top wrapRect - th - pad in
  let yb := if JS.ltb y 0 then (clientY - r_top wrapRect + pad, true) else (y, false) in
  (* clamp horizontally *)
  let maxX := r_width wrapRect - tw - 4 in
  let x := JS.max 4 (JS.min x maxX) in
  mkTipPos x (fst yb) (snd yb).

(** The object returned by [getSegmentAnchorPx] / [getDurationAnchorPx]. *)
Record Anchor := mkAnchor {
  an_left : Q;
  an_right : Q;
  an_xMid : Q;
  an_yTop : Q;
  an_hPix : Q
}.

(** Common body of the two anchor functions, on [start], [end], [y], [h];
    [None] is the [return null] taken while [zxRef]/[zyRef] are unset. *)
Definition anchorPx (zxRef zyRef : option Scale) (start end_ y h : Q) : option Anchor :=
  match zxRef, zyRef with
  | Some zx, Some zy =>
      let x0 := zx (toAstronomicalQ start) in
      let x1 := zx (toAstronomicalQ end_) in
      let yTop := zy y in
      let hPix := zy (y + h) - zy y in
      let left := JS.min x0 x1 in
      let right := JS.max x0 x1 in
      let xMid := (left + right) / 2 in
      Some (mkAnchor left right xMid yTop hPix)
  | _, _ => None
  end.

Definition getSegmentAnchorPx (zxRef zyRef : option Scale) (seg : SegmentRow) : option Anchor :=
  anchorPx zxRef zyRef (seg_start seg) (seg_end seg) (seg_y seg) (seg_h seg).

Definition getDurationAnchorPx (zxRef zyRef : option Scale) (o : Outline) : option Anchor :=
  anchorPx zxRef zyRef (o_start o) (o_end o) (o_y o) (o_h o).

(** Placement shared by [showSegAnchored] and [showDurationAnchored]. *)
Definition placeAnchored (wrapRect : Rect) (tw th : Q) (anchor : Anchor) : TipPos :=
  let pad := 8 in
  (* Prefer below the element; flip above if it would overflow *)
  let x := an_xMid anchor - tw / 2 in
  let y := an_yTop anchor + an_hPix anchor + pad in
  let yb := if JS.gtb (y + th) (r_height wrapRect)
            then (an_yTop anchor - th - pad, false) else (y, true) in
  let maxX := r_width wrapRect - tw - 4 in
  let x := JS.max 4 (JS.min x maxX) in
  mkTipPos x (fst yb) (snd yb).

(** [showSegAnchored(seg)]: [None] when the anchor is unavailable. *)
Definition showSegAnchored (zxRef zyRef : option Scale) (wrapRect : Rect) (tw th : Q)
    (seg : SegmentRow) : option TipPos :=
  match getSegmentAnchorPx zxRef zyRef seg with
  | Some anchor => Some (placeAnchored wrapRect tw th anchor)
  | None => None
  end.

(** [showDurationAnchored(outline)] *)
Definition showDurationAnchored (zxRef zyRef : option Scale) (wrapRect : Rect) (tw th : Q)
    (o : Outline) : option TipPos :=
  match getDurationAnchorPx zxRef zyRef o with
  | Some anchor => Some (placeAnchored wrapRect tw th anchor)
  | None => None
  end.

(** [authorAnchorClient(d)]: client coordinates of the middle of the line. *)
Definition authorAnchorClient (zxRef zyRef : option Scale) (svgRect : Rect)
    (d : AuthorRow) : option (Q * Q) :=
  match zxRef, zyRef with
  | Some zx, Some zy =>
      let x0 := zx (toAstronomicalQ (ar_start d)) in
      let x1 := zx (toAstronomicalQ (ar_end d)) in
      let xMid := (JS.min x0 x1 + JS.max x0 x1) / 2 in
      let yLine := zy (ar_y d) in
      Some (r_left svgRect + margin_left + xMid, r_top svgRect + margin_top + yLine)
  | _, _ => None
  end.

(** [textAnchorClient(el, d)]: [el_cy] is the [cy] attribute of the circle
    [el] when an element is passed (the handlers pass [this]). *)
Definition textAnchorClient (zxRef zyRef : option Scale) (svgRect : Rect)
    (el_cy : option Q) (d : TextRow) : option (Q * Q) :=
  match zxRef, zyRef with
  | Some zx, Some zy =>
      let cx := zx (toAstronomicalQ (tr_when d)) in
      let cyAttr := match el_cy with Some cy => cy | None => zy (tr_y d) end in
      Some (r_left svgRect + margin_left + cx, r_top svgRect + margin_top + cyAttr)
  | _, _ => None
  end.

(** The part of a DOM mouse event a handler could read. *)
Record MouseEvent := mkMouseEvent {
  clientX : Q;
  clientY : Q
}.

(** What the four hover handlers need from the page. *)
Record HoverEnv := mkHoverEnv {
  he_zx : option Scale;
  he_zy : option Scale;
  he_wrapRect : Rect;
  he_svgRect : Rect;
  he_tw : Q;
  he_th : Q
}.

(** Tooltip written by [authorSel.on("mouseenter", function (_ev, d) ...)]:
    [None] when [authorAnchorClient] returns null and nothing is shown. *)
Definition authorMouseEnter (env : HoverEnv) (_ev : MouseEvent) (d : AuthorRow) : option TipPos :=
  match authorAnchorClient (he_zx env) (he_zy env) (he_svgRect env) d with
  | Some a => Some (showTip (he_wrapRect env) (he_tw env) (he_th env) (fst a) (snd a))
  | None => None
  end.

(** [authorSel.on("mousemove", function (_ev, d) ...)] *)
Definition authorMouseMove (env : HoverEnv) (_ev : MouseEvent) (d : AuthorRow) : option TipPos :=
  match authorAnchorClient (he_zx env) (he_zy env) (he_svgRect env) d with
  | Some a => Some (showTip (he_wrapRect env) (he_tw env) (he_th env) (fst a) (snd a))
  | None => None
  end.

(** [textSel.on("mouseenter", function (_ev, d) ...)]; [this_cy] is the
    [cy] attribute of the hovered circle. *)
Definition textMouseEnter (env : HoverEnv) (_ev : MouseEvent) (this_cy : Q) (d : TextRow)
    : option TipPos :=
  match textAnchorClient (he_zx env) (he_zy env) (he_svgRect env) (Some this_cy) d with
  | Some a => Some (showTip (he_wrapRect env) (he_tw env) (he_th env) (fst a) (snd a))
  | None => None
  end.

(** [textSel.on("mousemove", function (_ev, d) ...)] *)
Definition textMouseMove (env : HoverEnv) (_ev : MouseEvent) (this_cy : Q) (d : TextRow)
    : option TipPos :=
  match textAnchorClient (he_zx env) (he_zy env) (he_svgRect env) (Some this_cy) d with
  | Some a => Some (showTip (he_wrapRect env) (he_tw env) (he_th env) (fst a) (snd a))
  | None => None
  end.

(** A tooltip rectangle lies inside a [W] x [H] viewport. *)
Definition insideb (W H tw th : Q) (p : TipPos) : bool :=
  JS.leb 0 (tip_left p) && JS.leb (tip_left p + tw) W &&
  JS.leb 0 (tip_top p) && JS.leb (tip_top p + th) H.

(** Same position, compared as rationals. *)
Definition sameTip (p q : TipPos) : bool :=
  Qeq_bool (tip_left p) (tip_left q) && Qeq_bool (tip_top p) (tip_top q) &&
  Bool.eqb (tip_below p) (tip_below q).

(** The horizontal rule: never left of 4, and right edge at most 4 from
    the viewport's right edge as soon as the viewport is 8 wider than the
    tooltip. *)
Definition clampedX (W tw : Q) (p : TipPos) : Prop :=
  4 <= tip_left p /\ (tw + 8 <= W -> tip_left p + tw <= W - 4).

(** The vertical rule of the pointer-anchored tooltip for a pointer at
    height [y] in the wrapper: 6 above when that top is not negative,
    otherwise 6 below. *)
Definition flippedAtPointer (th y : Q) (p : TipPos) : Prop :=
  (tip_below p = false -> tip_top p = y - th - 6 /\ 0 <= tip_top p) /\
  (tip_below p = true -> tip_top p = y + 6 /\ y - th - 6 < 0).

(** The vertical rule of the geometry-anchored tooltip in a viewport of
    height [H]: 8 below the element when the tooltip then ends inside the
    viewport, otherwise 8 above the element's top. *)
Definition flippedAtAnchor (H th : Q) (a : Anchor) (p : TipPos) : Prop :=
  (tip_below p = true ->
     tip_top p = an_yTop a + an_hPix a + 8 /\ tip_top p + th <= H) /\
  (tip_below p = false ->
     tip_top p = an_yTop a - th - 8 /\ H < an_yTop a + an_hPix a + 8 + th).

End Tooltip.

(** ** Entity geometry: bands and segments from [durations.json] *)

Module Geometry.
Local Open Scope Q_scope.

(** A segment object of a duration record.  Optional JSON fields are
    [option]s: [x != null] is [x = Some _]. *)
Record RawSegment := mkRawSegment {
  rs_start : Q;
  rs_end : Q;
  rs_label : option string;
  rs_note : option string;
  rs_color : option string;
  rs_y : option Q;
  rs_yRel : option Q;
  rs_height : option Q;
  rs_hRel : option Q
}.

(** A record of [durations.json]; [rd_segments = None] when [d.segments]
    is not an array. *)
Record RawDuration := mkRawDuration {
  rd_id : string;
  rd_name : string;
  rd_color : option string;
  rd_start : option Q;
  rd_end : option Q;
  rd_y : option Q;
  rd_yRel : option Q;
  rd_height : option Q;
  rd_hRel : option Q;
  rd_segments : option (list RawSegment)
}.

Definition DEFAULT_BAR_PX : Q := 24.

(** [d.yRel != null ? d.yRel * innerHeight : d.y != null ? d.y : 0] *)
Definition bandY (innerHeight : Q) (d : RawDuration) : Q :=
  match rd_yRel d with
  | Some yRel => yRel * innerHeight
  | None => match rd_y d with Some y => y | None => 0 end
  end.

(** [d.hRel != null ? d.hRel * innerHeight : d.height != null ? d.height : DEFAULT_BAR_PX] *)
Definition bandH (innerHeight : Q) (d : RawDuration) : Q :=
  match rd_hRel d with
  | Some hRel => hRel * innerHeight
  | None => match rd_height d with Some h => h | None => DEFAULT_BAR_PX end
  end.

(** [d3.min] / [d3.max] of a list of numbers ([None] for the empty list). *)
Definition d3_min (l : list Q) : option Q :=
  match l with
  | [] => None
  | x :: l' => Some (fold_left (fun m v => if JS.ltb v m then v else m) l' x)
  end.

Definition d3_max (l : list Q) : option Q :=
  match l with
  | [] => None
  | x :: l' => Some (fold_left (fun m v => if JS.gtb v m then v else m) l' x)
  end.

(** One step of the [outlines] memo: the [.filter] predicate decides
    whether the record is kept, the [.map] body builds the row. *)
Definition outlineOf (innerHeight : Q) (d : RawDuration) : option Outline :=
  let bounds :=
    match rd_segments d with
    | Some segs =>
        match d3_min (map rs_start segs), d3_max (map rs_end segs) with
        | Some s, Some e => Some (s, e)
        | _, _ => None                     (* segments.length > 0 fails *)
        end
    | None =>
        match rd_start d, rd_end d with
        | Some s, Some e => Some (s, e)
        | _, _ => None                     (* d.start != null && d.end != null fails *)
        end
    end in
  match bounds with
  | Some (s, e) =>
      Some (mkOutline (rd_id d) (rd_name d) (JS.or_str (rd_color d) "#999")
                      s e (bandY innerHeight d) (bandH innerHeight d))
  | None => None
  end.

Definition outlines (innerHeight : Q) (durations : list RawDuration) : list Outline :=
  omap (outlineOf innerHeight) durations.

(** The [segments] memo of the interactive timeline: one hit rect per
    segment, [y] and [h] computed once per duration from the duration. *)
Definition segmentsOf (innerHeight : Q) (d : RawDuration) : list SegmentRow :=
  match rd_segments d with
  | None => []
  | Some segs =>
      let color := JS.or_str (rd_color d) "#999" in
      let y := bandY innerHeight d in
      let h := bandH innerHeight d in
      imap (fun i s =>
              mkSegmentRow (rd_id d +:+ "__seg_" +:+ pretty i) (rd_id d) color
                           (rs_start s) (rs_end s) y h (rs_label s) (rs_note s))
           segs
  end.

Definition segments (innerHeight : Q) (durations : list RawDuration) : list SegmentRow :=
  concat (map (segmentsOf innerHeight) durations).

(** *** The earlier chart ([components/timeline.jsx]) *)

Record CompositeSeg := mkCompositeSeg {
  cs_id : string;
  cs_start : Q;
  cs_end : Q;
  cs_y : Q;
  cs_h : Q;
  cs_color : string
}.

Record CompositeRow := mkCompositeRow {
  cr_id : string;
  cr_name : string;
  cr_color : string;
  cr_segments : list CompositeSeg
}.

(** [Array.isArray(d.segments) && d.segments.length] *)
Definition isComposite (d : RawDuration) : bool :=
  match rd_segments d with
  | Some (_ :: _) => true
  | _ => false
  end.

(** The nested conditional for [y] in [compositeRows]. *)
Definition compositeSegY (innerHeight : Q) (group : RawDuration) (i : nat) (s : RawSegment) : Q :=
  match rs_yRel s with
  | Some yRel => yRel * innerHeight
  | None =>
      match rs_y s with
      | Some y => y
      | None =>
          match rd_yRel group with
          | Some gyRel => gyRel * innerHeight
          | None =>
              match rd_y group with
              | Some gy => gy
              | None => inject_Z (Z.of_nat i) * 36
              end
          end
      end
  end.

(** The nested conditional for [h] in [compositeRows]. *)
Definition compositeSegH (innerHeight : Q) (group : RawDuration) (s : RawSegment) : Q :=
  match rs_hRel s with
  | Some hRel => hRel * innerHeight
  | None =>
      match rs_height s with
      | Some h => h
      | None =>
          match rd_hRel group with
          | Some ghRel => ghRel * innerHeight
          | None =>
              match rd_height group with
              | Some gh => gh
              | None => DEFAULT_BAR_PX
              end
          end
      end
  end.

Definition compositeRowOf (innerHeight : Q) (group : RawDuration) : CompositeRow :=
  let baseColor := JS.or_str (rd_color group) "#9ca3af" in
  let segs :=
    imap (fun i s =>
            mkCompositeSeg (rd_id group +:+ "__seg_" +:+ pretty i)
                           (rs_start s) (rs_end s)
                           (compositeSegY innerHeight group i s)
                           (compositeSegH innerHeight group s)
                           (JS.or_str (rs_color s) baseColor))
         (default [] (rd_segments group)) in
  mkCompositeRow (rd_id group) (rd_name group) baseColor segs.

Definition compositeRows (innerHeight : Q) (data : list RawDuration) : list CompositeRow :=
  map (compositeRowOf innerHeight) (List.filter isComposite data).

End Geometry.

(** ** Author and text rows from the discovered datasets *)

Module Rows.
Local Open Scope Q_scope.

(** A JavaScript number. *)
Inductive JSNum :=
  | Fin (q : Q)
  | NaN
  | PosInf
  | NegInf.

(** The values a scalar JSON field can hold, plus [undefined] for a field
    that is absent. *)
Inductive JSValue :=
  | JUndefined
  | JNull
  | JBool (b : bool)
  | JNumber (n : JSNum)
  | JString (s : string).

(** [Number.isFinite] *)
Definition isFinite (n : JSNum) : bool :=
  match n with
  | Fin _ => true
  | _ => false
  end.


(** [typeof v === "string"] *)
Definition isString (v : JSValue) : bool :=
  match v with
  | JString _ => true
  | _ => false
  end.

(** Truthiness: [undefined], [null], [false], [0], [NaN] and the empty
    string are falsy. *)
Definition truthy (v : JSValue) : bool :=
  match v with
  | JUndefined | JNull => false
  | JBool b => b
  | JNumber (Fin q) => negb (Qeq_bool q 0)
  | JNumber NaN => false
  | JNumber _ => true
  | JString s => negb (String.eqb s EmptyString)
  end.

(** [a || b] *)
Definition jsOr (a b : JSValue) : JSValue := if truthy a then a else b.

(** What evaluating an expression gives: a value, or a thrown
    [TypeError]. *)
Inductive Outcome (A : Type) :=
  | Ok (a : A)
  | Throw.
Arguments Ok {A} a.
Arguments Throw {A}.

Definition bind {A B : Type} (m : Outcome A) (k : A -> Outcome B) : Outcome B :=
  match m with
  | Ok a => k a
  | Throw => Throw
  end.

Local Notation "'let!' x := m 'in' k" := (bind m (fun x => k))
  (at level 10, x name, m at level 100, k at level 200).
Local Notation "'run' m 'in' k" := (bind m (fun _ => k))
  (at level 10, m at level 100, k at level 200).

(** An object of a [*_authors.json] array, with the fields the row
    builder reads; every field is a JSON scalar or absent.  (The elements
    of the array are taken to be objects.) *)
Record AuthorRec := mkAuthorRec {
  a_Author : JSValue;                       (* a["Author"] *)
  a_author : JSValue;                       (* a["author"] *)
  a_DOB : JSValue;                          (* a["D.O.B."] *)
  a_DOD : JSValue;                          (* a["D.O.D."] *)
  a_SocioPoliticalTags : JSValue;           (* a["Socio-political Tags"] *)
  a_SymbolicSystemTags : JSValue;           (* a["Symbolic System Tags"] *)
  a_JungianArchetypesTags : JSValue;        (* a["Jungian Archetypes Tags"] *)
  a_Category : JSValue;                     (* a["Category"] *)
  a_ShortDescription : JSValue;             (* a["Short Description"] *)
  a_Dataviz_birth : JSValue;                (* a.Dataviz_birth *)
  a_Dataviz_death : JSValue                 (* a.Dataviz_death *)
}.

(** An object of a [*_texts.json] array. *)
Record TextRec := mkTextRec {
  t_Name : JSValue;                         (* t["Name"] *)
  t_Author : JSValue;                       (* t["Author"] *)
  t_ApproxDate : JSValue;                   (* t["Approx. Date"] *)
  t_MetaphysicalTags : JSValue;             (* t["Metaphysical Tags"] *)
  t_ArtsAndSciencesTags : JSValue;          (* t["Arts and Sciences Tags"] *)
  t_AccessLevel : JSValue;                  (* t["Access Level"] *)
  t_ShortDescription : JSValue;             (* t["Short Description"] *)
  t_JungianArchetypesTags : JSValue;        (* t["Jungian Archetypes Tags"] *)
  t_NeumannStagesTags : JSValue;            (* t["Neumann Stages Tags"] *)
  t_OriginalGeo : JSValue;                  (* t["Original Geographical Location"] *)
  t_OriginalLanguage : JSValue;             (* t["Original Language"] *)
  t_ComteanFramework : JSValue;             (* t["Comtean framework"] *)
  t_Category : JSValue;                     (* t["Category"] *)
  t_SocioPoliticalTags : JSValue;           (* t["Socio-political Tags"] *)
  t_LiteraryFormsTags : JSValue;            (* t["Literary Forms Tags"] *)
  t_LiteraryContentTags : JSValue;          (* t["Literary Content Tags"] *)
  t_SymbolicSystemTags : JSValue;           (* t["Symbolic System Tags"] *)
  t_Dataviz_date : JSValue                  (* t["Dataviz date"] *)
}.

(** An entry of the dataset registry. *)
Record Dataset := mkDataset {
  ds_folder : string;
  ds_durationId : string;
  ds_authors : list AuthorRec;
  ds_texts : list TextRec
}.

(** A [string] holds the UTF-8 bytes of a text.  The white space
    [String.prototype.trim] strips (WhiteSpace and LineTerminator of the
    language) is, in UTF-8: one byte 9 to 13 or 32; U+00A0 as [194 160];
    and as three bytes U+1680, U+2000 to U+200A, U+2028, U+2029, U+202F,
    U+205F, U+3000 and U+FEFF. *)
Definition isSpace1 (b : nat) : bool :=
  (Nat.leb 9 b && Nat.leb b 13) || Nat.eqb b 32.

Definition isSpace2 (b1 b2 : nat) : bool := Nat.eqb b1 194 && Nat.eqb b2 160.

Definition isSpace3 (b1 b2 b3 : nat) : bool :=
  (Nat.eqb b1 225 && Nat.eqb b2 154 && Nat.eqb b3 128) ||
  (Nat.eqb b1 226 && Nat.eqb b2 128 &&
     ((Nat.leb 128 b3 && Nat.leb b3 138) || Nat.eqb b3 168 || Nat.eqb b3 169 ||
      Nat.eqb b3 175)) ||
  (Nat.eqb b1 226 && Nat.eqb b2 129 && Nat.eqb b3 159) ||
  (Nat.eqb b1 227 && Nat.eqb b2 128 && Nat.eqb b3 128) ||
  (Nat.eqb b1 239 && Nat.eqb b2 187 && Nat.eqb b3 191).

(** Strip white space from the front of [s]; with [backwards], [s] is a
    reversed string and the bytes of a character come last byte first. *)
Fixpoint dropSpaces (backwards : bool) (s : string) : string :=
  match s with
  | EmptyString => EmptyString
  | String c1 s1 =>
      let b1 := Ascii.nat_of_ascii c1 in
      if isSpace1 b1 then dropSpaces backwards s1
      else
        match s1 with
        | EmptyString => s
        | String c2 s2 =>
            let b2 := Ascii.nat_of_ascii c2 in
            if (if backwards then isSpace2 b2 b1 else isSpace2 b1 b2)
            then dropSpaces backwards s2
            else
              match s2 with
              | EmptyString => s
              | String c3 s3 =>
                  let b3 := Ascii.nat_of_ascii c3 in
                  if (if backwards then isSpace3 b3 b2 b1 else isSpace3 b1 b2 b3)
                  then dropSpaces backwards s3
                  else s
              end
        end
  end.

(** [String.prototype.trim] *)
Definition trim (s : string) : string :=
  String.rev (dropSpaces true (String.rev (dropSpaces false s))).

(** [(v).trim()] for the value of an expression [... || ""]: a string is
    trimmed, anything else has no [trim] method and the call throws. *)
Definition trimCall (v : JSValue) : Outcome string :=
  match v with
  | JString s => Ok (trim s)
  | _ => Throw
  end.

(** The UTF-16 code units of the text whose UTF-8 bytes are given: what
    [charCodeAt] returns, index by index.  A character outside the basic
    plane is two units, a surrogate pair.  Bytes that are not UTF-8 are
    passed through. *)
Fixpoint codeUnits (bytes : list Z) : list Z :=
  match bytes with
  | [] => []
  | b1 :: l1 =>
      if (b1 <? 192)%Z then b1 :: codeUnits l1
      else if (b1 <? 224)%Z then
        match l1 with
        | b2 :: l2 => (Z.land b1 31 * 64 + Z.land b2 63)%Z :: codeUnits l2
        | [] => [b1]
        end
      else if (b1 <? 240)%Z then
        match l1 with
        | b2 :: b3 :: l3 =>
            (Z.land b1 15 * 4096 + Z.land b2 63 * 64 + Z.land b3 63)%Z :: codeUnits l3
        | _ => b1 :: codeUnits l1
        end
      else
        match l1 with
        | b2 :: b3 :: b4 :: l4 =>
            let cp := (Z.land b1 7 * 262144 + Z.land b2 63 * 4096 +
                       Z.land b3 63 * 64 + Z.land b4 63 - 65536)%Z in
            (55296 + cp / 1024)%Z :: (56320 + cp mod 1024)%Z :: codeUnits l4
        | _ => b1 :: codeUnits l1
        end
  end.

(** [str.charCodeAt(i)] for [i] from 0 to [str.length - 1] *)
Definition charCodes (str : string) : list Z :=
  codeUnits (map (fun c => Z.of_nat (Ascii.nat_of_ascii c)) (String.list_ascii_of_string str)).

(** [Math.imul] followed by [>>> 0]: the low 32 bits of the product. *)
Definition imul (a b : Z) : Z := ((a * b) mod 2 ^ 32)%Z.

(** [hashString]: 32-bit FNV-1a over the code units, scaled to [0,1).
    The accumulator is kept as its unsigned 32-bit value. *)
Definition hashString (str : string) : Q :=
  let h :=
    fold_left (fun h c => imul (Z.lxor h c) 16777619) (charCodes str) 2166136261%Z in
  inject_Z h / inject_Z (2 ^ 32).

(** [/\/data\/([^/]+)\//]: a maximal run of non-slash characters that is
    followed by a slash. *)
Fixpoint untilSlash (s : string) : option string :=
  match s with
  | EmptyString => None
  | String c s' =>
      if Ascii.eqb c (Ascii.ascii_of_nat 47) then Some EmptyString
      else match untilSlash s' with
           | Some r => Some (String c r)
           | None => None
           end
  end.

Definition matchDataAt (s : string) : option string :=
  if String.prefix "/data/" s then
    match untilSlash (String.substring 6 (String.length s - 6) s) with
    | Some r => if String.eqb r EmptyString then None else Some r
    | None => None
    end
  else None.

(** [folderOf]: capture group of the leftmost match, or null. *)
Fixpoint folderOf (p : string) : option string :=
  match matchDataAt p with
  | Some r => Some r
  | None =>
      match p with
      | EmptyString => None
      | String _ p' => folderOf p'
      end
  end.

(** [new Set([...])]: first occurrences, in insertion order. *)
Definition setOf (l : list (option string)) : list (option string) :=
  fold_left (fun acc x => if decide (x ∈ acc) then acc else acc ++ [x]) l [].

(** [useDiscoveredDatasets]: the two arguments are the entries of the
    eagerly globbed modules (path and default export; [None] for an export
    that is not an array). *)
Definition useDiscoveredDatasets
    (authorModules : list (string * option (list AuthorRec)))
    (textModules : list (string * option (list TextRec))) : list Dataset :=
  let folders := setOf (map (fun e => folderOf (fst e)) authorModules ++
                        map (fun e => folderOf (fst e)) textModules) in
  let dataFor {A} (modules : list (string * option (list A))) (folder : string) : list A :=
    concat (map (fun e => default [] (snd e))
                (List.filter (fun e => bool_decide (folderOf (fst e) = Some folder)) modules)) in
  omap (fun f =>
          match f with
          | None => None                                   (* if (!folder) return *)
          | Some folder =>
              if String.eqb folder EmptyString then None
              else Some (mkDataset folder (folder +:+ "-composite")
                                   (dataFor authorModules folder)
                                   (dataFor textModules folder))
          end) folders.

Section Builtins.

(** The parts of the JavaScript runtime the row builder calls: the
    string-to-number conversion inside [Number(...)], number-to-string
    conversion in template literals, and [JSON.stringify]. *)
Variable StringToNumber : string -> JSNum.
Variable NumberToString : Q -> string.
Variable stringifyAuthor : AuthorRec -> string.
Variable stringifyText : TextRec -> string.

(** [Number(v)] *)
Definition Number (v : JSValue) : JSNum :=
  match v with
  | JUndefined => NaN
  | JNull => Fin 0
  | JBool true => Fin 1
  | JBool false => Fin 0
  | JNumber n => n
  | JString s => StringToNumber s
  end.

(** [getTextDate(row)] *)
Definition getTextDate (row : TextRec) : JSNum :=
  let v := Number (t_Dataviz_date row) in
  if isFinite v then v else NaN.

(** [new Map(outlines.map((o) => [o.id, o]))]: later entries win. *)
Definition outlinesById (outlines : list Outline) : gmap string Outline :=
  fold_left (fun m o => <[o_id o := o]> m) outlines ∅.

(** [yForKey] of one dataset. *)
Definition yForKey (durationId : string) (band : Outline) (key : string) : Q :=
  let bandY := o_y band in
  let bandH := o_h band in
  let pad := JS.min 6 (JS.max 2 (bandH * (15 # 100))) in
  let r := hashString (durationId +:+ "::" +:+ JS.or_str (Some key) "anon") in
  bandY + pad + r * JS.max 1 (bandH - 2 * pad).



(** Body of the AUTHORS loop.  The display fields are trimmed first, and
    a [trim] call on a value that is not a string throws; then comes the
    guard on the years: [Ok None] is its [continue]. *)
Definition authorRowOf (ds : Dataset) (band : Outline) (a : AuthorRec)
    : Outcome (option AuthorRow) :=
  let! name := trimCall (jsOr (jsOr (a_Author a) (a_author a)) (JString EmptyString)) in
  run trimCall (jsOr (a_DOB a) (JString EmptyString)) in
  run trimCall (jsOr (a_DOD a) (JString EmptyString)) in
  run trimCall (jsOr (a_SocioPoliticalTags a) (JString EmptyString)) in
  run trimCall (jsOr (a_SymbolicSystemTags a) (JString EmptyString)) in
  run trimCall (jsOr (a_JungianArchetypesTags a) (JString EmptyString)) in
  run trimCall (jsOr (a_Category a) (JString EmptyString)) in
  run trimCall (jsOr (a_ShortDescription a) (JString EmptyString)) in
  let birthNum := Number (a_Dataviz_birth a) in
  let deathNum := Number (a_Dataviz_death a) in
  match birthNum, deathNum with
  | Fin birth, Fin death =>
      let y := yForKey (ds_durationId ds) band name in
      Ok (Some (mkAuthorRow
                  (ds_durationId ds +:+ "__author__" +:+
                     (if String.eqb name EmptyString
                      then NumberToString (hashString (stringifyAuthor a))
                      else name))
                  (ds_durationId ds) name birth death y))
  | _, _ => Ok None       (* !Number.isFinite(birthNum) || !Number.isFinite(deathNum) *)
  end.

(** Body of the TEXTS loop. *)
Definition textRowOf (ds : Dataset) (band : Outline) (t : TextRec)
    : Outcome (option TextRow) :=
  let! title := trimCall (jsOr (t_Name t) (JString EmptyString)) in
  let! authorName := trimCall (jsOr (t_Author t) (JString EmptyString)) in
  run trimCall (jsOr (t_ApproxDate t) (JString EmptyString)) in
  run trimCall (jsOr (t_MetaphysicalTags t) (JString EmptyString)) in
  run trimCall (jsOr (t_ArtsAndSciencesTags t) (JString EmptyString)) in
  run trimCall (jsOr (t_AccessLevel t) (JString EmptyString)) in
  run trimCall (jsOr (t_ShortDescription t) (JString EmptyString)) in
  run trimCall (jsOr (t_JungianArchetypesTags t) (JString EmptyString)) in
  run trimCall (jsOr (t_NeumannStagesTags t) (JString EmptyString)) in
  run trimCall (jsOr (t_OriginalGeo t) (JString EmptyString)) in
  run trimCall (jsOr (t_OriginalLanguage t) (JString EmptyString)) in
  run trimCall (jsOr (t_ComteanFramework t) (JString EmptyString)) in
  run trimCall (jsOr (t_Category t) (JString EmptyString)) in
  run trimCall (jsOr (t_SocioPoliticalTags t) (JString EmptyString)) in
  run trimCall (jsOr (t_LiteraryFormsTags t) (JString EmptyString)) in
  run trimCall (jsOr (t_LiteraryContentTags t) (JString EmptyString)) in
  run trimCall (jsOr (t_SymbolicSystemTags t) (JString EmptyString)) in
  match getTextDate t with
  | Fin when =>
      let textKey := JS.or_str (Some authorName) "anon" +:+ "::" +:+ title +:+ "::" +:+
                     NumberToString when in
      let y := yForKey (ds_durationId ds) band textKey in
      Ok (Some (mkTextRow
                  (ds_durationId ds +:+ "__text__" +:+
                     (if String.eqb title EmptyString
                      then NumberToString (hashString (stringifyText t))
                      else title) +:+ "__" +:+ NumberToString when)
                  (ds_durationId ds) when y title authorName))
  | _ => Ok None          (* !Number.isFinite(when) *)
  end.

(** A [for ... of] loop whose body pushes a row, skips, or throws: the
    rows pushed, or the throw of the first body that throws. *)
Fixpoint pushAll {A B : Type} (body : A -> Outcome (option B)) (l : list A)
    : Outcome (list B) :=
  match l with
  | [] => Ok []
  | a :: l' =>
      let! o := body a in
      let! rows := pushAll body l' in
      Ok (match o with Some r => r :: rows | None => rows end)
  end.

(** [for (const ds of datasetRegistry)]: [rowsA] and [rowsT] after the
    loop, unless a body threw. *)
Fixpoint rowsLoop (outlines : list Outline) (registry : list Dataset)
    : Outcome (list AuthorRow * list TextRow) :=
  match registry with
  | [] => Ok ([], [])
  | ds :: rest =>
      match outlinesById outlines !! ds_durationId ds with
      | None => rowsLoop outlines rest                       (* if (!band) continue *)
      | Some band =>
          let! ra := pushAll (authorRowOf ds band) (ds_authors ds) in
          let! rt := pushAll (textRowOf ds band) (ds_texts ds) in
          let! more := rowsLoop outlines rest in
          Ok (ra ++ fst more, rt ++ snd more)
      end
  end.

(** The rows the loop returned; a loop that threw returned none. *)
Definition rowsA (outlines : list Outline) (registry : list Dataset) : list AuthorRow :=
  match rowsLoop outlines registry with
  | Ok rows => fst rows
  | Throw => []
  end.

Definition rowsT (outlines : list Outline) (registry : list Dataset) : list TextRow :=
  match rowsLoop outlines registry with
  | Ok rows => snd rows
  | Throw => []
  end.

(** [bandExtent]: id to [(min, max)] of the band's years. *)
Definition bandExtent (outlines : list Outline) : gmap string (Q * Q) :=
  fold_left (fun m o => <[o_id o := (JS.min (o_start o) (o_end o),
                                     JS.max (o_start o) (o_end o))]> m) outlines ∅.

(** The rows of the memo's result: clamped to the band extent. *)
Definition authorRows (outlines : list Outline) (registry : list Dataset) : list AuthorRow :=
  List.filter (fun r =>
                 match bandExtent outlines !! ar_durationId r with
                 | Some e => JS.geb (ar_end r) (fst e) && JS.leb (ar_start r) (snd e)
                 | None => true
                 end) (rowsA outlines registry).

Definition textRows (outlines : list Outline) (registry : list Dataset) : list TextRow :=
  List.filter (fun r =>
                 match bandExtent outlines !! tr_durationId r with
                 | Some e => JS.geb (tr_when r) (fst e) && JS.leb (tr_when r) (snd e)
                 | None => true
                 end) (rowsT outlines registry).

(** The [useMemo] callback as a whole: [{ authorRows, textRows }], or the
    [TypeError] of the loop. *)
Definition rowsMemo (outlines : list Outline) (registry : list Dataset)
    : Outcome (list AuthorRow * list TextRow) :=
  run rowsLoop outlines registry in
  Ok (authorRows outlines registry, textRows outlines registry).

End Builtins.

End Rows.

(** ** Collision-avoidance layout of the text dots (inside [apply]) *)

Module Layout.
Local Open Scope Q_scope.

Definition TEXT_BASE_R : Q := 7 # 10.

(** [const r = TEXT_BASE_R * k] *)
Definition radius (k : Q) : Q := TEXT_BASE_R * k.

(** [const laneStepPad = Math.max(1, Math.round(r * 0.15))] *)
Definition laneStepPad (k : Q) : Q := JS.max 1 (inject_Z (JS.round (radius k * (15 # 100)))).

Definition minDX (k : Q) : Q := 2 * radius k + laneStepPad k.
Definition minDY (k : Q) : Q := 2 * radius k + laneStepPad k.
Definition laneStep (k : Q) : Q := 2 * radius k + laneStepPad k.

(** An element of [sorted]: [{ d, cx, baseCy }]. *)
Record Item := mkItem {
  it_d : TextRow;
  it_cx : Q;
  it_baseCy : Q
}.

(** An element of [placed]: [{ cx, cy }].  [p_found] records the value of
    the local [found] at the push; the source does not store it, it is kept
    so that the best-effort case can be told apart afterwards. *)
Record Placed := mkPlaced {
  p_cx : Q;
  p_cy : Q;
  p_found : bool
}.

(** [.sort((a, b) => a.cx - b.cx)]: ascending in [cx], equal keys keep
    their order (the sort is stable). *)
Fixpoint insertByCx (x : Item) (l : list Item) : list Item :=
  match l with
  | [] => [x]
  | y :: l' => if JS.leb (it_cx x) (it_cx y) then x :: l else y :: insertByCx x l'
  end.

Definition sortByCx (l : list Item) : list Item := foldr insertByCx [] l.

(** [Math.max(1, Math.floor(bandHeight / laneStep))] *)
Definition maxLanes (k bandHeight : Q) : nat :=
  Z.to_nat (Z.max 1 (JS.floor (bandHeight / laneStep k))).

(** The [offsets] array: [0, +step, -step, +2 step, -2 step, ...]. *)
Definition offsets (k : Q) (lanes : nat) : list Q :=
  concat (map (fun i : nat =>
                 if Nat.eqb i 0 then [0]
                 else [inject_Z (Z.of_nat i) * laneStep k;
                       - inject_Z (Z.of_nat i) * laneStep k])
              (seq 0 lanes)).

(** The inner [for (let j = placed.length - 1; j >= 0; j--)] loop over the
    placed marks, most recent first. *)
Fixpoint collidesFrom (k cx trialCy : Q) (back : list Placed) : bool :=
  match back with
  | [] => false
  | p :: rest =>
      if JS.gtb (cx - p_cx p) (minDX k) then false                       (* break *)
      else if JS.ltb (JS.abs (cx - p_cx p)) (minDX k) &&
              JS.ltb (JS.abs (trialCy - p_cy p)) (minDY k) then true     (* collides *)
      else collidesFrom k cx trialCy rest
  end.

Definition collides (k : Q) (placed : list Placed) (cx trialCy : Q) : bool :=
  collidesFrom k cx trialCy (rev placed).

(** [Math.max(bandTop + r, Math.min(bandBottom - r, it.baseCy + off))] *)
Definition trialCy (k bandTop bandBottom baseCy off : Q) : Q :=
  JS.max (bandTop + radius k) (JS.min (bandBottom - radius k) (baseCy + off)).

(** [for (const off of offsets)]: the first trial that does not collide. *)
Fixpoint firstFree (k bandTop bandBottom : Q) (placed : list Placed) (it : Item)
    (offs : list Q) : option Q :=
  match offs with
  | [] => None
  | off :: rest =>
      let t := trialCy k bandTop bandBottom (it_baseCy it) off in
      if collides k placed (it_cx it) t then firstFree k bandTop bandBottom placed it rest
      else Some t
  end.

(** [chosenCy] and [found] after the search and the best-effort clamp. *)
Definition chooseCy (k bandTop bandBottom : Q) (lanes : nat) (placed : list Placed)
    (it : Item) : Q * bool :=
  match firstFree k bandTop bandBottom placed it (offsets k lanes) with
  | Some cy => (cy, true)
  | None => (JS.max (bandTop + radius k) (JS.min (bandBottom - radius k) (it_baseCy it)), false)
  end.

(** [for (const it of sorted)], threading [adjustedCy] and [placed]. *)
Fixpoint placeLoop (k bandTop bandBottom : Q) (lanes : nat)
    (adjustedCy : gmap string Q) (placed : list Placed) (sorted : list Item)
    : gmap string Q * list Placed :=
  match sorted with
  | [] => (adjustedCy, placed)
  | it :: rest =>
      let c := chooseCy k bandTop bandBottom lanes placed it in
      placeLoop k bandTop bandBottom lanes
                (<[tr_id (it_d it) := fst c]> adjustedCy)
                (placed ++ [mkPlaced (it_cx it) (fst c) (snd c)])
                rest
  end.

(** [sorted] of one band. *)
Definition sortedItems (zx zy : Scale) (items : list TextRow) : list Item :=
  sortByCx (map (fun d => mkItem d (zx (toAstronomicalQ (tr_when d))) (zy (tr_y d))) items).

(** Body of [for (const [bandId, items] of textsByBand.entries())] once the
    band has been found. *)
Definition layoutBand (zx zy : Scale) (k : Q) (band : Outline) (items : list TextRow)
    (adjustedCy : gmap string Q) : gmap string Q * list Placed :=
  let bandTop := zy (o_y band) in
  let bandBottom := zy (o_y band + o_h band) in
  let bandHeight := bandBottom - bandTop in
  placeLoop k bandTop bandBottom (maxLanes k bandHeight) adjustedCy []
            (sortedItems zx zy items).

(** [textsByBand]: a [Map] from band id to the rows of that band, keys in
    insertion order. *)
Fixpoint groupPush (m : list (string * list TextRow)) (d : TextRow)
    : list (string * list TextRow) :=
  match m with
  | [] => [(tr_durationId d, [d])]
  | (key, arr) :: rest =>
      if String.eqb key (tr_durationId d) then (key, arr ++ [d]) :: rest
      else (key, arr) :: groupPush rest d
  end.

Definition textsByBand (textRows : list TextRow) : list (string * list TextRow) :=
  fold_left groupPush textRows [].

(** [new Map(outlines.map((o) => [o.id, o]))] *)
Definition outlineById (outlines : list Outline) : gmap string Outline :=
  fold_left (fun m o => <[o_id o := o]> m) outlines ∅.

(** [adjustedCy] after the loop over all bands. *)
Definition adjustedCyOf (zx zy : Scale) (k : Q) (outlines : list Outline)
    (textRows : list TextRow) : gmap string Q :=
  fold_left (fun adj g =>
               match outlineById outlines !! fst g with
               | None => adj                                           (* if (!band) continue *)
               | Some band => fst (layoutBand zx zy k band (snd g) adj)
               end)
            (textsByBand textRows) ∅.

(** The attributes written to a dot: [cx], [cy], [r]. *)
Record Dot := mkDot {
  dot_cx : Q;
  dot_cy : Q;
  dot_r : Q
}.

(** [adjustedCy.get(d.id) ?? zy(d.y)] *)
Definition dotOf (zx zy : Scale) (k : Q) (adjustedCy : gmap string Q) (d : TextRow) : Dot :=
  mkDot (zx (toAstronomicalQ (tr_when d)))
        (default (zy (tr_y d)) (adjustedCy !! tr_id d))
        (radius k).

(** The text part of [apply(zx, zy, k)]: every dot with its attributes. *)
Definition applyTexts (zx zy : Scale) (k : Q) (outlines : list Outline)
    (textRows : list TextRow) : list (TextRow * Dot) :=
  let adjustedCy := adjustedCyOf zx zy k outlines textRows in
  map (fun d => (d, dotOf zx zy k adjustedCy d)) textRows.


(** Two placed marks are far enough apart horizontally or vertically. *)
Definition separated (k : Q) (p q : Placed) : Prop :=
  minDX k <= JS.abs (p_cx p - p_cx q) \/ minDY k <= JS.abs (p_cy p - p_cy q).

Definition separatedb (k : Q) (p q : Placed) : bool :=
  JS.leb (minDX k) (JS.abs (p_cx p - p_cx q)) || JS.leb (minDY k) (JS.abs (p_cy p - p_cy q)).

(** [p] was placed before [q]: they are separated, or [q] went through the
    best-effort clamp. *)
Definition separatedOrBestEffort (k : Q) (p q : Placed) : Prop :=
  separated k p q \/ p_found q = false.

(** Orders used by the layout: items and placed marks ascending in [cx]. *)
Definition cxLe (a b : Item) : Prop := it_cx a <= it_cx b.
Definition placedLe (p q : Placed) : Prop := p_cx p <= p_cx q.

End Layout.

(** ** Interaction state: hover, active, one-shot close, zoom handoff *)

Module Interaction.
Local Open Scope Q_scope.

Definition ZOOM_THRESHOLD : Q := 24 # 10.
Definition MIN_ZOOM : Q := 9 # 10.

(** The refs of the component and the part of the page the handlers
    write.  [lastTransformRef] keeps the scale factor of the remembered
    transform; a tooltip field holds the id the card is shown for, [None]
    when hidden; [hitZoomedIn] is the value [updateInteractivity] last
    wrote into the [pointer-events] styles ([true]: segments and marks
    accept the pointer, [false]: outlines do). *)
Record State := mkState {
  kRef : Q;
  lastTransformRef : option Q;
  prevZoomedInRef : bool;
  zoomDraggingRef : bool;
  hoveredDurationIdRef : option string;
  activeDurationIdRef : option string;
  awaitingCloseClickRef : bool;
  activeSegIdRef : option string;
  hoveredSegParentIdRef : option string;
  tipDur : option string;
  tipSeg : option string;
  tipAuthor : option string;
  tipText : option string;
  selectedAuthor : option string;
  selectedText : option string;
  hitZoomedIn : bool
}.

(** One setter per field: the state with that field replaced. *)
Definition set_kRef (v : Q) (s : State) : State :=
  mkState v (lastTransformRef s) (prevZoomedInRef s) (zoomDraggingRef s)
          (hoveredDurationIdRef s) (activeDurationIdRef s) (awaitingCloseClickRef s)
          (activeSegIdRef s) (hoveredSegParentIdRef s) (tipDur s) (tipSeg s)
          (tipAuthor s) (tipText s) (selectedAuthor s) (selectedText s) (hitZoomedIn s).
Definition set_lastTransformRef (v : option Q) (s : State) : State :=
  mkState (kRef s) v (prevZoomedInRef s) (zoomDraggingRef s) (hoveredDurationIdRef s)
          (activeDurationIdRef s) (awaitingCloseClickRef s) (activeSegIdRef s)
          (hoveredSegParentIdRef s) (tipDur s) (tipSeg s) (tipAuthor s) (tipText s)
          (selectedAuthor s) (selectedText s) (hitZoomedIn s).
Definition set_prevZoomedInRef (v : bool) (s : State) : State :=
  mkState (kRef s) (lastTransformRef s) v (zoomDraggingRef s) (hoveredDurationIdRef s)
          (activeDurationIdRef s) (awaitingCloseClickRef s) (activeSegIdRef s)
          (hoveredSegParentIdRef s) (tipDur s) (tipSeg s) (tipAuthor s) (tipText s)
          (selectedAuthor s) (selectedText s) (hitZoomedIn s).
Definition set_zoomDraggingRef (v : bool) (s : State) : State :=
  mkState (kRef s) (lastTransformRef s) (prevZoomedInRef s) v (hoveredDurationIdRef s)
          (activeDurationIdRef s) (awaitingCloseClickRef s) (activeSegIdRef s)
          (hoveredSegParentIdRef s) (tipDur s) (tipSeg s) (tipAuthor s) (tipText s)
          (selectedAuthor s) (selectedText s) (hitZoomedIn s).
Definition set_hoveredDurationIdRef (v : option string) (s : State) : State :=
  mkState (kRef s) (lastTransformRef s) (prevZoomedInRef s) (zoomDraggingRef s) v
          (activeDurationIdRef s) (awaitingCloseClickRef s) (activeSegIdRef s)
          (hoveredSegParentIdRef s) (tipDur s) (tipSeg s) (tipAuthor s) (tipText s)
          (selectedAuthor s) (selectedText s) (hitZoomedIn s).
Definition set_activeDurationIdRef (v : option string) (s : State) : State :=
  mkState (kRef s) (lastTransformRef s) (prevZoomedInRef s) (zoomDraggingRef s)
          (hoveredDurationIdRef s) v (awaitingCloseClickRef s) (activeSegIdRef s)
          (hoveredSegParentIdRef s) (tipDur s) (tipSeg s) (tipAuthor s) (tipText s)
          (selectedAuthor s) (selectedText s) (hitZoomedIn s).
Definition set_awaitingCloseClickRef (v : bool) (s : State) : State :=
  mkState (kRef s) (lastTransformRef s) (prevZoomedInRef s) (zoomDraggingRef s)
          (hoveredDurationIdRef s) (activeDurationIdRef s) v (activeSegIdRef s)
          (hoveredSegParentIdRef s) (tipDur s) (tipSeg s) (tipAuthor s) (tipText s)
          (selectedAuthor s) (selectedText s) (hitZoomedIn s).
Definition set_activeSegIdRef (v : option string) (s : State) : State :=
  mkState (kRef s) (lastTransformRef s) (prevZoomedInRef s) (zoomDraggingRef s)
          (hoveredDurationIdRef s) (activeDurationIdRef s) (awaitingCloseClickRef s) v
          (hoveredSegParentIdRef s) (tipDur s) (tipSeg s) (tipAuthor s) (tipText s)
          (selectedAuthor s) (selectedText s) (hitZoomedIn s).
Definition set_hoveredSegParentIdRef (v : option string) (s : State) : State :=
  mkState (kRef s) (lastTransformRef s) (prevZoomedInRef s) (zoomDraggingRef s)
          (hoveredDurationIdRef s) (activeDurationIdRef s) (awaitingCloseClickRef s)
          (activeSegIdRef s) v (tipDur s) (tipSeg s) (tipAuthor s) (tipText s)
          (selectedAuthor s) (selectedText s) (hitZoomedIn s).
Definition set_tipDur (v : option string) (s : State) : State :=
  mkState (kRef s) (lastTransformRef s) (prevZoomedInRef s) (zoomDraggingRef s)
          (hoveredDurationIdRef s) (activeDurationIdRef s) (awaitingCloseClickRef s)
          (activeSegIdRef s) (hoveredSegParentIdRef s) v (tipSeg s) (tipAuthor s)
          (tipText s) (selectedAuthor s) (selectedText s) (hitZoomedIn s).
Definition set_tipSeg (v : option string) (s : State) : State :=
  mkState (kRef s) (lastTransformRef s) (prevZoomedInRef s) (zoomDraggingRef s)
          (hoveredDurationIdRef s) (activeDurationIdRef s) (awaitingCloseClickRef s)
          (activeSegIdRef s) (hoveredSegParentIdRef s) (tipDur s) v (tipAuthor s)
          (tipText s) (selectedAuthor s) (selectedText s) (hitZoomedIn s).
Definition set_tipAuthor (v : option string) (s : State) : State :=
  mkState (kRef s) (lastTransformRef s) (prevZoomedInRef s) (zoomDraggingRef s)
          (hoveredDurationIdRef s) (activeDurationIdRef s) (awaitingCloseClickRef s)
          (activeSegIdRef s) (hoveredSegParentIdRef s) (tipDur s) (tipSeg s) v
          (tipText s) (selectedAuthor s) (selectedText s) (hitZoomedIn s).
Definition set_tipText (v : option string) (s : State) : State :=
  mkState (kRef s) (lastTransformRef s) (prevZoomedInRef s) (zoomDraggingRef s)
          (hoveredDurationIdRef s) (activeDurationIdRef s) (awaitingCloseClickRef s)
          (activeSegIdRef s) (hoveredSegParentIdRef s) (tipDur s) (tipSeg s)
          (tipAuthor s) v (selectedAuthor s) (selectedText s) (hitZoomedIn s).
Definition set_selectedAuthor (v : option string) (s : State) : State :=
  mkState (kRef s) (lastTransformRef s) (prevZoomedInRef s) (zoomDraggingRef s)
          (hoveredDurationIdRef s) (activeDurationIdRef s) (awaitingCloseClickRef s)
          (activeSegIdRef s) (hoveredSegParentIdRef s) (tipDur s) (tipSeg s)
          (tipAuthor s) (tipText s) v (selectedText s) (hitZoomedIn s).
Definition set_selectedText (v : option string) (s : State) : State :=
  mkState (kRef s) (lastTransformRef s) (prevZoomedInRef s) (zoomDraggingRef s)
          (hoveredDurationIdRef s) (activeDurationIdRef s) (awaitingCloseClickRef s)
          (activeSegIdRef s) (hoveredSegParentIdRef s) (tipDur s) (tipSeg s)
          (tipAuthor s) (tipText s) (selectedAuthor s) v (hitZoomedIn s).
Definition set_hitZoomedIn (v : bool) (s : State) : State :=
  mkState (kRef s) (lastTransformRef s) (prevZoomedInRef s) (zoomDraggingRef s)
          (hoveredDurationIdRef s) (activeDurationIdRef s) (awaitingCloseClickRef s)
          (activeSegIdRef s) (hoveredSegParentIdRef s) (tipDur s) (tipSeg s)
          (tipAuthor s) (tipText s) (selectedAuthor s) (selectedText s) v.

(** The state before the first effect run: the initial values of the refs. *)
Definition initialRefs : State :=
  mkState 1 None false false None None false None None None None None None None None false.

(** [k >= ZOOM_THRESHOLD] *)
Definition zoomedInAt (k : Q) : bool := JS.geb k ZOOM_THRESHOLD.

Definition clearActiveSegment (s : State) : State :=
  set_tipSeg None (set_hoveredSegParentIdRef None (set_activeSegIdRef None s)).

Definition clearActiveDuration (s : State) : State :=
  set_tipDur None (set_awaitingCloseClickRef false (set_activeDurationIdRef None s)).

(** [setActiveSegment(seg, { showCard })] for a segment object. *)
Definition setActiveSegment (seg : SegmentRow) (showCard : bool) (s : State) : State :=
  let s := set_activeSegIdRef (Some (seg_id seg)) s in
  if showCard then set_tipSeg (Some (seg_id seg)) s else set_tipSeg None s.

(** [setActiveDuration(outline, { showCard })] for an outline object. *)
Definition setActiveDuration (o : Outline) (showCard : bool) (s : State) : State :=
  let s := set_activeDurationIdRef (Some (o_id o)) s in
  if showCard then set_tipDur (Some (o_id o)) s else s.

Definition updateInteractivity (k : Q) (s : State) : State :=
  let zoomedIn := zoomedInAt k in
  let s := set_hitZoomedIn zoomedIn s in
  if negb zoomedIn then clearActiveSegment s else clearActiveDuration s.

(** [syncDurationHoverFromPointer(se)].  [se = None]: no source event with
    client coordinates; [Some newId]: the id of the outline rect under the
    pointer, if any. *)
Definition syncDurationHoverFromPointer (se : option (option string)) (s : State) : State :=
  match se with
  | None => s
  | Some newId => if zoomedInAt (kRef s) then s else set_hoveredDurationIdRef newId s
  end.

(** Where a pointer event lands. *)
Inductive Target :=
  | OnOutline (o : Outline)
  | OnSegment (seg : SegmentRow)
  | OnAuthor (d : AuthorRow)
  | OnText (d : TextRow)
  | OnCanvas.

Inductive Event :=
  | MouseEnter (t : Target)
  | MouseMove (t : Target)
  | MouseLeave (t : Target)
  | Click (t : Target)
  | ZoomStart
  | Zoom (k : Q) (se : option (option string))
  | ZoomEnd (se : option (option string))
  | SvgMouseLeave
  | CloseAll
  | Remount.

Section Handlers.

Variable segments : list SegmentRow.
Variable outlines : list Outline.

Definition outlineMouseEnter (d : Outline) (s : State) : State :=
  if zoomedInAt (kRef s) then s
  else if JS.truthy (activeDurationIdRef s) then s
  else set_hoveredDurationIdRef (Some (o_id d)) s.

Definition outlineMouseLeave (s : State) : State :=
  if zoomedInAt (kRef s) then s
  else if zoomDraggingRef s then s
  else if JS.truthy (activeDurationIdRef s) then s
  else set_hoveredDurationIdRef None s.

(** The outline click handler; the boolean tells whether the click goes on
    to the svg handler ([false] after [ev.stopPropagation()]). *)
Definition outlineClick (d : Outline) (s : State) : State * bool :=
  if zoomedInAt (kRef s) then (s, true)
  else if awaitingCloseClickRef s then
    (clearActiveDuration (set_awaitingCloseClickRef false s), false)
  else
    (set_awaitingCloseClickRef true (setActiveDuration d true (clearActiveSegment s)), false).

Definition segMouseEnter (seg : SegmentRow) (s : State) : State :=
  if bool_decide (activeSegIdRef s = Some (seg_id seg)) then s
  else set_hoveredSegParentIdRef (Some (seg_parentId seg)) s.

Definition segMouseLeave (seg : SegmentRow) (s : State) : State :=
  if zoomDraggingRef s then s
  else if bool_decide (activeSegIdRef s = Some (seg_id seg)) then s
  else set_hoveredSegParentIdRef None s.

Definition segClick (seg : SegmentRow) (s : State) : State :=
  if bool_decide (activeSegIdRef s = Some (seg_id seg)) then clearActiveSegment s
  else setActiveSegment seg true (clearActiveDuration (clearActiveSegment s)).

Definition hideAllTips (s : State) : State :=
  set_tipDur None (set_tipSeg None (set_tipText None (set_tipAuthor None s))).

Definition authorClick (d : AuthorRow) (s : State) : State :=
  set_selectedAuthor (Some (ar_id d)) (hideAllTips (clearActiveSegment s)).

Definition textClick (d : TextRow) (s : State) : State :=
  set_selectedText (Some (tr_id d)) (hideAllTips (clearActiveSegment s)).

(** [svgSel.on("click.clearActive", ...)] *)
Definition svgClick (t : Target) (s : State) : State :=
  if awaitingCloseClickRef s then clearActiveDuration (set_awaitingCloseClickRef false s)
  else
    match t with
    | OnSegment _ | OnOutline _ => s
    | _ => clearActiveDuration (clearActiveSegment s)
    end.

(** A click: the handler of the element hit, then the svg handler unless
    propagation was stopped. *)
Definition dispatchClick (t : Target) (s : State) : State :=
  match t with
  | OnOutline d =>
      let r := outlineClick d s in
      if snd r then svgClick t (fst r) else fst r
  | OnSegment seg => svgClick t (segClick seg s)
  | OnAuthor d => authorClick d s
  | OnText d => textClick d s
  | OnCanvas => svgClick t s
  end.

(** "If a segment is active, keep its card anchored as we zoom/pan" *)
Definition keepSegCardAnchored (s : State) : State :=
  if JS.truthy (activeSegIdRef s) then
    match List.find (fun sg => bool_decide (Some (seg_id sg) = activeSegIdRef s)) segments with
    | Some sg => set_tipSeg (Some (seg_id sg)) s
    | None => s
    end
  else s.

(** "If a duration is active, keep its card anchored as we zoom/pan" *)
Definition keepDurationCardAnchored (s : State) : State :=
  if JS.truthy (activeDurationIdRef s) then
    match List.find (fun o => bool_decide (Some (o_id o) = activeDurationIdRef s)) outlines with
    | Some o => set_tipDur (Some (o_id o)) s
    | None => s
    end
  else s.

(** "Threshold handoff logic" *)
Definition thresholdHandoff (k : Q) (s : State) : State :=
  let zoomedIn := zoomedInAt k in
  let wasZoomedIn := prevZoomedInRef s in
  let s :=
    if zoomedIn && negb wasZoomedIn then
      clearActiveDuration (set_awaitingCloseClickRef false (set_hoveredDurationIdRef None s))
    else s in
  let s := if negb zoomedIn && wasZoomedIn then clearActiveSegment s else s in
  set_prevZoomedInRef zoomedIn s.

(** The [zoom] listener for a transform of scale [k]: remember the
    transform, [updateInteractivity], hover sync, card re-anchoring, and
    the threshold handoff, in this order. *)
Definition zoomHandler (k : Q) (se : option (option string)) (s : State) : State :=
  let s := set_kRef k (set_lastTransformRef (Some k) s) in
  let s := updateInteractivity k s in
  let s := syncDurationHoverFromPointer se s in
  let s := keepSegCardAnchored s in
  let s := keepDurationCardAnchored s in
  thresholdHandoff k s.

Definition zoomStart (s : State) : State := set_zoomDraggingRef true s.

Definition zoomEnd (se : option (option string)) (s : State) : State :=
  syncDurationHoverFromPointer se (set_zoomDraggingRef false s).

(** One run of the draw effect: [kRef] from the remembered transform (or
    the initial one of scale [MIN_ZOOM]), the four tooltips created hidden,
    [zoom.transform] applied (d3-zoom emits start, zoom and end for it,
    without a source event), then [updateInteractivity]. *)
Definition mount (s : State) : State :=
  let initK := default MIN_ZOOM (lastTransformRef s) in
  let s := set_kRef initK s in
  let s := hideAllTips s in
  let s := zoomEnd None (zoomHandler initK None (zoomStart s)) in
  updateInteractivity initK s.

Definition handle (s : State) (e : Event) : State :=
  match e with
  | MouseEnter (OnOutline d) => outlineMouseEnter d s
  | MouseEnter (OnSegment seg) => segMouseEnter seg s
  | MouseEnter (OnAuthor d) => set_tipAuthor (Some (ar_id d)) s
  | MouseEnter (OnText d) => set_tipText (Some (tr_id d)) s
  | MouseEnter OnCanvas => s
  | MouseMove (OnAuthor d) => set_tipAuthor (Some (ar_id d)) s
  | MouseMove (OnText d) => set_tipText (Some (tr_id d)) s
  | MouseMove _ => s
  | MouseLeave (OnOutline _) => outlineMouseLeave s
  | MouseLeave (OnSegment seg) => segMouseLeave seg s
  | MouseLeave (OnAuthor _) => set_tipAuthor None s
  | MouseLeave (OnText _) => set_tipText None s
  | MouseLeave OnCanvas => s
  | Click t => dispatchClick t s
  | ZoomStart => zoomStart s
  | Zoom k se => zoomHandler k se s
  | ZoomEnd se => zoomEnd se s
  | SvgMouseLeave => set_tipText None (set_tipAuthor None s)
  | CloseAll => set_selectedText None (set_selectedAuthor None s)
  | Remount => mount s
  end.

(** Which layer takes the pointer: the hit areas are switched by the
    [pointer-events] styles, so an element can be entered, moved over or
    clicked only while its layer accepts the pointer. *)
Definition accepts (s : State) (t : Target) : bool :=
  match t with
  | OnOutline _ => negb (hitZoomedIn s)
  | OnSegment _ | OnAuthor _ | OnText _ => hitZoomedIn s
  | OnCanvas => true
  end.

Definition enabled (s : State) (e : Event) : bool :=
  match e with
  | MouseEnter t | MouseMove t | Click t => accepts s t
  | _ => true
  end.

(** States the component can be in: after the first effect run, and after
    any event the page can deliver. *)
Inductive reachable : State -> Prop :=
  | reach_mount : reachable (mount initialRefs)
  | reach_step s e : reachable s -> enabled s e = true -> reachable (handle s e).

End Handlers.

(** No id of the track that is switched off: in detail mode nothing of the
    duration track is set, in overview mode nothing of the segment track. *)
Definition exclusive (s : State) : Prop :=
  if zoomedInAt (kRef s)
  then activeDurationIdRef s = None /\ hoveredDurationIdRef s = None /\
       awaitingCloseClickRef s = false
  else activeSegIdRef s = None /\ hoveredSegParentIdRef s = None.

(** The remembered mode and the [pointer-events] styles agree with [kRef]. *)
Definition inSync (s : State) : Prop :=
  prevZoomedInRef s = zoomedInAt (kRef s) /\ hitZoomedIn s = zoomedInAt (kRef s).

(** The state in the middle of the [zoom] listener, after
    [updateInteractivity]: the track of the mode that is off is already
    cleared, except for a hovered duration left from overview mode. *)
Definition midZoom (k : Q) (s : State) : Prop :=
  kRef s = k /\ hitZoomedIn s = zoomedInAt k /\
  (prevZoomedInRef s = true -> zoomedInAt k = true -> hoveredDurationIdRef s = None) /\
  (if zoomedInAt k
   then activeDurationIdRef s = None /\ awaitingCloseClickRef s = false
   else activeSegIdRef s = None /\ hoveredSegParentIdRef s = None).

End Interaction.

(** ** What [apply] writes for bands, segments and author lines *)

Module Chart.
Local Open Scope Q_scope.

(** The [x], [y], [width], [height] attributes of a rect. *)
Record RectAttrs := mkRectAttrs {
  ra_x : Q;
  ra_y : Q;
  ra_width : Q;
  ra_height : Q
}.

(** Body of the two [.each] loops over [rect.outlineRect] and
    [rect.segmentHit], on the row's [start], [end], [y], [h]. *)
Definition rectAttrs (zx zy : Scale) (start end_ y h : Q) : RectAttrs :=
  let x0 := zx (toAstronomicalQ start) in
  let x1 := zx (toAstronomicalQ end_) in
  let yTop := zy y in
  let hPix := zy (y + h) - zy y in
  mkRectAttrs (JS.min x0 x1) yTop (JS.abs (x1 - x0)) hPix.

Definition outlineRect (zx zy : Scale) (d : Outline) : RectAttrs :=
  rectAttrs zx zy (o_start d) (o_end d) (o_y d) (o_h d).

Definition segmentRect (zx zy : Scale) (d : SegmentRow) : RectAttrs :=
  rectAttrs zx zy (seg_start d) (seg_end d) (seg_y d) (seg_h d).

Definition AUTHOR_BASE_STROKE : Q := 1.
Definition HOVER_SCALE_DOT : Q := 16 # 10.
Definition HOVER_SCALE_LINE : Q := 16 # 10.

(** [clamp(AUTHOR_BASE_STROKE * k, 1, 6)]: the stroke width of a line at
    rest. *)
Definition authorStroke (k : Q) : Q := JS.clamp (AUTHOR_BASE_STROKE * k) 1 6.

(** [clamp(AUTHOR_BASE_STROKE * k * HOVER_SCALE_LINE, 1, 8)]: the stroke
    width while the line is hovered. *)
Definition authorHoverStroke (k : Q) : Q :=
  JS.clamp (AUTHOR_BASE_STROKE * k * HOVER_SCALE_LINE) 1 8.

(** [TEXT_BASE_R * k * HOVER_SCALE_DOT]: the radius of a hovered dot. *)
Definition textHoverR (k : Q) : Q := (7 # 10) * k * HOVER_SCALE_DOT.

(** The [x1], [x2], [y1], [y2], [stroke-width] attributes of an author
    line. *)
Record LineAttrs := mkLineAttrs {
  la_x1 : Q;
  la_x2 : Q;
  la_y1 : Q;
  la_y2 : Q;
  la_strokeWidth : Q
}.

Definition authorLine (zx zy : Scale) (k : Q) (d : AuthorRow) : LineAttrs :=
  let x0 := zx (toAstronomicalQ (ar_start d)) in
  let x1 := zx (toAstronomicalQ (ar_end d)) in
  let yPix := zy (ar_y d) in
  mkLineAttrs (JS.min x0 x1) (JS.max x0 x1) yPix yPix (authorStroke k).

(** Position of the detail card opened by a click on a mark: 12 to the
    right of and below the anchor (or at [(12, 12)] without an anchor),
    clamped into the wrapper. *)
Definition cardPos (CARD_W CARD_H : Q) (wrapRect : Rect) (a : option (Q * Q)) : Q * Q :=
  let PAD := 12 in
  let left := match a with Some a => fst a - r_left wrapRect + PAD | None => PAD end in
  let top := match a with Some a => snd a - r_top wrapRect + PAD | None => PAD end in
  (JS.max 4 (JS.min left (r_width wrapRect - CARD_W - 4)),
   JS.max 4 (JS.min top (r_height wrapRect - CARD_H - 4))).

(** [setAuthorCardPos] in the author click handler ([CARD_W = 420],
    [CARD_H = 360]). *)
Definition authorCardPos (zxRef zyRef : option Scale) (svgRect wrapRect : Rect)
    (d : AuthorRow) : Q * Q :=
  cardPos 420 360 wrapRect (Tooltip.authorAnchorClient zxRef zyRef svgRect d).

(** [setCardPos] in the text click handler ([CARD_W = 360],
    [CARD_H = 320]); [this_cy] is the [cy] attribute of the clicked dot. *)
Definition textCardPos (zxRef zyRef : option Scale) (svgRect wrapRect : Rect)
    (this_cy : Q) (d : TextRow) : Q * Q :=
  cardPos 360 320 wrapRect (Tooltip.textAnchorClient zxRef zyRef svgRect (Some this_cy) d).

End Chart.

(** ** The earlier chart ([components/timeline.jsx]): single bars and the
    label of a composite *)

Module EarlierChart.
Import Geometry.
Local Open Scope Q_scope.

(** The [singles] half of the split: records that are not composites. *)
Definition singles (data : list RawDuration) : list RawDuration :=
  List.filter (fun d => negb (isComposite d)) data.

(** The [composites] half. *)
Definition composites (data : list RawDuration) : list RawDuration :=
  List.filter isComposite data.

(** The geometry of an element of [singleRows]. *)
Record SingleRow := mkSingleRow {
  sr_id : string;
  sr_y : Q;
  sr_h : Q;
  sr_color : string
}.

(** [singles.map((d, i) => ...)]: [y] falls back to [i * 36]. *)
Definition singleRows (innerHeight : Q) (data : list RawDuration) : list SingleRow :=
  imap (fun i d =>
          mkSingleRow (rd_id d)
            (match rd_yRel d with
             | Some yRel => yRel * innerHeight
             | None => match rd_y d with
                       | Some y => y
                       | None => inject_Z (Z.of_nat i) * 36
                       end
             end)
            (bandH innerHeight d)
            (JS.or_str (rd_color d) "#4f46e5"))
       (singles data).

(** Left pixel edge of a composite's segment. *)
Definition segLeft (zx : Scale) (s : CompositeSeg) : Q :=
  JS.min (zx (toAstronomicalQ (cs_start s))) (zx (toAstronomicalQ (cs_end s))).

(** [xLeft] after the [forEach]: [None] is [Infinity]. *)
Definition xLeftOf (zx : Scale) (segs : list CompositeSeg) : option Q :=
  fold_left (fun xLeft s =>
               match xLeft with
               | None => Some (segLeft zx s)
               | Some x => if JS.ltb (segLeft zx s) x then Some (segLeft zx s) else Some x
               end) segs None.

(** [topSeg] after the [forEach], as its [(y, h)]: it starts as the first
    segment, or [{ y: 0, h: 0 }] without segments. *)
Definition topSegOf (segs : list CompositeSeg) : Q * Q :=
  fold_left (fun top s => if JS.ltb (cs_y s) (fst top) then (cs_y s, cs_h s) else top)
            segs
            (match segs with
             | s0 :: _ => (cs_y s0, cs_h s0)
             | [] => (0, 0)
             end).

(** The [x] and [y] attributes of the composite's label. *)
Definition compositeLabel (zx zy : Scale) (grp : CompositeRow) : Q * Q :=
  let xLeft := xLeftOf zx (cr_segments grp) in
  let topSeg := topSegOf (cr_segments grp) in
  let topY := zy (fst topSeg) in
  let topH := zy (fst topSeg + snd topSeg) - zy (fst topSeg) in
  (match xLeft with Some x => x | None => 0 end + 8, topY + topH / 2).

End EarlierChart.

(** ** Cards and the active element *)

(** A card is shown only for the element that is active, and a close click
    is pending exactly while a duration is active. *)
Definition cardsFollowActive (s : Interaction.State) : Prop :=
  (Interaction.awaitingCloseClickRef s = true <-> Interaction.activeDurationIdRef s <> None) /\
  (forall id, Interaction.tipDur s = Some id -> Interaction.activeDurationIdRef s = Some id) /\
  (forall id, Interaction.tipSeg s = Some id -> Interaction.activeSegIdRef s = Some id).

(** ** Highlighting: [updateHoverVisuals] and the segment a mark lies in *)

Module Visuals.
Local Open Scope Q_scope.

(** [const within = (v, a, b) => v >= Math.min(a, b) && v <= Math.max(a, b)] *)
Definition within (v a b : Q) : bool := JS.geb v (JS.min a b) && JS.leb v (JS.max a b).

(** [const overlaps = (a0, a1, b0, b1) => Math.max(a0, b0) <= Math.min(a1, b1)] *)
Definition overlaps (a0 a1 b0 b1 : Q) : bool := JS.leb (JS.max a0 b0) (JS.min a1 b1).

Definition findSegForAuthor (segments : list SegmentRow) (d : AuthorRow) : option SegmentRow :=
  List.find (fun s =>
               String.eqb (seg_parentId s) (ar_durationId d) &&
               overlaps (JS.min (ar_start d) (ar_end d)) (JS.max (ar_start d) (ar_end d))
                        (seg_start s) (seg_end s) &&
               within (ar_y d) (seg_y s) (seg_y s + seg_h s))
            segments.

Definition findSegForText (segments : list SegmentRow) (d : TextRow) : option SegmentRow :=
  List.find (fun s =>
               String.eqb (seg_parentId s) (tr_durationId d) &&
               JS.geb (tr_when d) (seg_start s) &&
               JS.leb (tr_when d) (seg_end s) &&
               within (tr_y d) (seg_y s) (seg_y s + seg_h s))
            segments.

(** [DUR_STROKE] and [DUR_LABEL_OPACITY] *)
Definition baseOpacity : Q := 8 # 100.
Definition hoverOpacity : Q := 45 # 100.
Definition activeOpacity : Q := 9 # 10.
Definition baseWidth : Q := 15 # 10.
Definition hoverWidth : Q := 2.
Definition activeWidth : Q := 25 # 10.
Definition labelBase : Q := 3 # 10.
Definition labelHover : Q := 75 # 100.
Definition labelActive : Q := 1.

(** [activeParentFromSeg] in [updateHoverVisuals] *)
Definition activeParentFromSeg (segments : list SegmentRow) (s : Interaction.State)
    : option string :=
  if JS.truthy (Interaction.activeSegIdRef s) then
    match List.find (fun sg => bool_decide (Some (seg_id sg) = Interaction.activeSegIdRef s))
                    segments with
    | Some sg => Some (seg_parentId sg)
    | None => None
    end
  else None.

(** [const ignoreHoverBecauseActive = !!activeDurationId] *)
Definition ignoreHoverBecauseActive (s : Interaction.State) : bool :=
  JS.truthy (Interaction.activeDurationIdRef s).

(** The [stroke-opacity] written to the border of band [d]. *)
Definition borderOpacity (s : Interaction.State) (d : Outline) : Q :=
  if bool_decide (Some (o_id d) = Interaction.activeDurationIdRef s) then activeOpacity
  else if negb (ignoreHoverBecauseActive s) &&
          bool_decide (Some (o_id d) = Interaction.hoveredDurationIdRef s) then hoverOpacity
  else baseOpacity.

(** The [stroke-width] written to the border of band [d]. *)
Definition borderWidth (s : Interaction.State) (d : Outline) : Q :=
  if bool_decide (Some (o_id d) = Interaction.activeDurationIdRef s) then activeWidth
  else if negb (ignoreHoverBecauseActive s) &&
          bool_decide (Some (o_id d) = Interaction.hoveredDurationIdRef s) then hoverWidth
  else baseWidth.

(** The [opacity] written to the label of band [d]. *)
Definition labelOpacity (segments : list SegmentRow) (s : Interaction.State) (d : Outline) : Q :=
  if bool_decide (Some (o_id d) = Interaction.activeDurationIdRef s) ||
     bool_decide (Some (o_id d) = activeParentFromSeg segments s) then labelActive
  else if negb (ignoreHoverBecauseActive s) &&
          (bool_decide (Some (o_id d) = Interaction.hoveredDurationIdRef s) ||
           bool_decide (Some (o_id d) = Interaction.hoveredSegParentIdRef s)) then labelHover
  else labelBase.

End Visuals.

(** ** Crisp grid lines: [snapX] in the draw effect *)

Module Grid.
Local Open Scope Q_scope.

(** [const DPR = window.devicePixelRatio || 1]: [None] is a missing
    property; 0 is falsy. *)
Definition DPR (devicePixelRatio : option Q) : Q :=
  match devicePixelRatio with
  | Some r => if Qeq_bool r 0 then 1 else r
  | None => 1
  end.

(** [const HALF_DPR_PX = 0.5 / DPR] *)
Definition HALF_DPR_PX (dpr : Q) : Q := (1 # 2) / dpr.

(** [const snapX = (x) => Math.round(x * DPR) / DPR + HALF_DPR_PX] *)
Definition snapX (dpr x : Q) : Q := inject_Z (JS.round (x * dpr)) / dpr + HALF_DPR_PX dpr.

End Grid.

(* ===================================================================== *)
(** * Part II — properties                                                *)
(* ===================================================================== *)

(** ** Temporal mapping *)

Section YearFacts.
Local Open Scope Z_scope.

(** Integers up to [2 ^ 53] in size are numbers: no rounding there. *)
Lemma round_exact (n : Z) : (- 2 ^ 53 <= n <= 2 ^ 53)%Z -> JSInt.round n = n.
Proof.
  intros Hn. change (2 ^ 53)%Z with 9007199254740992%Z in Hn.
  destruct (Z.eq_dec (Z.abs n) 9007199254740992) as [Heq | Hne].
  - assert (n = 9007199254740992 \/ n = -9007199254740992)%Z as [-> | ->] by lia;
      vm_compute; reflexivity.
  - unfold JSInt.round, JSInt.ulp. change (2 ^ 53)%Z with 9007199254740992%Z.
    destruct (Z.ltb_spec (Z.abs n) 9007199254740992) as [Hlt | Hge]; [| lia].
    cbv zeta. rewrite Z.mod_1_r, Z.div_1_r.
    change (2 * 0 <? 1) with true. cbv iota. lia.
Qed.

(** Rounding keeps a negative integer negative, however large. *)
Lemma round_negative (n : Z) : (n < 0)%Z -> (JSInt.round n < 0)%Z.
Proof.
  intros Hn.
  destruct (Z.ltb_spec (Z.abs n) (2 ^ 53)) as [Hlt | Hge].
  - rewrite round_exact; [exact Hn |]. lia.
  - assert (Hlog : (53 <= Z.log2 (Z.abs n))%Z).
    { rewrite <- (Z.log2_pow2 53) by lia. apply Z.log2_le_mono. exact Hge. }
    assert (Hu : JSInt.ulp n = (2 ^ (Z.log2 (Z.abs n) - 52))%Z).
    { unfold JSInt.ulp. destruct (Z.ltb_spec (Z.abs n) (2 ^ 53)); [lia | reflexivity]. }
    assert (Hpos : (0 < JSInt.ulp n)%Z) by (rewrite Hu; apply Z.pow_pos_nonneg; lia).
    assert (Hbig : (JSInt.ulp n * 2 ^ 52 <= - n)%Z).
    { rewrite Hu, <- Z.pow_add_r by lia.
      replace (Z.log2 (Z.abs n) - 52 + 52)%Z with (Z.log2 (Z.abs n)) by lia.
      pose proof (Z.log2_spec (Z.abs n) ltac:(lia)) as [H _]. lia. }
    assert (Hq : (n / JSInt.ulp n <= - 2 ^ 52)%Z).
    { apply Z.div_le_upper_bound; [exact Hpos |]. lia. }
    unfold JSInt.round. cbv zeta. revert Hq Hpos.
    generalize (JSInt.ulp n) (n / JSInt.ulp n)%Z.
    intros u q Hq Hpos. change (2 ^ 52)%Z with 4503599627370496%Z in Hq.
    destruct (2 * (n mod u) <? u)%Z; [nia |].
    destruct (u <? 2 * (n mod u))%Z; [nia |].
    destruct (Z.even q); nia.
Qed.

(** C6 (as the code has it): for every integer year [y] other than 0 that
    is not below [- 2 ^ 53], converting to the astronomical numbering and
    back gives [y] again.  This covers every safe integer and every
    positive year. *)
Theorem year_round_trip (y : Z) :
  y <> 0%Z -> (- 2 ^ 53 <= y)%Z -> Year.fromAstronomical (Year.toAstronomical y) = y.
Proof.
  intros Hy Hlo. unfold Year.fromAstronomical, Year.toAstronomical, JSInt.add, JSInt.sub.
  change (2 ^ 53)%Z with 9007199254740992%Z in Hlo.
  destruct (Z.leb_spec y 0) as [Hle | Hgt].
  - rewrite (round_exact (y + 1)) by (change (2 ^ 53)%Z with 9007199254740992%Z; lia).
    destruct (Z.leb_spec (y + 1) 0) as [_ | Hpos]; [| lia].
    replace (y + 1 - 1)%Z with y by lia.
    apply round_exact. change (2 ^ 53)%Z with 9007199254740992%Z. lia.
  - destruct (Z.leb_spec y 0); [lia | reflexivity].
Qed.

Lemma year_round_trip_witness :
  (-3100)%Z <> 0%Z /\ (- 2 ^ 53 <= -3100)%Z /\
  Year.fromAstronomical (Year.toAstronomical (-3100)) = (-3100)%Z.
Proof.
  assert (H0 : (-3100)%Z <> 0%Z) by discriminate.
  assert (H1 : (- 2 ^ 53 <= -3100)%Z) by (vm_compute; discriminate).
  split; [exact H0 | split; [exact H1 |]].
  exact (year_round_trip (-3100) H0 H1).
Defined.

(** C6, as stated, fails: [-9007199254740994] is an integer and a number,
    but adding 1 to it gives the tie [-9007199254740993], which rounds to
    [-9007199254740992]; subtracting 1 from that rounds back to the same
    value, so the round trip returns [-9007199254740992]. *)
Lemma year_round_trip_fails_below_2_53 :
  let y := (-9007199254740994)%Z in
  y <> 0%Z /\ JSInt.isNumber y = true /\
  Year.toAstronomical y = (-9007199254740992)%Z /\
  Year.fromAstronomical (Year.toAstronomical y) = (-9007199254740992)%Z /\
  Year.fromAstronomical (Year.toAstronomical y) <> y.
Proof. vm_compute. repeat split; discriminate. Qed.

End YearFacts.

(** ** Reflection of the boolean comparisons *)

Lemma Qle_bool_false (a b : Q) : Qle_bool a b = false -> (b < a)%Q.
Proof.
  intros H. destruct (Qlt_le_dec b a) as [Hlt | Hle]; [exact Hlt |].
  apply Qle_bool_iff in Hle. congruence.
Qed.

Ltac js_unfold :=
  unfold JS.clamp, JS.max, JS.min, JS.abs, JS.leb, JS.ltb, JS.geb, JS.gtb in *.

Ltac js_split :=
  repeat match goal with
         | |- context [Qle_bool ?a ?b] => destruct (Qle_bool a b) eqn:?
         end.

Ltac js_props :=
  repeat match goal with
         | H : Qle_bool _ _ = true |- _ => apply Qle_bool_iff in H
         | H : Qle_bool _ _ = false |- _ => apply Qle_bool_false in H
         end.

Ltac js_lra := js_unfold; js_split; cbn [negb fst snd] in *; js_props; try lra.

Lemma max_lb_l (a b : Q) : (a <= JS.max a b)%Q.
Proof. js_lra. Qed.

Lemma max_lb_r (a b : Q) : (b <= JS.max a b)%Q.
Proof. js_lra. Qed.



(** ** Tooltip anchoring *)

Section TooltipFacts.
Import Tooltip.
Local Open Scope Q_scope.

Lemma showTip_clampedX wrapRect tw th cx cy :
  clampedX (r_width wrapRect) tw (showTip wrapRect tw th cx cy).
Proof. unfold clampedX, showTip; cbn [tip_left]. split; [| intros Hw]; js_lra. Qed.

Lemma showTip_flipped wrapRect tw th cx cy :
  flippedAtPointer th (cy - r_top wrapRect) (showTip wrapRect tw th cx cy).
Proof.
  unfold flippedAtPointer, showTip; cbn [tip_top tip_below].
  js_unfold. destruct (Qle_bool 0 (cy - r_top wrapRect - th - 6)) eqn:E;
    cbn [negb fst snd]; js_props; split; intros Hb; try discriminate; split;
    try reflexivity; lra.
Qed.

Lemma placeAnchored_clampedX wrapRect tw th a :
  clampedX (r_width wrapRect) tw (placeAnchored wrapRect tw th a).
Proof. unfold clampedX, placeAnchored; cbn [tip_left]. split; [| intros Hw]; js_lra. Qed.

Lemma placeAnchored_flipped wrapRect tw th a :
  flippedAtAnchor (r_height wrapRect) th a (placeAnchored wrapRect tw th a).
Proof.
  unfold flippedAtAnchor, placeAnchored; cbn [tip_top tip_below].
  js_unfold. destruct (Qle_bool (an_yTop a + an_hPix a + 8 + th) (r_height wrapRect)) eqn:E;
    cbn [negb fst snd]; js_props; split; intros Hb; try discriminate; split;
    try reflexivity; lra.
Qed.

(** C3 (as the code has it): every tooltip is clamped horizontally to
    start at 4 or more and, when the viewport is at least 8 wider than the
    tooltip, to end at least 4 before the right edge.  Vertically there is
    a flip and no clamp: the pointer-anchored tooltip ([showTip]) sits 6
    above the pointer when its top is then not negative and 6 below
    otherwise; the geometry-anchored tooltips ([showSegAnchored],
    [showDurationAnchored]) sit 8 below the element when the tooltip then
    ends within the viewport height and 8 above the element's top
    otherwise. *)
Theorem tooltip_clamp_then_flip (zxRef zyRef : option Scale) (wrapRect : Rect) (tw th : Q) :
  (forall cx cy,
      let p := showTip wrapRect tw th cx cy in
      clampedX (r_width wrapRect) tw p /\ flippedAtPointer th (cy - r_top wrapRect) p) /\
  (forall seg p,
      showSegAnchored zxRef zyRef wrapRect tw th seg = Some p ->
      exists a, getSegmentAnchorPx zxRef zyRef seg = Some a /\
                clampedX (r_width wrapRect) tw p /\
                flippedAtAnchor (r_height wrapRect) th a p) /\
  (forall o p,
      showDurationAnchored zxRef zyRef wrapRect tw th o = Some p ->
      exists a, getDurationAnchorPx zxRef zyRef o = Some a /\
                clampedX (r_width wrapRect) tw p /\
                flippedAtAnchor (r_height wrapRect) th a p).
Proof.
  split; [| split].
  - intros cx cy p. split; [apply showTip_clampedX | apply showTip_flipped].
  - intros seg p. unfold showSegAnchored.
    destruct (getSegmentAnchorPx zxRef zyRef seg) as [a |]; [| discriminate].
    intros [= <-]. exists a.
    split; [reflexivity | split; [apply placeAnchored_clampedX | apply placeAnchored_flipped]].
  - intros o p. unfold showDurationAnchored.
    destruct (getDurationAnchorPx zxRef zyRef o) as [a |]; [| discriminate].
    intros [= <-]. exists a.
    split; [reflexivity | split; [apply placeAnchored_clampedX | apply placeAnchored_flipped]].
Qed.

End TooltipFacts.

(** C3, as stated, fails: in a 200 x 100 viewport a 100 x 50 tooltip fits,
    yet the card of a segment spanning heights 20 to 80 is flipped above
    the segment to top = -38, and the tooltip for a pointer at height 55 is
    flipped below the pointer to top = 61 and ends at 111; neither lies
    inside the viewport. *)
Lemma tooltip_containment_counterexample :
  let wrapRect := mkRect 0 0 200 100 in
  let ident : Scale := fun v => v in
  let seg := mkSegmentRow "band__seg_0" "band" "#999" 10 50 20 60 None None in
  JS.leb 100 (r_width wrapRect) && JS.leb 50 (r_height wrapRect) = true /\
  option_map (Tooltip.insideb 200 100 100 50)
             (Tooltip.showSegAnchored (Some ident) (Some ident) wrapRect 100 50 seg) = Some false /\
  option_map Tooltip.tip_top
             (Tooltip.showSegAnchored (Some ident) (Some ident) wrapRect 100 50 seg) = Some (-38)%Q /\
  Tooltip.insideb 200 100 100 50 (Tooltip.showTip wrapRect 100 50 100 55) = false /\
  Tooltip.tip_top (Tooltip.showTip wrapRect 100 50 100 55) = 61%Q.
Proof. vm_compute. repeat split. Qed.

Section HoverFacts.
Import Tooltip.
Local Open Scope Q_scope.

(** C7 (as the code has it): the tooltip of a hovered author line or text
    dot does not depend on the mouse event at all.  Once the rescaled axes
    exist it is [showTip] applied to the mark's own anchor in client
    coordinates: the middle of the lifespan line at the line's height, or
    the dot's centre as currently drawn. *)
Theorem hover_tooltip_anchored_at_mark (env : HoverEnv) (zx zy : Scale) :
  he_zx env = Some zx ->
  he_zy env = Some zy ->
  (forall ev ev' d,
      authorMouseEnter env ev d = authorMouseEnter env ev' d /\
      authorMouseMove env ev d = authorMouseEnter env ev' d /\
      authorMouseEnter env ev d =
        Some (showTip (he_wrapRect env) (he_tw env) (he_th env)
                (r_left (he_svgRect env) + margin_left +
                   (JS.min (zx (toAstronomicalQ (ar_start d))) (zx (toAstronomicalQ (ar_end d))) +
                    JS.max (zx (toAstronomicalQ (ar_start d))) (zx (toAstronomicalQ (ar_end d)))) / 2)
                (r_top (he_svgRect env) + margin_top + zy (ar_y d)))) /\
  (forall ev ev' this_cy d,
      textMouseEnter env ev this_cy d = textMouseEnter env ev' this_cy d /\
      textMouseMove env ev this_cy d = textMouseEnter env ev' this_cy d /\
      textMouseEnter env ev this_cy d =
        Some (showTip (he_wrapRect env) (he_tw env) (he_th env)
                (r_left (he_svgRect env) + margin_left + zx (toAstronomicalQ (tr_when d)))
                (r_top (he_svgRect env) + margin_top + this_cy))).
Proof.
  intros Hzx Hzy. split.
  - intros ev ev' d.
    unfold authorMouseEnter, authorMouseMove, authorAnchorClient.
    rewrite Hzx, Hzy. cbn [fst snd]. repeat split.
  - intros ev ev' this_cy d.
    unfold textMouseEnter, textMouseMove, textAnchorClient.
    rewrite Hzx, Hzy. cbn [fst snd]. repeat split.
Qed.

End HoverFacts.

(** The page used to exercise the hover handlers: identity axes, wrapper
    and svg both at the client origin, an 800 x 400 viewport and a
    100 x 30 tooltip. *)
Lemma hover_tooltip_anchored_at_mark_witness :
  let ident : Scale := fun v => v in
  let page := mkRect 0 0 800 400 in
  let env := Tooltip.mkHoverEnv (Some ident) (Some ident) page page 100 30 in
  let d := mkAuthorRow "band__author__A" "band" "A" 100 300 200 in
  Tooltip.he_zx env = Some ident /\
  Tooltip.he_zy env = Some ident /\
  Tooltip.authorMouseEnter env (Tooltip.mkMouseEvent 105 208) d =
  Tooltip.authorMouseEnter env (Tooltip.mkMouseEvent 295 208) d.
Proof.
  intros ident page env d. split; [reflexivity | split; [reflexivity |]].
  pose proof (hover_tooltip_anchored_at_mark env ident ident eq_refl eq_refl) as [Hauthor _].
  exact (proj1 (Hauthor (Tooltip.mkMouseEvent 105 208) (Tooltip.mkMouseEvent 295 208) d)).
Defined.

(** C7, as stated, fails: the pointer enters the lifespan line 100..300
    (drawn at client height 208) at its left end, at client (105, 208).
    The tooltip is placed from the line's midpoint, at left = 150, not from
    the event's client coordinates, which would give left = 55. *)
Lemma hover_tooltip_not_at_pointer :
  let ident : Scale := fun v => v in
  let page := mkRect 0 0 800 400 in
  let env := Tooltip.mkHoverEnv (Some ident) (Some ident) page page 100 30 in
  let d := mkAuthorRow "band__author__A" "band" "A" 100 300 200 in
  let ev := Tooltip.mkMouseEvent 105 208 in
  option_map (Tooltip.sameTip (Tooltip.showTip page 100 30 (Tooltip.clientX ev) (Tooltip.clientY ev)))
             (Tooltip.authorMouseEnter env ev d) = Some false /\
  option_map (Tooltip.sameTip (Tooltip.mkTipPos 150 172 false))
             (Tooltip.authorMouseEnter env ev d) = Some true /\
  Tooltip.sameTip (Tooltip.mkTipPos 55 172 false)
                  (Tooltip.showTip page 100 30 (Tooltip.clientX ev) (Tooltip.clientY ev)) = true.
Proof. vm_compute. repeat split. Qed.

(** ** Entity geometry *)

Section GeometryFacts.
Import Geometry.
Local Open Scope Q_scope.

Lemma segmentsOf_lookup innerHeight d segs i s :
  rd_segments d = Some segs ->
  segs !! i = Some s ->
  segmentsOf innerHeight d !! i =
    Some (mkSegmentRow (rd_id d +:+ "__seg_" +:+ pretty i) (rd_id d)
                       (JS.or_str (rd_color d) "#999") (rs_start s) (rs_end s)
                       (bandY innerHeight d) (bandH innerHeight d)
                       (rs_label s) (rs_note s)).
Proof.
  intros Hsegs Hs. unfold segmentsOf. rewrite Hsegs.
  rewrite list_lookup_imap, Hs. reflexivity.
Qed.

Lemma segmentsOf_in_segments innerHeight durations d row :
  In d durations -> In row (segmentsOf innerHeight d) -> In row (segments innerHeight durations).
Proof.
  intros Hd Hrow. unfold segments. apply in_concat.
  exists (segmentsOf innerHeight d). split; [| exact Hrow].
  apply in_map. exact Hd.
Qed.

Lemma compositeRowOf_in innerHeight data group :
  In group data -> isComposite group = true ->
  In (compositeRowOf innerHeight group) (compositeRows innerHeight data).
Proof.
  intros Hg Hc. unfold compositeRows. apply in_map. apply filter_In. auto.
Qed.

(** C8 (as the code has it).  In the earlier chart ([compositeRows] of
    [timeline.jsx]) a segment's [y] is its own [yRel] (times the inner
    height) or else its own [y], and only then the parent's [yRel], the
    parent's [y], or the index default; its [h] is its own [hRel] or
    [height], and only then the parent's [hRel], [height], or the default
    thickness.  In the interactive timeline ([segments]) every segment row
    takes the parent band's resolved [y] and [h]; the segment's own
    vertical fields are not read. *)
Theorem segment_vertical_geometry (innerHeight : Q) (data : list RawDuration)
    (d : RawDuration) (segs : list RawSegment) (i : nat) (s : RawSegment) :
  In d data ->
  rd_segments d = Some segs ->
  segs !! i = Some s ->
  (exists cs,
      In (compositeRowOf innerHeight d) (compositeRows innerHeight data) /\
      cr_segments (compositeRowOf innerHeight d) !! i = Some cs /\
      (forall yRel, rs_yRel s = Some yRel -> cs_y cs = yRel * innerHeight) /\
      (forall y, rs_yRel s = None -> rs_y s = Some y -> cs_y cs = y) /\
      (rs_yRel s = None -> rs_y s = None ->
         cs_y cs = match rd_yRel d with
                   | Some gyRel => gyRel * innerHeight
                   | None => match rd_y d with
                             | Some gy => gy
                             | None => inject_Z (Z.of_nat i) * 36
                             end
                   end) /\
      (forall hRel, rs_hRel s = Some hRel -> cs_h cs = hRel * innerHeight) /\
      (forall h, rs_hRel s = None -> rs_height s = Some h -> cs_h cs = h) /\
      (rs_hRel s = None -> rs_height s = None -> cs_h cs = bandH innerHeight d)) /\
  (exists row,
      In row (segments innerHeight data) /\
      segmentsOf innerHeight d !! i = Some row /\
      seg_parentId row = rd_id d /\
      seg_y row = bandY innerHeight d /\
      seg_h row = bandH innerHeight d).
Proof.
  intros Hd Hsegs Hs. split.
  - exists (mkCompositeSeg (rd_id d +:+ "__seg_" +:+ pretty i) (rs_start s) (rs_end s)
                           (compositeSegY innerHeight d i s) (compositeSegH innerHeight d s)
                           (JS.or_str (rs_color s) (JS.or_str (rd_color d) "#9ca3af"))).
    split; [| split].
    + apply compositeRowOf_in; [exact Hd |].
      unfold isComposite. rewrite Hsegs. destruct segs; [discriminate | reflexivity].
    + unfold compositeRowOf; cbn [cr_segments]. rewrite Hsegs; cbn [default from_option id].
      rewrite list_lookup_imap, Hs. reflexivity.
    + cbn [cs_y cs_h]. unfold compositeSegY, compositeSegH, bandH.
      repeat split.
      * intros yRel ->. reflexivity.
      * intros y -> ->. reflexivity.
      * intros -> ->. reflexivity.
      * intros hRel ->. reflexivity.
      * intros h -> ->. reflexivity.
      * intros -> ->. reflexivity.
  - eexists. split; [| split; [apply (segmentsOf_lookup innerHeight d segs i s Hsegs Hs) |]].
    + apply (segmentsOf_in_segments innerHeight data d); [exact Hd |].
      apply list_elem_of_In. eapply list_elem_of_lookup_2.
      apply (segmentsOf_lookup innerHeight d segs i s Hsegs Hs).
    + repeat split.
Qed.

End GeometryFacts.

(** A band at [y = 10], [height = 30] whose only segment carries its own
    [y = 50], [height = 5]. *)
Lemma segment_vertical_geometry_witness :
  let s := Geometry.mkRawSegment (-3100) (-2686) (Some "Early Dynastic") None None
                                 (Some 50%Q) None (Some 5%Q) None in
  let d := Geometry.mkRawDuration "egypt-composite" "Egypt" None None None
                                  (Some 10%Q) None (Some 30%Q) None (Some [s]) in
  In d [d] /\ Geometry.rd_segments d = Some [s] /\ [s] !! 0%nat = Some s /\
  exists row, In row (Geometry.segments 364 [d]) /\
              seg_y row = Geometry.bandY 364 d /\ seg_h row = Geometry.bandH 364 d.
Proof.
  intros s d.
  assert (Hin : In d [d]) by (left; reflexivity).
  split; [exact Hin | split; [reflexivity | split; [reflexivity |]]].
  destruct (segment_vertical_geometry 364 [d] d [s] 0 s Hin eq_refl eq_refl)
    as [_ [row [Hrow [_ [_ [Hy Hh]]]]]].
  exists row. auto.
Defined.

(** C8, as stated, fails for the interactive timeline: the segment above
    has its own [y = 50] and [height = 5], and its hit rect is built at the
    band's [y = 10], [h = 30]; the earlier chart builds it at 50 and 5. *)
Lemma segment_override_ignored :
  let s := Geometry.mkRawSegment (-3100) (-2686) (Some "Early Dynastic") None None
                                 (Some 50%Q) None (Some 5%Q) None in
  let d := Geometry.mkRawDuration "egypt-composite" "Egypt" None None None
                                  (Some 10%Q) None (Some 30%Q) None (Some [s]) in
  Geometry.rs_y s = Some 50%Q /\ Geometry.rs_height s = Some 5%Q /\
  map (fun r => (seg_y r, seg_h r)) (Geometry.segments 364 [d]) = [(10, 30)%Q] /\
  map (fun c => map (fun cs => (Geometry.cs_y cs, Geometry.cs_h cs)) (Geometry.cr_segments c))
      (Geometry.compositeRows 364 [d]) = [[(50, 5)%Q]].
Proof. vm_compute. repeat split. Qed.

(** ** Author and text rows *)

(** The helpers on small inputs: the FNV-1a hash of ["a"] is [0xE40C292C],
    the folder is the path component after [/data/], and [Number] turns
    [null] into 0 and a missing field into NaN. *)
Example hashString_a :
  Qeq_bool (Rows.hashString "a") (inject_Z 3826002220 / inject_Z (2 ^ 32)) = true.
Proof. vm_compute. reflexivity. Qed.

(** Outside ASCII the hash runs over UTF-16 code units, not bytes: one
    unit, 233, for U+00E9 (bytes 195 169), and the surrogate pair 55308,
    56448 for U+13080 (bytes 240 147 130 128). *)
Example hashString_code_units :
  let str (bytes : list nat) := String.string_of_list_ascii (map Ascii.ascii_of_nat bytes) in
  Rows.charCodes (str [195; 169]%nat) = [233%Z] /\
  Rows.charCodes (str [240; 147; 130; 128]%nat) = [55308%Z; 56448%Z] /\
  Qeq_bool (Rows.hashString (str [195; 169]%nat))
           (inject_Z 1812687940 / inject_Z (2 ^ 32)) = true /\
  Qeq_bool (Rows.hashString (str [240; 147; 130; 128]%nat))
           (inject_Z 1310684913 / inject_Z (2 ^ 32)) = true.
Proof. vm_compute. repeat split. Qed.

Example folderOf_paths :
  Rows.folderOf "../data/egypt/egypt_authors.json" = Some "egypt" /\
  Rows.folderOf "../data/stray_authors.json" = None.
Proof. vm_compute. split; reflexivity. Qed.

Example trim_spaces : Rows.trim "  Pyramid Texts " = "Pyramid Texts".
Proof. vm_compute. reflexivity. Qed.

(** A no-break space (bytes 194 160) in front and an ideographic space
    (227 128 128) behind are stripped as well; the letters in between, of
    two and three bytes each, stay. *)
Example trim_unicode_spaces :
  let str (bytes : list nat) := String.string_of_list_ascii (map Ascii.ascii_of_nat bytes) in
  Rows.trim (str [194; 160; 225; 188; 184; 206; 187; 206; 185; 206; 172; 207; 130;
                  227; 128; 128; 32]%nat) =
  str [225; 188; 184; 206; 187; 206; 185; 206; 172; 207; 130]%nat.
Proof. vm_compute. reflexivity. Qed.

Example Number_of_scalars :
  Rows.Number (fun _ => Rows.NaN) Rows.JNull = Rows.Fin 0 /\
  Rows.Number (fun _ => Rows.NaN) Rows.JUndefined = Rows.NaN /\
  Rows.Number (fun _ => Rows.NaN) (Rows.JNumber (Rows.Fin (-2600))) = Rows.Fin (-2600).
Proof. repeat split. Qed.

Section RowsFacts.
Import Rows.
Local Open Scope Q_scope.

Variable StringToNumber : string -> JSNum.
Variable NumberToString : Q -> string.
Variable stringifyAuthor : AuthorRec -> string.
Variable stringifyText : TextRec -> string.

Abbreviation Number := (Number StringToNumber).
Abbreviation authorRowOf := (authorRowOf StringToNumber NumberToString stringifyAuthor).
Abbreviation textRowOf := (textRowOf StringToNumber NumberToString stringifyText).
Abbreviation rowsA := (rowsA StringToNumber NumberToString stringifyAuthor stringifyText).
Abbreviation rowsT := (rowsT StringToNumber NumberToString stringifyAuthor stringifyText).
Abbreviation authorRows :=
  (authorRows StringToNumber NumberToString stringifyAuthor stringifyText).
Abbreviation textRows :=
  (textRows StringToNumber NumberToString stringifyAuthor stringifyText).

(** A [Map] built from a list of entries only holds entries of the list. *)
Lemma fold_insert_lookup (l : list Outline) (m : gmap string Outline) id band :
  fold_left (fun m o => <[o_id o := o]> m) l m !! id = Some band ->
  (In band l /\ o_id band = id) \/ m !! id = Some band.
Proof.
  revert m. induction l as [| o l IH]; intros m; cbn [fold_left].
  - intros H. right. exact H.
  - intros H. destruct (IH _ H) as [[Hin Hid] | Hm].
    + left. split; [right; exact Hin | exact Hid].
    + destruct (decide (o_id o = id)) as [Heq | Hne].
      * rewrite <- Heq, lookup_insert_eq in Hm. injection Hm as <-.
        left. split; [left; reflexivity | exact Heq].
      * rewrite lookup_insert_ne in Hm by exact Hne. right. exact Hm.
Qed.

Lemma outlinesById_Some outlines id band :
  outlinesById outlines !! id = Some band -> In band outlines /\ o_id band = id.
Proof.
  intros H. destruct (fold_insert_lookup outlines ∅ id band H) as [Hin | Hempty];
    [exact Hin | rewrite lookup_empty in Hempty; discriminate].
Qed.

Lemma trimCall_Throw v : trimCall v = Throw <-> isString v = false.
Proof. destruct v; cbn; split; intros H; try reflexivity; discriminate. Qed.

Lemma trimCall_Ok v s : trimCall v = Ok s -> v = JString (match v with JString x => x | _ => s end) /\ s = trim (match v with JString x => x | _ => s end).
Proof. destruct v; cbn; intros [= <-] || intros H; try discriminate; auto. Qed.

(** Run the [trim] calls at the head of a loop body that returned. *)
Ltac run_trims H :=
  repeat match type of H with
         | context [bind (trimCall ?v) _] =>
             destruct (trimCall v) as [? |] eqn:?; cbn [bind] in H; [| discriminate H]
         end.



Lemma authorRowOf_Some ds band a r :
  authorRowOf ds band a = Ok (Some r) ->
  ar_durationId r = ds_durationId ds /\
  Number (a_Dataviz_birth a) = Fin (ar_start r) /\
  Number (a_Dataviz_death a) = Fin (ar_end r).
Proof.
  unfold Rows.authorRowOf. intros H. run_trims H.
  destruct (Number (a_Dataviz_birth a)) as [birth | | |]; try discriminate.
  destruct (Number (a_Dataviz_death a)) as [death | | |]; try discriminate.
  injection H as <-. cbn. auto.
Qed.

Lemma authorRowOf_y ds band a r :
  authorRowOf ds band a = Ok (Some r) ->
  ar_y r = yForKey (ds_durationId ds) band (ar_name r).
Proof.
  unfold Rows.authorRowOf. intros H. run_trims H.
  destruct (Number (a_Dataviz_birth a)) as [birth | | |]; try discriminate.
  destruct (Number (a_Dataviz_death a)) as [death | | |]; try discriminate.
  injection H as <-. reflexivity.
Qed.


Lemma textRowOf_Some ds band t r :
  textRowOf ds band t = Ok (Some r) ->
  tr_durationId r = ds_durationId ds /\
  Number (t_Dataviz_date t) = Fin (tr_when r).
Proof.
  unfold Rows.textRowOf, getTextDate. intros H. run_trims H.
  destruct (Number (t_Dataviz_date t)) as [when | | |]; cbn in H; try discriminate.
  injection H as <-. cbn. auto.
Qed.

Lemma textRowOf_y ds band t r :
  textRowOf ds band t = Ok (Some r) ->
  exists key, tr_y r = yForKey (ds_durationId ds) band key.
Proof.
  unfold Rows.textRowOf. intros H. run_trims H.
  destruct (getTextDate StringToNumber t) as [when | | |]; try discriminate.
  injection H as <-. eexists. reflexivity.
Qed.


(** *** The loops *)

Lemma pushAll_In {A B} (body : A -> Outcome (option B)) l rows :
  pushAll body l = Ok rows ->
  forall r, In r rows <-> exists a, In a l /\ body a = Ok (Some r).
Proof.
  revert rows. induction l as [| a l IH]; cbn [pushAll]; intros rows H r.
  - injection H as <-. split; [intros [] | intros (a & [] & _)].
  - destruct (body a) as [o |] eqn:Ha; cbn [bind] in H; [| discriminate].
    destruct (pushAll body l) as [rows' |]; cbn [bind] in H; [| discriminate].
    injection H as <-. specialize (IH rows' eq_refl r).
    destruct o as [r0 |]; split.
    + intros [Heq | Hr].
      * subst r0. exists a. split; [left; reflexivity | exact Ha].
      * apply (proj1 IH) in Hr. destruct Hr as (a' & Ha' & Hb).
        exists a'. split; [right; exact Ha' | exact Hb].
    + intros (a' & [Heq | Ha'] & Hb).
      * subst a'. rewrite Ha in Hb. injection Hb as Hb. left. exact Hb.
      * right. apply (proj2 IH). exists a'. split; assumption.
    + intros Hr. apply (proj1 IH) in Hr. destruct Hr as (a' & Ha' & Hb).
      exists a'. split; [right; exact Ha' | exact Hb].
    + intros (a' & [Heq | Ha'] & Hb).
      * subst a'. rewrite Ha in Hb. discriminate Hb.
      * apply (proj2 IH). exists a'. split; assumption.
Qed.


(** The rows of one dataset followed by the rows of the others. *)
Lemma in_loop_step {R X : Type} (ds : Dataset) (rest : list Dataset) (band : Outline)
    (recs : Dataset -> list X) (body : Dataset -> Outline -> X -> Outcome (option R))
    (outlines : list Outline) (here more : list R) (r : R) :
  outlinesById outlines !! ds_durationId ds = Some band ->
  (In r here <-> exists x, In x (recs ds) /\ body ds band x = Ok (Some r)) ->
  (In r more <->
     exists ds' band' x,
       In ds' rest /\ outlinesById outlines !! ds_durationId ds' = Some band' /\
       In x (recs ds') /\ body ds' band' x = Ok (Some r)) ->
  (In r (here ++ more) <->
     exists ds' band' x,
       In ds' (ds :: rest) /\ outlinesById outlines !! ds_durationId ds' = Some band' /\
       In x (recs ds') /\ body ds' band' x = Ok (Some r)).
Proof.
  intros Hband Hhere Hmore. rewrite in_app_iff. split.
  - intros [H | H].
    + apply (proj1 Hhere) in H. destruct H as (x & Hx & Hb).
      exists ds, band, x. split; [left; reflexivity | auto].
    + apply (proj1 Hmore) in H. destruct H as (ds' & band' & x & Hds & Hrest).
      exists ds', band', x. split; [right; exact Hds | exact Hrest].
  - intros (ds' & band' & x & [Heq | Hds] & Hb' & Hx & Hb).
    + subst ds'. rewrite Hband in Hb'. injection Hb' as Hb'. subst band'.
      left. apply (proj2 Hhere). exists x. split; assumption.
    + right. apply (proj2 Hmore). exists ds', band', x. auto.
Qed.

Lemma in_loop_skip {R X : Type} (ds : Dataset) (rest : list Dataset)
    (recs : Dataset -> list X) (body : Dataset -> Outline -> X -> Outcome (option R))
    (outlines : list Outline) (more : list R) (r : R) :
  outlinesById outlines !! ds_durationId ds = None ->
  (In r more <->
     exists ds' band' x,
       In ds' rest /\ outlinesById outlines !! ds_durationId ds' = Some band' /\
       In x (recs ds') /\ body ds' band' x = Ok (Some r)) ->
  (In r more <->
     exists ds' band' x,
       In ds' (ds :: rest) /\ outlinesById outlines !! ds_durationId ds' = Some band' /\
       In x (recs ds') /\ body ds' band' x = Ok (Some r)).
Proof.
  intros Hband Hmore. rewrite Hmore. split.
  - intros (ds' & band' & x & Hds & Hrest).
    exists ds', band', x. split; [right; exact Hds | exact Hrest].
  - intros (ds' & band' & x & [Heq | Hds] & Hb' & Hrest).
    + subst ds'. rewrite Hband in Hb'. discriminate Hb'.
    + exists ds', band', x. auto.
Qed.

Lemma rowsLoop_In outlines registry rows :
  Rows.rowsLoop StringToNumber NumberToString stringifyAuthor stringifyText
                outlines registry = Ok rows ->
  (forall r, In r (fst rows) <->
     exists ds band a,
       In ds registry /\ outlinesById outlines !! ds_durationId ds = Some band /\
       In a (ds_authors ds) /\ authorRowOf ds band a = Ok (Some r)) /\
  (forall r, In r (snd rows) <->
     exists ds band t,
       In ds registry /\ outlinesById outlines !! ds_durationId ds = Some band /\
       In t (ds_texts ds) /\ textRowOf ds band t = Ok (Some r)).
Proof.
  revert rows. induction registry as [| ds rest IH]; cbn [Rows.rowsLoop]; intros rows H.
  - injection H as <-. cbn [fst snd].
    split; intros r; (split; [intros [] | intros (? & ? & ? & [] & _)]).
  - destruct (outlinesById outlines !! ds_durationId ds) as [band |] eqn:Hband.
    + destruct (pushAll (authorRowOf ds band) (ds_authors ds)) as [ra |] eqn:Hra;
        cbn [bind] in H; [| discriminate].
      destruct (pushAll (textRowOf ds band) (ds_texts ds)) as [rt |] eqn:Hrt;
        cbn [bind] in H; [| discriminate].
      destruct (Rows.rowsLoop _ _ _ _ outlines rest) as [more |];
        cbn [bind] in H; [| discriminate].
      injection H as <-. destruct (IH more eq_refl) as [IHa IHt]. cbn [fst snd].
      split; intros r.
      * apply (in_loop_step ds rest band ds_authors authorRowOf outlines);
          [exact Hband | apply (pushAll_In _ _ _ Hra) | apply IHa].
      * apply (in_loop_step ds rest band ds_texts textRowOf outlines);
          [exact Hband | apply (pushAll_In _ _ _ Hrt) | apply IHt].
    + destruct (IH rows H) as [IHa IHt]. split; intros r.
      * apply (in_loop_skip ds rest ds_authors authorRowOf outlines);
          [exact Hband | apply IHa].
      * apply (in_loop_skip ds rest ds_texts textRowOf outlines);
          [exact Hband | apply IHt].
Qed.


Lemma rowsA_In outlines registry r :
  In r (rowsA outlines registry) ->
  exists ds band a,
    In ds registry /\ outlinesById outlines !! ds_durationId ds = Some band /\
    In a (ds_authors ds) /\ authorRowOf ds band a = Ok (Some r).
Proof.
  unfold Rows.rowsA.
  destruct (Rows.rowsLoop _ _ _ _ outlines registry) as [rows |] eqn:E; [| intros []].
  apply (proj1 (rowsLoop_In outlines registry rows E)).
Qed.

Lemma rowsT_In outlines registry r :
  In r (rowsT outlines registry) ->
  exists ds band t,
    In ds registry /\ outlinesById outlines !! ds_durationId ds = Some band /\
    In t (ds_texts ds) /\ textRowOf ds band t = Ok (Some r).
Proof.
  unfold Rows.rowsT.
  destruct (Rows.rowsLoop _ _ _ _ outlines registry) as [rows |] eqn:E; [| intros []].
  apply (proj2 (rowsLoop_In outlines registry rows E)).
Qed.

Lemma authorRows_sub outlines registry r :
  In r (authorRows outlines registry) -> In r (rowsA outlines registry).
Proof. unfold Rows.authorRows. intros H. apply filter_In in H. tauto. Qed.

Lemma textRows_sub outlines registry r :
  In r (textRows outlines registry) -> In r (rowsT outlines registry).
Proof. unfold Rows.textRows. intros H. apply filter_In in H. tauto. Qed.




End RowsFacts.



(** And a record that is malformed in a display field is not skipped
    silently either: with a number as its category the loop body throws,
    although the record has no finite birth year and would be skipped; the
    memo then returns no rows at all, those of the well-formed record
    included. *)
Example non_string_display_field_raises :
  let s2n : string -> Rows.JSNum := fun _ => Rows.NaN in
  let n2s : Q -> string := fun _ => "n" in
  let u := Rows.JUndefined in
  let good := Rows.mkAuthorRec (Rows.JString "Imhotep") u u u u u u u u
                               (Rows.JNumber (Rows.Fin (-2650)))
                               (Rows.JNumber (Rows.Fin (-2600))) in
  let bad := Rows.mkAuthorRec (Rows.JString "Anonymous") u u u u u u
                              (Rows.JNumber (Rows.Fin 5)) u
                              u (Rows.JNumber (Rows.Fin (-2600))) in
  let band := mkOutline "egypt-composite" "Egypt" "#999" (-3100) 30 10 30 in
  let ds := fun authors => Rows.mkDataset "egypt" "egypt-composite" authors [] in
  Rows.isFinite (Rows.Number s2n (Rows.a_Dataviz_birth bad)) = false /\
  Rows.authorRowOf s2n n2s (fun _ => "a") (ds [good; bad]) band bad = Rows.Throw /\
  Rows.rowsMemo s2n n2s (fun _ => "a") (fun _ => "t") [band] [ds [good; bad]] = Rows.Throw /\
  length (Rows.authorRows s2n n2s (fun _ => "a") (fun _ => "t") [band] [ds [good]]) = 1%nat.
Proof. vm_compute. repeat split. Qed.

(** ** Collision-avoidance layout *)

Section LayoutFacts.
Import Layout.
Local Open Scope Q_scope.

(** *** The sort *)

Lemma insertByCx_perm x l : Permutation (insertByCx x l) (x :: l).
Proof.
  induction l as [| y l IH]; cbn [insertByCx]; [reflexivity |].
  destruct (JS.leb (it_cx x) (it_cx y)); [reflexivity |].
  rewrite IH. apply perm_swap.
Qed.

Lemma sortByCx_perm l : Permutation (sortByCx l) l.
Proof.
  induction l as [| x l IH]; cbn; [reflexivity |].
  rewrite insertByCx_perm. apply perm_skip, IH.
Qed.

Lemma insertByCx_sorted x l :
  StronglySorted cxLe l -> StronglySorted cxLe (insertByCx x l).
Proof.
  induction l as [| y l IH]; cbn [insertByCx]; intros Hs.
  - constructor; constructor.
  - apply StronglySorted_inv in Hs as [Hs Hy].
    destruct (JS.leb (it_cx x) (it_cx y)) eqn:E.
    + constructor; [constructor; assumption |].
      apply Qle_bool_iff in E. constructor; [exact E |].
      eapply Forall_impl; [exact Hy |]. unfold cxLe. intros z Hz. cbn in Hz. lra.
    + constructor; [apply IH, Hs |].
      apply Qle_bool_false in E.
      apply Forall_forall. intros z Hz.
      apply list_elem_of_In in Hz.
      apply (Permutation_in _ (insertByCx_perm x l)) in Hz as [<- | Hz].
      * unfold cxLe. lra.
      * rewrite Forall_forall in Hy. apply Hy, list_elem_of_In, Hz.
Qed.

Lemma sortByCx_sorted l : StronglySorted cxLe (sortByCx l).
Proof.
  induction l as [| x l IH]; cbn; [constructor | apply insertByCx_sorted, IH].
Qed.

(** *** Generic facts on [StronglySorted] *)

Lemma StronglySorted_rev {A} (R : A -> A -> Prop) (l : list A) :
  StronglySorted R l -> StronglySorted (fun a b => R b a) (rev l).
Proof.
  induction 1 as [| a l Hs IH Ha]; cbn [rev]; [constructor |].
  apply StronglySorted_app_2; [| exact IH | repeat constructor].
  intros x1 x2 Hx1 Hx2. apply list_elem_of_In in Hx1, Hx2.
  destruct Hx2 as [<- | []]. apply in_rev in Hx1.
  rewrite Forall_forall in Ha. apply Ha, list_elem_of_In, Hx1.
Qed.

Lemma StronglySorted_lookup {A} (R : A -> A -> Prop) (l : list A) :
  StronglySorted R l ->
  forall i j p q, (i < j)%nat -> l !! i = Some p -> l !! j = Some q -> R p q.
Proof.
  induction 1 as [| a l Hs IH Ha]; intros i j p q Hij Hp Hq; [discriminate |].
  destruct j as [| j]; [lia |]. cbn in Hq.
  destruct i as [| i]; cbn in Hp.
  - injection Hp as <-. rewrite Forall_forall in Ha.
    apply Ha. eapply list_elem_of_lookup_2, Hq.
  - apply (IH i j); [lia | assumption | assumption].
Qed.

(** *** The collision scan *)

Lemma collidesFrom_false k cx t back :
  StronglySorted (fun a b => p_cx b <= p_cx a) back ->
  collidesFrom k cx t back = false ->
  Forall (fun p => minDX k <= JS.abs (cx - p_cx p) \/ minDY k <= JS.abs (t - p_cy p)) back.
Proof.
  induction 1 as [| p rest Hs IH Hp]; cbn [collidesFrom]; intros Hc; [constructor |].
  destruct (JS.gtb (cx - p_cx p) (minDX k)) eqn:Hbreak.
  - (* the early exit: every earlier mark is at least as far to the left *)
    assert (Hfar : minDX k < cx - p_cx p).
    { unfold JS.gtb in Hbreak. apply negb_true_iff, Qle_bool_false in Hbreak. exact Hbreak. }
    constructor.
    + left. js_lra.
    + eapply Forall_impl; [exact Hp |]. intros p' Hp'. cbn in Hp'. left. js_lra.
  - destruct (JS.ltb (JS.abs (cx - p_cx p)) (minDX k)) eqn:Hdx;
      destruct (JS.ltb (JS.abs (t - p_cy p)) (minDY k)) eqn:Hdy;
      cbn [andb] in Hc; try discriminate.
    + constructor; [| apply IH, Hc]. right.
      unfold JS.ltb in Hdy. apply negb_false_iff, Qle_bool_iff in Hdy. exact Hdy.
    + constructor; [| apply IH, Hc]. left.
      unfold JS.ltb in Hdx. apply negb_false_iff, Qle_bool_iff in Hdx. exact Hdx.
    + constructor; [| apply IH, Hc]. left.
      unfold JS.ltb in Hdx. apply negb_false_iff, Qle_bool_iff in Hdx. exact Hdx.
Qed.

Lemma abs_sym (a b : Q) : JS.abs (a - b) == JS.abs (b - a).
Proof. js_lra. Qed.

Lemma collides_false_separated k placed cx t found p :
  StronglySorted placedLe placed ->
  collides k placed cx t = false ->
  In p placed ->
  separated k p (mkPlaced cx t found).
Proof.
  intros Hs Hc Hp. unfold collides in Hc.
  apply collidesFrom_false in Hc; [| apply (StronglySorted_rev placedLe), Hs].
  rewrite Forall_forall in Hc.
  specialize (Hc p). unfold separated; cbn [p_cx p_cy].
  rewrite (abs_sym (p_cx p) cx), (abs_sym (p_cy p) t).
  apply Hc, list_elem_of_In, in_rev. rewrite rev_involutive. exact Hp.
Qed.

(** *** The search over the lane offsets *)

Lemma firstFree_Some k bandTop bandBottom placed it offs cy :
  firstFree k bandTop bandBottom placed it offs = Some cy ->
  exists off, In off offs /\ cy = trialCy k bandTop bandBottom (it_baseCy it) off /\
              collides k placed (it_cx it) cy = false.
Proof.
  induction offs as [| off rest IH]; cbn [firstFree]; [discriminate |].
  destruct (collides k placed (it_cx it) (trialCy k bandTop bandBottom (it_baseCy it) off)) eqn:E.
  - intros H. destruct (IH H) as (off' & Hin & Hcy & Hfree).
    exists off'. split; [right; exact Hin | auto].
  - intros [= <-]. exists off. split; [left; reflexivity | auto].
Qed.

Lemma firstFree_None k bandTop bandBottom placed it offs :
  firstFree k bandTop bandBottom placed it offs = None ->
  forall off, In off offs ->
    collides k placed (it_cx it) (trialCy k bandTop bandBottom (it_baseCy it) off) = true.
Proof.
  induction offs as [| off rest IH]; cbn [firstFree]; intros H off' Hin; [destruct Hin |].
  destruct (collides k placed (it_cx it) (trialCy k bandTop bandBottom (it_baseCy it) off)) eqn:E;
    [| discriminate].
  destruct Hin as [<- | Hin]; [exact E | apply IH; assumption].
Qed.

Lemma chooseCy_not_found k bandTop bandBottom lanes placed it :
  snd (chooseCy k bandTop bandBottom lanes placed it) = false ->
  forall off, In off (offsets k lanes) ->
    collides k placed (it_cx it) (trialCy k bandTop bandBottom (it_baseCy it) off) = true.
Proof.
  unfold chooseCy.
  destruct (firstFree k bandTop bandBottom placed it (offsets k lanes)) eqn:E; cbn [snd];
    [discriminate | intros _; apply (firstFree_None _ _ _ _ _ _ E)].
Qed.

Lemma chooseCy_found_separated k bandTop bandBottom lanes placed it p :
  StronglySorted placedLe placed ->
  In p placed ->
  let c := chooseCy k bandTop bandBottom lanes placed it in
  separatedOrBestEffort k p (mkPlaced (it_cx it) (fst c) (snd c)).
Proof.
  intros Hs Hp c. subst c. unfold chooseCy.
  destruct (firstFree k bandTop bandBottom placed it (offsets k lanes)) as [cy |] eqn:E;
    cbn [fst snd].
  - left. apply firstFree_Some in E as (off & _ & _ & Hfree).
    apply (collides_false_separated k placed); assumption.
  - right. reflexivity.
Qed.


(** *** The loop over the sorted marks *)

Lemma placeLoop_prefix k bandTop bandBottom lanes sorted : forall adj placed,
  exists tail,
    snd (placeLoop k bandTop bandBottom lanes adj placed sorted) = placed ++ tail /\
    length tail = length sorted.
Proof.
  induction sorted as [| it rest IH]; intros adj placed; cbn [placeLoop].
  - exists []. rewrite app_nil_r. auto.
  - destruct (IH (<[tr_id (it_d it) := fst (chooseCy k bandTop bandBottom lanes placed it)]> adj)
                 (placed ++ [mkPlaced (it_cx it)
                                      (fst (chooseCy k bandTop bandBottom lanes placed it))
                                      (snd (chooseCy k bandTop bandBottom lanes placed it))]))
      as (tail & Heq & Hlen).
    eexists (_ :: tail). rewrite Heq, <- app_assoc. cbn. split; [reflexivity | lia].
Qed.

(** The mark pushed for the [j]-th sorted item is the choice made against
    exactly the marks pushed before it. *)
Lemma placeLoop_lookup k bandTop bandBottom lanes sorted : forall adj placed j it,
  sorted !! j = Some it ->
  let res := snd (placeLoop k bandTop bandBottom lanes adj placed sorted) in
  let c := chooseCy k bandTop bandBottom lanes (take (length placed + j) res) it in
  res !! (length placed + j)%nat = Some (mkPlaced (it_cx it) (fst c) (snd c)).
Proof.
  induction sorted as [| it0 rest IH]; intros adj placed j it Hj; [discriminate |].
  cbn [placeLoop].
  set (c0 := chooseCy k bandTop bandBottom lanes placed it0).
  set (new := mkPlaced (it_cx it0) (fst c0) (snd c0)).
  destruct j as [| j]; cbn in Hj.
  - injection Hj as <-.
    destruct (placeLoop_prefix k bandTop bandBottom lanes rest
                (<[tr_id (it_d it0) := fst c0]> adj) (placed ++ [new])) as (tail & Heq & _).
    cbn zeta. rewrite Heq, <- app_assoc, Nat.add_0_r.
    rewrite take_app_length, lookup_app_r by lia.
    rewrite Nat.sub_diag. reflexivity.
  - specialize (IH (<[tr_id (it_d it0) := fst c0]> adj) (placed ++ [new]) j it Hj).
    cbn zeta in IH. rewrite length_app in IH. cbn [length] in IH.
    replace (length placed + 1 + j)%nat with (length placed + S j)%nat in IH by lia.
    exact IH.
Qed.

Lemma placeLoop_separated k bandTop bandBottom lanes sorted : forall adj placed,
  StronglySorted cxLe sorted ->
  StronglySorted placedLe placed ->
  (forall p it, In p placed -> In it sorted -> p_cx p <= it_cx it) ->
  StronglySorted (separatedOrBestEffort k) placed ->
  StronglySorted (separatedOrBestEffort k)
                 (snd (placeLoop k bandTop bandBottom lanes adj placed sorted)).
Proof.
  induction sorted as [| it rest IH]; intros adj placed Hsorted Hasc Hle Hsep;
    cbn [placeLoop]; [exact Hsep |].
  apply StronglySorted_inv in Hsorted as [Hrest Hit].
  rewrite Forall_forall in Hit.
  apply IH.
  - exact Hrest.
  - apply StronglySorted_app_2; [| exact Hasc | repeat constructor].
    intros p q Hp Hq. apply list_elem_of_In in Hp, Hq. destruct Hq as [<- | []].
    unfold placedLe; cbn [p_cx]. apply Hle; [exact Hp | left; reflexivity].
  - intros p it' Hp Hit'. apply in_app_or in Hp as [Hp | [<- | []]].
    + apply Hle; [exact Hp | right; exact Hit'].
    + cbn [p_cx]. apply Hit, list_elem_of_In, Hit'.
  - apply StronglySorted_app_2; [| exact Hsep | repeat constructor].
    intros p q Hp Hq. apply list_elem_of_In in Hp, Hq. destruct Hq as [<- | []].
    apply chooseCy_found_separated; assumption.
Qed.






Lemma sortedItems_origin zx zy items it :
  In it (sortedItems zx zy items) -> In (it_d it) items.
Proof.
  unfold sortedItems. intros H.
  apply (Permutation_in _ (sortByCx_perm _)) in H.
  apply in_map_iff in H as (d & <- & Hd). exact Hd.
Qed.

Lemma sortedItems_length zx zy items : length (sortedItems zx zy items) = length items.
Proof.
  unfold sortedItems. rewrite (Permutation_length (sortByCx_perm _)). apply length_map.
Qed.

(** *** One band *)

Lemma layoutBand_length zx zy k band items adj :
  length (snd (layoutBand zx zy k band items adj)) = length items.
Proof.
  unfold layoutBand.
  destruct (placeLoop_prefix k (zy (o_y band)) (zy (o_y band + o_h band))
              (maxLanes k (zy (o_y band + o_h band) - zy (o_y band)))
              (sortedItems zx zy items) adj []) as (tail & -> & Hlen).
  cbn [app]. rewrite Hlen. apply sortedItems_length.
Qed.




(** One band: in the marks placed, in the order they were placed, any
    earlier mark [p] and later mark [q] are separated unless [q] found no
    free lane, and a mark found no free lane only when every lane offset's
    clamped trial position collided with a mark placed before it. *)
Lemma layoutBand_pairs (zx zy : Scale) (k : Q) (band : Outline)
    (items : list TextRow) (adj : gmap string Q) :
  let bandTop := zy (o_y band) in
  let bandBottom := zy (o_y band + o_h band) in
  let lanes := maxLanes k (bandBottom - bandTop) in
  let placed := snd (layoutBand zx zy k band items adj) in
  forall i j p q,
    (i < j)%nat -> placed !! i = Some p -> placed !! j = Some q ->
    (separated k p q \/ p_found q = false) /\
    (p_found q = false ->
       exists it, sortedItems zx zy items !! j = Some it /\
                  forall off, In off (offsets k lanes) ->
                    collides k (take j placed) (it_cx it)
                             (trialCy k bandTop bandBottom (it_baseCy it) off) = true).
Proof.
  intros bandTop bandBottom lanes placed i j p q Hij Hp Hq. split.
  - assert (Hsep : StronglySorted (separatedOrBestEffort k) placed).
    { subst placed. unfold layoutBand. apply placeLoop_separated.
      - apply sortByCx_sorted.
      - constructor.
      - intros p' it' [].
      - constructor. }
    apply (StronglySorted_lookup _ _ Hsep i j p q Hij Hp Hq).
  - intros Hfound.
    assert (Hlen : length placed = length (sortedItems zx zy items)).
    { subst placed. rewrite layoutBand_length, sortedItems_length. reflexivity. }
    apply lookup_lt_Some in Hq as Hj. rewrite Hlen in Hj.
    apply lookup_lt_is_Some_2 in Hj as [it Hit].
    exists it. split; [exact Hit |].
    pose proof (placeLoop_lookup k bandTop bandBottom lanes (sortedItems zx zy items)
                  adj [] j it Hit) as Hlk.
    cbn zeta in Hlk. cbn [length Nat.add] in Hlk.
    fold bandTop bandBottom lanes in placed.
    change (snd (placeLoop k bandTop bandBottom lanes adj [] (sortedItems zx zy items)))
      with placed in Hlk.
    rewrite Hq in Hlk. injection Hlk as ->. cbn [p_found] in Hfound.
    apply (chooseCy_not_found _ _ _ _ _ _ Hfound).
Qed.


(** *** Grouping by band *)

Lemma groupPush_sound (P : TextRow -> Prop) m d :
  (forall key arr x, In (key, arr) m -> In x arr -> tr_durationId x = key /\ P x) ->
  P d ->
  forall key arr x, In (key, arr) (groupPush m d) -> In x arr -> tr_durationId x = key /\ P x.
Proof.
  induction m as [| [key0 arr0] m IH]; intros Hm Hd key arr x Hin Hx; cbn [groupPush] in Hin.
  - destruct Hin as [[= <- <-] | []]. destruct Hx as [<- | []]. auto.
  - destruct (String.eqb_spec key0 (tr_durationId d)) as [Heq | Hne].
    + destruct Hin as [[= <- <-] | Hin].
      * apply in_app_or in Hx as [Hx | [<- | []]]; [| auto].
        apply (Hm key0 arr0); [left; reflexivity | exact Hx].
      * apply (Hm key arr); [right; exact Hin | exact Hx].
    + destruct Hin as [[= <- <-] | Hin].
      * apply (Hm key0 arr0); [left; reflexivity | exact Hx].
      * apply (IH (fun key arr x H => Hm key arr x (or_intror H)) Hd key arr x Hin Hx).
Qed.

Lemma groupPush_has m d :
  exists arr, In (tr_durationId d, arr) (groupPush m d) /\ In d arr.
Proof.
  induction m as [| [key0 arr0] m IH]; cbn [groupPush].
  - exists [d]. split; left; reflexivity.
  - destruct (String.eqb_spec key0 (tr_durationId d)) as [-> | Hne].
    + exists (arr0 ++ [d]). split; [left; reflexivity |].
      apply in_or_app. right. left. reflexivity.
    + destruct IH as (arr & Hin & Hd). exists arr. split; [right; exact Hin | exact Hd].
Qed.

Lemma groupPush_mono m d key arr x :
  In (key, arr) m -> In x arr ->
  exists arr', In (key, arr') (groupPush m d) /\ In x arr'.
Proof.
  induction m as [| [key0 arr0] m IH]; intros Hin Hx; [destruct Hin |].
  cbn [groupPush]. destruct (String.eqb_spec key0 (tr_durationId d)) as [Heq | Hne].
  - destruct Hin as [[= -> ->] | Hin].
    + exists (arr ++ [d]). split; [left; reflexivity | apply in_or_app; left; exact Hx].
    + exists arr. split; [right; exact Hin | exact Hx].
  - destruct Hin as [[= -> ->] | Hin].
    + exists arr. split; [left; reflexivity | exact Hx].
    + destruct (IH Hin Hx) as (arr' & Hin' & Hx'). exists arr'. split; [right; exact Hin' | exact Hx'].
Qed.

Lemma textsByBand_sound textRows key arr x :
  In (key, arr) (textsByBand textRows) -> In x arr ->
  tr_durationId x = key /\ In x textRows.
Proof.
  unfold textsByBand.
  assert (Hgen : forall rows m,
             (forall key arr x, In (key, arr) m -> In x arr ->
                                tr_durationId x = key /\ In x textRows) ->
             (forall d, In d rows -> In d textRows) ->
             forall key arr x, In (key, arr) (fold_left groupPush rows m) -> In x arr ->
                               tr_durationId x = key /\ In x textRows).
  { induction rows as [| d rows IH]; intros m Hm Hrows; cbn [fold_left]; [exact Hm |].
    apply IH.
    - apply groupPush_sound; [exact Hm | apply Hrows; left; reflexivity].
    - intros d' Hd'. apply Hrows. right. exact Hd'. }
  apply (Hgen textRows []); [intros ? ? ? [] | auto].
Qed.

Lemma textsByBand_complete textRows d :
  In d textRows ->
  exists arr, In (tr_durationId d, arr) (textsByBand textRows) /\ In d arr.
Proof.
  unfold textsByBand.
  assert (Hkeep : forall rows m,
             (exists arr, In (tr_durationId d, arr) m /\ In d arr) ->
             exists arr, In (tr_durationId d, arr) (fold_left groupPush rows m) /\ In d arr).
  { induction rows as [| d' rows IH]; intros m Hm; cbn [fold_left]; [exact Hm |].
    apply IH. destruct Hm as (arr & Hin & Hd). apply (groupPush_mono m d' _ arr d Hin Hd). }
  generalize (@nil (string * list TextRow)).
  induction textRows as [| d' rows IH]; intros m Hd; [destruct Hd |].
  cbn [fold_left]. destruct Hd as [-> | Hd].
  - apply Hkeep, groupPush_has.
  - apply IH, Hd.
Qed.

(** *** The whole frame *)

Lemma laneStep_pos k : 0 < k -> 0 < laneStep k.
Proof.
  intros Hk. unfold laneStep, laneStepPad, radius, TEXT_BASE_R.
  pose proof (max_lb_l 1 (inject_Z (JS.round ((7 # 10) * k * (15 # 100))))) as Hpad.
  lra.
Qed.


(** *** The drawn dots are the placed marks *)

Lemma NoDup_map_eq {A B} (f : A -> B) (l : list A) x y :
  NoDup (map f l) -> In x l -> In y l -> f x = f y -> x = y.
Proof.
  induction l as [| a l IH]; cbn [map]; intros Hnd Hx Hy Hf; [destruct Hx |].
  apply NoDup_cons in Hnd as [Ha Hnd]. rewrite list_elem_of_In in Ha.
  destruct Hx as [-> | Hx], Hy as [-> | Hy]; [reflexivity | | | auto].
  - exfalso. apply Ha. rewrite Hf. apply in_map, Hy.
  - exfalso. apply Ha. rewrite <- Hf. apply in_map, Hx.
Qed.

Lemma placeLoop_placed_indep k bandTop bandBottom lanes sorted : forall adj adj' placed,
  snd (placeLoop k bandTop bandBottom lanes adj placed sorted) =
  snd (placeLoop k bandTop bandBottom lanes adj' placed sorted).
Proof.
  induction sorted as [| it rest IH]; intros adj adj' placed; cbn [placeLoop];
    [reflexivity | apply IH].
Qed.

Lemma placeLoop_adj_untouched k bandTop bandBottom lanes sorted : forall adj placed id,
  (forall it, In it sorted -> tr_id (it_d it) <> id) ->
  fst (placeLoop k bandTop bandBottom lanes adj placed sorted) !! id = adj !! id.
Proof.
  induction sorted as [| it rest IH]; intros adj placed id Hid; cbn [placeLoop];
    [reflexivity |].
  rewrite IH by (intros it' Hit'; apply Hid; right; exact Hit').
  apply lookup_insert_ne, Hid. left. reflexivity.
Qed.

(** With distinct ids, the entry of [adjustedCy] for the [j]-th sorted
    mark is the centre of the [j]-th placed mark. *)
Lemma placeLoop_adj_own k bandTop bandBottom lanes sorted : forall adj placed j it,
  NoDup (map (fun it => tr_id (it_d it)) sorted) ->
  sorted !! j = Some it ->
  exists p,
    snd (placeLoop k bandTop bandBottom lanes adj placed sorted) !! (length placed + j)%nat
      = Some p /\
    p_cx p = it_cx it /\
    fst (placeLoop k bandTop bandBottom lanes adj placed sorted) !! tr_id (it_d it)
      = Some (p_cy p).
Proof.
  induction sorted as [| it0 rest IH]; intros adj placed j it Hnd Hj; [discriminate |].
  cbn [map] in Hnd. apply NoDup_cons in Hnd as [Hfresh Hnd].
  rewrite list_elem_of_In in Hfresh. cbn [placeLoop].
  set (c0 := chooseCy k bandTop bandBottom lanes placed it0).
  set (new := mkPlaced (it_cx it0) (fst c0) (snd c0)).
  destruct j as [| j]; cbn in Hj.
  - injection Hj as <-. exists new.
    destruct (placeLoop_prefix k bandTop bandBottom lanes rest
                (<[tr_id (it_d it0) := fst c0]> adj) (placed ++ [new])) as (tail & Heq & _).
    split; [| split; [reflexivity |]].
    + rewrite Heq, <- app_assoc, Nat.add_0_r, lookup_app_r by lia.
      rewrite Nat.sub_diag. reflexivity.
    + rewrite placeLoop_adj_untouched; [apply lookup_insert_eq |].
      intros it' Hit' Heq'. apply Hfresh. rewrite <- Heq'.
      apply (in_map (fun it => tr_id (it_d it))), Hit'.
  - destruct (IH (<[tr_id (it_d it0) := fst c0]> adj) (placed ++ [new]) j it Hnd Hj)
      as (p & Hp & Hcx & Hcy).
    exists p. rewrite length_app in Hp. cbn [length] in Hp.
    replace (length placed + S j)%nat with (length placed + 1 + j)%nat by lia.
    auto.
Qed.

Lemma sortedItems_ids_NoDup zx zy items :
  NoDup (map tr_id items) ->
  NoDup (map (fun it => tr_id (it_d it)) (sortedItems zx zy items)).
Proof.
  intros Hnd. unfold sortedItems.
  rewrite (Permutation_map (fun it => tr_id (it_d it)) (sortByCx_perm _)).
  rewrite map_map. cbn [it_d]. exact Hnd.
Qed.

(** One band, distinct ids: a mark of the band has a place in the sorted
    order, and the same place in [placed]; the placed centre is what
    [adjustedCy] holds for it, whatever [adjustedCy] held before. *)
Lemma layoutBand_own zx zy k band items d :
  NoDup (map tr_id items) ->
  In d items ->
  exists j p,
    sortedItems zx zy items !! j
      = Some (mkItem d (zx (toAstronomicalQ (tr_when d))) (zy (tr_y d))) /\
    snd (layoutBand zx zy k band items ∅) !! j = Some p /\
    p_cx p = zx (toAstronomicalQ (tr_when d)) /\
    forall adj, fst (layoutBand zx zy k band items adj) !! tr_id d = Some (p_cy p).
Proof.
  intros Hnd Hd.
  assert (Hin : In (mkItem d (zx (toAstronomicalQ (tr_when d))) (zy (tr_y d)))
                   (sortedItems zx zy items)).
  { unfold sortedItems. apply (Permutation_in _ (Permutation_sym (sortByCx_perm _))).
    apply (in_map (fun d => mkItem d (zx (toAstronomicalQ (tr_when d))) (zy (tr_y d)))), Hd. }
  apply list_elem_of_In, list_elem_of_lookup_1 in Hin as [j Hj].
  pose proof (sortedItems_ids_NoDup zx zy items Hnd) as Hnd'.
  destruct (placeLoop_adj_own k (zy (o_y band)) (zy (o_y band + o_h band))
              (maxLanes k (zy (o_y band + o_h band) - zy (o_y band)))
              (sortedItems zx zy items) ∅ [] j _ Hnd' Hj) as (p & Hp & Hcx & _).
  exists j, p. unfold layoutBand. cbn [length Nat.add] in Hp.
  split; [exact Hj | split; [exact Hp | split; [exact Hcx |]]].
  intros adj.
  destruct (placeLoop_adj_own k (zy (o_y band)) (zy (o_y band + o_h band))
              (maxLanes k (zy (o_y band + o_h band) - zy (o_y band)))
              (sortedItems zx zy items) adj [] j _ Hnd' Hj) as (p' & Hp' & _ & Hcy).
  cbn [length Nat.add] in Hp'.
  rewrite (placeLoop_placed_indep _ _ _ _ _ adj ∅) in Hp'.
  rewrite Hp in Hp'. injection Hp' as <-. exact Hcy.
Qed.

Lemma layoutBand_untouched zx zy k band items adj id :
  (forall d, In d items -> tr_id d <> id) ->
  fst (layoutBand zx zy k band items adj) !! id = adj !! id.
Proof.
  intros Hid. unfold layoutBand. apply placeLoop_adj_untouched.
  intros it Hit. apply Hid, (sortedItems_origin zx zy), Hit.
Qed.

Lemma groupPush_keys_In m d key :
  In key (map fst (groupPush m d)) -> key = tr_durationId d \/ In key (map fst m).
Proof.
  induction m as [| [key0 arr0] m IH]; cbn [groupPush map fst].
  - intros [<- | []]. left. reflexivity.
  - destruct (String.eqb key0 (tr_durationId d)); cbn [map fst].
    + intros H. right. exact H.
    + intros [<- | H]; [right; left; reflexivity |].
      destruct (IH H) as [-> | Hin]; [left; reflexivity | right; right; exact Hin].
Qed.

Lemma groupPush_keys_NoDup m d : NoDup (map fst m) -> NoDup (map fst (groupPush m d)).
Proof.
  induction m as [| [key0 arr0] m IH]; cbn [groupPush map fst]; intros Hnd.
  - apply NoDup_singleton.
  - destruct (String.eqb_spec key0 (tr_durationId d)) as [Heq | Hne]; cbn [map fst];
      [exact Hnd |].
    apply NoDup_cons in Hnd as [Hfresh Hnd]. apply NoDup_cons. split; [| apply IH, Hnd].
    rewrite list_elem_of_In in *. intros Hin.
    apply groupPush_keys_In in Hin as [-> | Hin]; [apply Hne; reflexivity | auto].
Qed.

Lemma textsByBand_keys_NoDup textRows : NoDup (map fst (textsByBand textRows)).
Proof.
  unfold textsByBand.
  assert (Hgen : forall rows m, NoDup (map fst m) -> NoDup (map fst (fold_left groupPush rows m))).
  { induction rows as [| d rows IH]; intros m Hm; cbn [fold_left]; [exact Hm |].
    apply IH, groupPush_keys_NoDup, Hm. }
  apply Hgen. constructor.
Qed.

Lemma groupPush_sublist pre m d :
  (forall key arr, In (key, arr) m -> arr `sublist_of` pre) ->
  forall key arr, In (key, arr) (groupPush m d) -> arr `sublist_of` pre ++ [d].
Proof.
  induction m as [| [key0 arr0] m IH]; intros Hm key arr Hin; cbn [groupPush] in Hin.
  - destruct Hin as [[= <- <-] | []]. apply sublist_inserts_l. reflexivity.
  - destruct (String.eqb key0 (tr_durationId d)).
    + destruct Hin as [[= <- <-] | Hin].
      * apply sublist_app; [apply (Hm key0); left; reflexivity | reflexivity].
      * apply sublist_inserts_r, (Hm key). right. exact Hin.
    + destruct Hin as [[= <- <-] | Hin].
      * apply sublist_inserts_r, (Hm key0). left. reflexivity.
      * apply (IH (fun key arr H => Hm key arr (or_intror H)) key arr Hin).
Qed.

Lemma textsByBand_sublist textRows key arr :
  In (key, arr) (textsByBand textRows) -> arr `sublist_of` textRows.
Proof.
  unfold textsByBand.
  assert (Hgen : forall rows pre m,
             (forall key arr, In (key, arr) m -> arr `sublist_of` pre) ->
             forall key arr, In (key, arr) (fold_left groupPush rows m) ->
                             arr `sublist_of` pre ++ rows).
  { induction rows as [| d rows IH]; intros pre m Hm key' arr' Hin; cbn [fold_left] in Hin.
    - rewrite app_nil_r. apply (Hm key'), Hin.
    - replace (pre ++ d :: rows) with ((pre ++ [d]) ++ rows) by (rewrite <- app_assoc; reflexivity).
      apply (IH (pre ++ [d]) (groupPush m d) (groupPush_sublist pre m d Hm) key' arr' Hin). }
  apply (Hgen textRows [] []). intros ? ? [].
Qed.

Lemma textsByBand_ids_NoDup textRows key arr :
  NoDup (map tr_id textRows) -> In (key, arr) (textsByBand textRows) -> NoDup (map tr_id arr).
Proof.
  intros Hnd Hin. apply textsByBand_sublist in Hin.
  change (NoDup (tr_id <$> arr)). apply (sublist_NoDup _ (tr_id <$> textRows)); [exact Hnd |].
  apply fmap_sublist. exact Hin.
Qed.

(** The entry of a mark survives the bands processed after its own. *)
Lemma adjustedCy_fold_untouched zx zy k outlines groups : forall adj id,
  (forall key arr x, In (key, arr) groups -> In x arr -> tr_id x <> id) ->
  fold_left (fun adj g =>
               match outlineById outlines !! fst g with
               | None => adj
               | Some band => fst (layoutBand zx zy k band (snd g) adj)
               end) groups adj !! id = adj !! id.
Proof.
  induction groups as [| [key arr] groups IH]; intros adj id Hid; cbn [fold_left];
    [reflexivity |].
  rewrite IH by (intros key' arr' x H; apply (Hid key' arr'); right; exact H).
  cbn [fst snd]. destruct (outlineById outlines !! key); [| reflexivity].
  apply layoutBand_untouched. intros d Hd. apply (Hid key arr); [left; reflexivity | exact Hd].
Qed.

Lemma adjustedCy_fold_own zx zy k outlines band key arr id v groups : forall adj,
  NoDup (map fst groups) ->
  In (key, arr) groups ->
  outlineById outlines !! key = Some band ->
  (forall key' arr' x, In (key', arr') groups -> key' <> key -> In x arr' -> tr_id x <> id) ->
  (forall adj0, fst (layoutBand zx zy k band arr adj0) !! id = Some v) ->
  fold_left (fun adj g =>
               match outlineById outlines !! fst g with
               | None => adj
               | Some band => fst (layoutBand zx zy k band (snd g) adj)
               end) groups adj !! id = Some v.
Proof.
  induction groups as [| [key0 arr0] groups IH]; intros adj Hnd Hin Hband Hother Hown;
    [destruct Hin |].
  cbn [map fst] in Hnd. apply NoDup_cons in Hnd as [Hfresh Hnd].
  rewrite list_elem_of_In in Hfresh. cbn [fold_left fst snd].
  destruct Hin as [[= -> ->] | Hin].
  - rewrite Hband, adjustedCy_fold_untouched; [apply Hown |].
    intros key' arr' x Hin' Hx. apply (Hother key' arr'); [right; exact Hin' | | exact Hx].
    intros ->. apply Hfresh. apply (in_map fst _ (key, arr')), Hin'.
  - apply IH; [exact Hnd | exact Hin | exact Hband | | exact Hown].
    intros key' arr' x Hin'. apply (Hother key' arr'). right. exact Hin'.
Qed.

(** With distinct ids, the dot of a mark whose band exists is drawn at
    the mark pushed for it by its band's loop. *)
Lemma dot_is_placed zx zy k outlines textRows d band :
  NoDup (map tr_id textRows) ->
  In d textRows ->
  outlineById outlines !! tr_durationId d = Some band ->
  exists arr j p,
    In (tr_durationId d, arr) (textsByBand textRows) /\
    sortedItems zx zy arr !! j
      = Some (mkItem d (zx (toAstronomicalQ (tr_when d))) (zy (tr_y d))) /\
    snd (layoutBand zx zy k band arr ∅) !! j = Some p /\
    dot_cx (dotOf zx zy k (adjustedCyOf zx zy k outlines textRows) d) = p_cx p /\
    dot_cy (dotOf zx zy k (adjustedCyOf zx zy k outlines textRows) d) = p_cy p.
Proof.
  intros Hnd Hd Hband.
  destruct (textsByBand_complete textRows d Hd) as (arr & Hgroup & Hdin).
  destruct (layoutBand_own zx zy k band arr d
              (textsByBand_ids_NoDup textRows _ arr Hnd Hgroup) Hdin)
    as (j & p & Hj & Hp & Hcx & Hown).
  exists arr, j, p. split; [exact Hgroup | split; [exact Hj | split; [exact Hp |]]].
  unfold dotOf; cbn [dot_cx dot_cy]. split; [symmetry; exact Hcx |].
  unfold adjustedCyOf.
  rewrite (adjustedCy_fold_own zx zy k outlines band (tr_durationId d) arr (tr_id d) (p_cy p));
    [reflexivity | apply textsByBand_keys_NoDup | exact Hgroup | exact Hband | | exact Hown].
  intros key' arr' x Hin' Hkey Hx Hid.
  destruct (textsByBand_sound textRows key' arr' x Hin' Hx) as [Hxkey Hxin].
  apply Hkey. rewrite <- Hxkey.
  f_equal. apply (NoDup_map_eq tr_id textRows); assumption.
Qed.

Lemma separated_sym k p q : separated k p q -> separated k q p.
Proof.
  unfold separated. rewrite (abs_sym (p_cx p) (p_cx q)), (abs_sym (p_cy p) (p_cy q)). tauto.
Qed.

(** C1 (as the code has it).  For one band: in the marks placed, in the
    order they were placed, any earlier mark [p] and later mark [q] are at
    least [minDX] apart horizontally or at least [minDY] apart vertically,
    unless the later one, [q], found no free lane; and a mark found no free
    lane only when, for every lane offset, its clamped trial position
    collided with a mark placed before it.  For the frame: when the ids of
    the rows are distinct, two marks of one band are drawn at two of the
    marks placed for that band, so the same holds for the drawn dots, the
    best-effort mark being the one of the two that was placed later. *)
Theorem lane_separation_or_best_effort (zx zy : Scale) (k : Q) :
  0 < k ->
  (forall band items adj,
      let bandTop := zy (o_y band) in
      let bandBottom := zy (o_y band + o_h band) in
      let lanes := maxLanes k (bandBottom - bandTop) in
      let placed := snd (layoutBand zx zy k band items adj) in
      forall i j p q,
        (i < j)%nat -> placed !! i = Some p -> placed !! j = Some q ->
        (separated k p q \/ p_found q = false) /\
        (p_found q = false ->
           exists it, sortedItems zx zy items !! j = Some it /\
                      forall off, In off (offsets k lanes) ->
                        collides k (take j placed) (it_cx it)
                                 (trialCy k bandTop bandBottom (it_baseCy it) off) = true)) /\
  (forall outlines textRows d1 d2 band,
      NoDup (map tr_id textRows) ->
      In d1 textRows -> In d2 textRows ->
      tr_id d1 <> tr_id d2 ->
      tr_durationId d2 = tr_durationId d1 ->
      outlineById outlines !! tr_durationId d1 = Some band ->
      let adjustedCy := adjustedCyOf zx zy k outlines textRows in
      let dot1 := dotOf zx zy k adjustedCy d1 in
      let dot2 := dotOf zx zy k adjustedCy d2 in
      exists arr i j p q,
        In (tr_durationId d1, arr) (textsByBand textRows) /\
        snd (layoutBand zx zy k band arr ∅) !! i = Some p /\
        snd (layoutBand zx zy k band arr ∅) !! j = Some q /\
        (dot_cx dot1 = p_cx p /\ dot_cy dot1 = p_cy p) /\
        (dot_cx dot2 = p_cx q /\ dot_cy dot2 = p_cy q) /\
        (minDX k <= JS.abs (dot_cx dot1 - dot_cx dot2) \/
         minDY k <= JS.abs (dot_cy dot1 - dot_cy dot2) \/
         ((i < j)%nat /\ p_found q = false) \/
         ((j < i)%nat /\ p_found p = false))).
Proof.
  intros Hk. split; [intros band items adj; apply layoutBand_pairs |].
  intros outlines textRows d1 d2 band Hnd Hd1 Hd2 Hids Hsame Hband adjustedCy dot1 dot2.
  destruct (dot_is_placed zx zy k outlines textRows d1 band Hnd Hd1 Hband)
    as (arr & i & p & Hgroup & Hi & Hp & Hcx1 & Hcy1).
  assert (Hband2 : outlineById outlines !! tr_durationId d2 = Some band)
    by (rewrite Hsame; exact Hband).
  destruct (dot_is_placed zx zy k outlines textRows d2 band Hnd Hd2 Hband2)
    as (arr2 & j & q & Hgroup2 & Hj & Hq & Hcx2 & Hcy2).
  rewrite Hsame in Hgroup2.
  assert (arr2 = arr) as ->.
  { pose proof (NoDup_map_eq fst (textsByBand textRows) _ _
                  (textsByBand_keys_NoDup textRows) Hgroup2 Hgroup eq_refl) as Heq.
    injection Heq as ->. reflexivity. }
  exists arr, i, j, p, q.
  fold adjustedCy dot1 in Hcx1, Hcy1. fold adjustedCy dot2 in Hcx2, Hcy2.
  do 5 (split; [auto |]).
  rewrite Hcx1, Hcy1, Hcx2, Hcy2.
  destruct (Nat.lt_trichotomy i j) as [Hlt | [-> | Hgt]].
  - destruct (layoutBand_pairs zx zy k band arr ∅ i j p q Hlt Hp Hq) as [[[H | H] | H] _];
      auto.
  - exfalso. rewrite Hi in Hj. injection Hj as Heq. apply Hids. rewrite Heq. reflexivity.
  - destruct (layoutBand_pairs zx zy k band arr ∅ j i q p Hgt Hq Hp) as [[Hsep | H] _];
      [| auto].
    apply separated_sym in Hsep. destruct Hsep as [H | H]; auto.
Qed.


End LayoutFacts.

(** A band three pixels high has a single lane at [k = 1]; its two marks
    share one year and one base height. *)
Lemma lane_separation_or_best_effort_witness :
  let ident : Scale := fun v => v in
  let band := mkOutline "egypt-composite" "Egypt" "#999" (-3100) 30 0 3 in
  let t1 := mkTextRow "egypt-composite__text__A__100" "egypt-composite" 100 (3 # 2) "A" "x" in
  let t2 := mkTextRow "egypt-composite__text__B__100" "egypt-composite" 100 (3 # 2) "B" "x" in
  let p := Layout.mkPlaced 100 (3 # 2) true in
  let q := Layout.mkPlaced 100 (3 # 2) false in
  let placed := snd (Layout.layoutBand ident ident 1 band [t1; t2] ∅) in
  (0 < 1)%Q /\ (0 < 1)%nat /\ placed !! 0%nat = Some p /\ placed !! 1%nat = Some q /\
  (Layout.separated 1 p q \/ Layout.p_found q = false).
Proof.
  intros ident band t1 t2 p q placed.
  assert (Hk : (0 < 1)%Q) by reflexivity.
  assert (Hij : (0 < 1)%nat) by lia.
  assert (Hp : placed !! 0%nat = Some p) by (vm_compute; reflexivity).
  assert (Hq : placed !! 1%nat = Some q) by (vm_compute; reflexivity).
  repeat (split; [assumption |]).
  destruct (lane_separation_or_best_effort ident ident 1 Hk) as [Hband _].
  destruct (Hband band [t1; t2] ∅ 0%nat 1%nat p q Hij Hp Hq) as [Hsep _].
  exact Hsep.
Defined.

(** C1, as stated, fails: a band three pixels high has one lane at
    [k = 1].  Of two marks at one year and one base height, the first finds
    the lane and the second, finding none, is clamped to the same centre:
    the two are neither separated nor both placed by the best-effort
    clamp. *)
Lemma overlap_with_a_mark_that_found_a_lane :
  let ident : Scale := fun v => v in
  let band := mkOutline "egypt-composite" "Egypt" "#999" (-3100) 30 0 3 in
  let t1 := mkTextRow "egypt-composite__text__A__100" "egypt-composite" 100 (3 # 2) "A" "x" in
  let t2 := mkTextRow "egypt-composite__text__B__100" "egypt-composite" 100 (3 # 2) "B" "x" in
  let placed := snd (Layout.layoutBand ident ident 1 band [t1; t2] ∅) in
  placed = [Layout.mkPlaced 100 (3 # 2) true; Layout.mkPlaced 100 (3 # 2) false] /\
  match placed !! 0%nat, placed !! 1%nat with
  | Some p, Some q =>
      Layout.separatedb 1 p q || (negb (Layout.p_found p) && negb (Layout.p_found q))
  | _, _ => true
  end = false.
Proof. vm_compute. split; reflexivity. Qed.


(** Twenty marks at one year in a band twelve pixels high (five lanes at
    [k = 1]): the first five find a lane, the other fifteen are clamped to
    the base height, where the first mark already is; all twenty dots lie
    inside the band's padded extent [[0.7, 11.3]]. *)
Example twenty_marks_at_one_year :
  let ident : Scale := fun v => v in
  let band := mkOutline "egypt-composite" "Egypt" "#999" (-3100) 30 0 12 in
  let mark := fun i : nat =>
    mkTextRow ("egypt-composite__text__T" +:+ pretty i +:+ "__100") "egypt-composite"
              100 6 ("T" +:+ pretty i) "x" in
  let placed := snd (Layout.layoutBand ident ident 1 band (map mark (seq 0 20)) ∅) in
  let dots := Layout.applyTexts ident ident 1 [band] (map mark (seq 0 20)) in
  map Layout.p_found placed =
    [true; true; true; true; true; false; false; false; false; false;
     false; false; false; false; false; false; false; false; false; false] /\
  match placed !! 0%nat, placed !! 5%nat with
  | Some p, Some q => Layout.separatedb 1 p q
  | _, _ => true
  end = false /\
  length dots = 20%nat /\
  forallb (fun e => JS.leb (7 # 10) (Layout.dot_cy (snd e)) &&
                    JS.leb (Layout.dot_cy (snd e)) (113 # 10)) dots = true.
Proof. vm_compute. repeat split. Qed.

(** ** Interaction state machine *)

Section InteractionFacts.
Import Interaction.
Local Open Scope Q_scope.

Variable segments : list SegmentRow.
Variable outlines : list Outline.

Arguments zoomedInAt : simpl never.

Lemma zoomedInAt_true k : zoomedInAt k = true <-> ZOOM_THRESHOLD <= k.
Proof. unfold zoomedInAt, JS.geb. apply Qle_bool_iff. Qed.

Lemma zoomedInAt_false k : zoomedInAt k = false <-> k < ZOOM_THRESHOLD.
Proof.
  unfold zoomedInAt, JS.geb. split.
  - apply Qle_bool_false.
  - intros H. destruct (Qle_bool ZOOM_THRESHOLD k) eqn:E; [| reflexivity].
    apply Qle_bool_iff in E. lra.
Qed.

Ltac split_state s :=
  destruct s as [k0 lastK prev dragging hovDur actDur awaiting actSeg hovSeg
                 tDur tSeg tAuthor tText selAuthor selText hit].

Ltac state_simpl :=
  cbv [kRef lastTransformRef prevZoomedInRef zoomDraggingRef hoveredDurationIdRef
       activeDurationIdRef awaitingCloseClickRef activeSegIdRef hoveredSegParentIdRef
       tipDur tipSeg tipAuthor tipText selectedAuthor selectedText hitZoomedIn
       set_kRef set_lastTransformRef set_prevZoomedInRef set_zoomDraggingRef
       set_hoveredDurationIdRef set_activeDurationIdRef set_awaitingCloseClickRef
       set_activeSegIdRef set_hoveredSegParentIdRef set_tipDur set_tipSeg
       set_tipAuthor set_tipText set_selectedAuthor set_selectedText set_hitZoomedIn
       clearActiveSegment clearActiveDuration setActiveSegment setActiveDuration
       updateInteractivity syncDurationHoverFromPointer hideAllTips
       outlineMouseEnter outlineMouseLeave outlineClick segMouseEnter segMouseLeave
       segClick authorClick textClick svgClick dispatchClick zoomStart
       zoomEnd handle accepts enabled exclusive inSync fst snd negb andb] in *.

Ltac branch :=
  repeat (match goal with
          | |- context [if ?b then _ else _] => destruct b eqn:?
          | |- context [match ?x with Some _ => _ | None => _ end] => destruct x eqn:?
          end; state_simpl).

Lemma updateInteractivity_mid k s :
  (prevZoomedInRef s = true -> hoveredDurationIdRef s = None) ->
  midZoom k (updateInteractivity k (set_kRef k (set_lastTransformRef (Some k) s))).
Proof.
  split_state s. unfold midZoom. state_simpl. intros Hprev.
  destruct (zoomedInAt k); state_simpl; auto.
Qed.

Lemma sync_mid k se s : midZoom k s -> midZoom k (syncDurationHoverFromPointer se s).
Proof.
  split_state s. unfold midZoom. state_simpl. intros (-> & Hhit & Hprev & Htrack).
  destruct se as [newId |]; [| auto].
  destruct (zoomedInAt k) eqn:Hk; state_simpl; rewrite ?Hk; auto.
  repeat split; try tauto. discriminate.
Qed.

Lemma keepSeg_mid k s : midZoom k s -> midZoom k (keepSegCardAnchored segments s).
Proof.
  split_state s. unfold midZoom, keepSegCardAnchored. state_simpl. intros H.
  destruct (JS.truthy actSeg); [| exact H].
  destruct (find _ segments); exact H.
Qed.

Lemma keepDuration_mid k s : midZoom k s -> midZoom k (keepDurationCardAnchored outlines s).
Proof.
  split_state s. unfold midZoom, keepDurationCardAnchored. state_simpl. intros H.
  destruct (JS.truthy actDur); [| exact H].
  destruct (find _ outlines); exact H.
Qed.

Lemma handoff_inv k s :
  midZoom k s ->
  kRef (thresholdHandoff k s) = k /\
  exclusive (thresholdHandoff k s) /\ inSync (thresholdHandoff k s).
Proof.
  split_state s. unfold midZoom, thresholdHandoff. state_simpl.
  intros (-> & -> & Hprev & Htrack).
  destruct (zoomedInAt k) eqn:Hk, prev; state_simpl; rewrite ?Hk; intuition auto.
Qed.

(** What the [zoom] listener needs from the state it is called in. *)
Lemma zoomHandler_inv k se s :
  (prevZoomedInRef s = true -> hoveredDurationIdRef s = None) ->
  kRef (zoomHandler segments outlines k se s) = k /\
  exclusive (zoomHandler segments outlines k se s) /\
  inSync (zoomHandler segments outlines k se s).
Proof.
  intros Hprev. unfold zoomHandler.
  apply handoff_inv, keepDuration_mid, keepSeg_mid, sync_mid, updateInteractivity_mid, Hprev.
Qed.

Lemma inv_prev_hovered s :
  exclusive s -> inSync s -> prevZoomedInRef s = true -> hoveredDurationIdRef s = None.
Proof.
  split_state s. state_simpl. intros Hex [-> _] Hz. rewrite Hz in Hex. tauto.
Qed.

Lemma mount_inv s :
  (prevZoomedInRef s = true -> hoveredDurationIdRef s = None) ->
  exclusive (mount segments outlines s) /\ inSync (mount segments outlines s).
Proof.
  intros Hprev. unfold mount.
  set (initK := default MIN_ZOOM (lastTransformRef s)).
  destruct (zoomHandler_inv initK None (zoomStart (hideAllTips (set_kRef initK s))))
    as (Hk & Hex & Hsync).
  { split_state s. exact Hprev. }
  revert Hk Hex Hsync.
  generalize (zoomHandler segments outlines initK None
                (zoomStart (hideAllTips (set_kRef initK s)))).
  intros s' Hk Hex Hsync. split_state s'. state_simpl. subst k0.
  destruct (zoomedInAt initK) eqn:E; state_simpl; rewrite ?E; tauto.
Qed.

Lemma handle_inv s e :
  exclusive s -> inSync s -> enabled s e = true ->
  exclusive (handle segments outlines s e) /\ inSync (handle segments outlines s e).
Proof.
  intros Hex Hsync Hen.
  destruct e as [t | t | t | t | | k se | se | | |];
    try (destruct t as [o | seg | d | d |]).
  all: try (cbn [handle];
            first [ apply mount_inv, inv_prev_hovered; assumption
                  | destruct (zoomHandler_inv k se s (inv_prev_hovered s Hex Hsync))
                      as (_ & H1 & H2); split; assumption ]).
  all: split_state s; state_simpl; destruct Hsync as [-> ->];
    destruct (zoomedInAt k0) eqn:Hz; state_simpl; try discriminate;
    branch; try congruence; intuition (try congruence; auto).
Qed.

Lemma initialRefs_ok :
  prevZoomedInRef initialRefs = true -> hoveredDurationIdRef initialRefs = None.
Proof. reflexivity. Qed.

Lemma reachable_inv s : reachable segments outlines s -> exclusive s /\ inSync s.
Proof.
  induction 1 as [| s e Hs [Hex Hsync] Hen].
  - apply mount_inv, initialRefs_ok.
  - apply handle_inv; assumption.
Qed.

(** C5: in every reachable state, overview mode ([kRef] below the
    threshold) has no active segment and no hovered-segment parent, and
    detail mode has no active duration, no hovered duration and no pending
    close click; and whatever zoom event comes next, the state right after
    it has the track of the mode it is not in cleared, so a crossing
    clears the exited track in the same event. *)
Theorem mode_exclusivity (s : State) :
  reachable segments outlines s ->
  (kRef s < ZOOM_THRESHOLD ->
     activeSegIdRef s = None /\ hoveredSegParentIdRef s = None) /\
  (ZOOM_THRESHOLD <= kRef s ->
     activeDurationIdRef s = None /\ hoveredDurationIdRef s = None /\
     awaitingCloseClickRef s = false) /\
  (forall k se,
      let s' := handle segments outlines s (Zoom k se) in
      kRef s' = k /\
      (ZOOM_THRESHOLD <= k ->
         activeDurationIdRef s' = None /\ hoveredDurationIdRef s' = None /\
         awaitingCloseClickRef s' = false) /\
      (k < ZOOM_THRESHOLD ->
         activeSegIdRef s' = None /\ hoveredSegParentIdRef s' = None)).
Proof.
  intros Hreach. destruct (reachable_inv s Hreach) as [Hex Hsync].
  split; [| split].
  - intros Hk. apply zoomedInAt_false in Hk. unfold exclusive in Hex.
    rewrite Hk in Hex. exact Hex.
  - intros Hk. apply zoomedInAt_true in Hk. unfold exclusive in Hex.
    rewrite Hk in Hex. exact Hex.
  - intros k se s'. subst s'. cbn [handle].
    destruct (zoomHandler_inv k se s (inv_prev_hovered s Hex Hsync)) as (Hk & Hex' & _).
    unfold exclusive in Hex'. rewrite Hk in Hex'.
    split; [exact Hk | split]; intros Hcmp.
    + apply zoomedInAt_true in Hcmp. rewrite Hcmp in Hex'. exact Hex'.
    + apply zoomedInAt_false in Hcmp. rewrite Hcmp in Hex'. exact Hex'.
Qed.




End InteractionFacts.

(** Both crossings.  Band A is hovered and opened in overview mode
    (active, hovered and a close click pending), then the zoom reaches 2.5:
    the duration track is cleared by that event.  In detail mode a segment
    is opened and its neighbour hovered, and the zoom returns to 1: the
    segment track is cleared by that event. *)
Lemma mode_exclusivity_witness :
  let A := mkOutline "egypt-composite" "Egypt" "#999" (-3100) 30 10 30 in
  let seg := mkSegmentRow "egypt-composite__seg_0" "egypt-composite" "#999"
                          (-3100) (-2686) 10 30 None None in
  let seg' := mkSegmentRow "egypt-composite__seg_1" "egypt-composite" "#999"
                           (-2686) (-2181) 10 30 None None in
  let step := Interaction.handle [seg; seg'] [A] in
  let s0 := Interaction.mount [seg; seg'] [A] Interaction.initialRefs in
  let hovered := step s0 (Interaction.MouseEnter (Interaction.OnOutline A)) in
  let opened := step hovered (Interaction.Click (Interaction.OnOutline A)) in
  let zoomedIn := step opened (Interaction.Zoom (25 # 10) None) in
  let segActive := step zoomedIn (Interaction.Click (Interaction.OnSegment seg)) in
  let segBoth := step segActive (Interaction.MouseEnter (Interaction.OnSegment seg')) in
  let zoomedOut := step segBoth (Interaction.Zoom 1 None) in
  (Interaction.reachable [seg; seg'] [A] opened /\
   (Interaction.kRef opened < Interaction.ZOOM_THRESHOLD)%Q /\
   Interaction.activeDurationIdRef opened = Some "egypt-composite" /\
   Interaction.hoveredDurationIdRef opened = Some "egypt-composite" /\
   Interaction.awaitingCloseClickRef opened = true /\
   (Interaction.ZOOM_THRESHOLD <= 25 # 10)%Q /\
   Interaction.activeDurationIdRef zoomedIn = None /\
   Interaction.hoveredDurationIdRef zoomedIn = None /\
   Interaction.awaitingCloseClickRef zoomedIn = false) /\
  (Interaction.reachable [seg; seg'] [A] segBoth /\
   (Interaction.ZOOM_THRESHOLD <= Interaction.kRef segBoth)%Q /\
   Interaction.activeSegIdRef segBoth = Some "egypt-composite__seg_0" /\
   Interaction.hoveredSegParentIdRef segBoth = Some "egypt-composite" /\
   Interaction.activeDurationIdRef segBoth = None /\
   (1 < Interaction.ZOOM_THRESHOLD)%Q /\
   Interaction.activeSegIdRef zoomedOut = None /\
   Interaction.hoveredSegParentIdRef zoomedOut = None).
Proof.
  intros A seg seg' step s0 hovered opened zoomedIn segActive segBoth zoomedOut.
  assert (R0 : Interaction.reachable [seg; seg'] [A] s0) by apply Interaction.reach_mount.
  assert (R1 : Interaction.reachable [seg; seg'] [A] hovered)
    by (apply Interaction.reach_step; [exact R0 | reflexivity]).
  assert (R2 : Interaction.reachable [seg; seg'] [A] opened)
    by (apply Interaction.reach_step; [exact R1 | reflexivity]).
  assert (R3 : Interaction.reachable [seg; seg'] [A] zoomedIn)
    by (apply Interaction.reach_step; [exact R2 | reflexivity]).
  assert (R4 : Interaction.reachable [seg; seg'] [A] segActive)
    by (apply Interaction.reach_step; [exact R3 | reflexivity]).
  assert (R5 : Interaction.reachable [seg; seg'] [A] segBoth)
    by (apply Interaction.reach_step; [exact R4 | reflexivity]).
  assert (Hin : (Interaction.ZOOM_THRESHOLD <= 25 # 10)%Q) by (vm_compute; discriminate).
  assert (Hout : (1 < Interaction.ZOOM_THRESHOLD)%Q) by reflexivity.
  assert (Hk5 : (Interaction.ZOOM_THRESHOLD <= Interaction.kRef segBoth)%Q)
    by (vm_compute; discriminate).
  split.
  - destruct (mode_exclusivity [seg; seg'] [A] opened R2) as (_ & _ & Hzoom).
    destruct (Hzoom (25 # 10) None) as (_ & Hdetail & _).
    destruct (Hdetail Hin) as (H1 & H2 & H3).
    split; [exact R2 |]. split; [reflexivity |].
    split; [reflexivity |]. split; [reflexivity |]. split; [reflexivity |].
    split; [exact Hin |]. split; [exact H1 |]. split; [exact H2 | exact H3].
  - destruct (mode_exclusivity [seg; seg'] [A] segBoth R5) as (_ & Hdet & Hzoom).
    destruct (Hdet Hk5) as (Hd & _ & _).
    destruct (Hzoom 1%Q None) as (_ & _ & Hoverview).
    destruct (Hoverview Hout) as (H1 & H2).
    split; [exact R5 |]. split; [exact Hk5 |].
    split; [reflexivity |]. split; [reflexivity |]. split; [exact Hd |].
    split; [exact Hout |]. split; [exact H1 | exact H2].
Defined.


(** The scripted runs of the specification.  Open band A, then click band
    B: B is not opened.  Zoom in past the threshold with A open and
    hovered: the duration track is cleared.  Activate a segment and zoom
    back out: the segment track is cleared. *)
Example scripted_runs :
  let A := mkOutline "egypt-composite" "Egypt" "#999" (-3100) 30 10 30 in
  let B := mkOutline "greece-composite" "Greece" "#999" (-800) (-31) 50 30 in
  let seg := mkSegmentRow "egypt-composite__seg_0" "egypt-composite" "#999"
                          (-3100) (-2686) 10 30 None None in
  let run := fold_left (Interaction.handle [seg] [A; B]) in
  let s0 := Interaction.mount [seg] [A; B] Interaction.initialRefs in
  let opened := run [Interaction.MouseEnter (Interaction.OnOutline A);
                     Interaction.Click (Interaction.OnOutline A)] s0 in
  let second := run [Interaction.Click (Interaction.OnOutline B)] opened in
  let zoomedIn := run [Interaction.Zoom (25 # 10) None] opened in
  let segHovered := run [Interaction.MouseEnter (Interaction.OnSegment seg)] zoomedIn in
  let segActive := run [Interaction.Click (Interaction.OnSegment seg)] segHovered in
  let zoomedOut := run [Interaction.Zoom 1 None] segActive in
  (Interaction.activeDurationIdRef opened, Interaction.awaitingCloseClickRef opened,
   Interaction.hoveredDurationIdRef opened) =
    (Some "egypt-composite", true, Some "egypt-composite") /\
  (Interaction.activeDurationIdRef second, Interaction.awaitingCloseClickRef second,
   Interaction.tipDur second) = (None, false, None) /\
  (Interaction.activeDurationIdRef zoomedIn, Interaction.hoveredDurationIdRef zoomedIn,
   Interaction.awaitingCloseClickRef zoomedIn) = (None, None, false) /\
  Interaction.hoveredSegParentIdRef segHovered = Some "egypt-composite" /\
  Interaction.activeSegIdRef segActive = Some "egypt-composite__seg_0" /\
  (Interaction.activeSegIdRef zoomedOut, Interaction.hoveredSegParentIdRef zoomedOut) =
    (None, None).
Proof. vm_compute. repeat split. Qed.

(* ===================================================================== *)
(** * Part III — further properties of the code                           *)
(* ===================================================================== *)

(** ** Temporal mapping *)

Section YearExtras.
Local Open Scope Z_scope.

(** X1: converting back from the astronomical numbering never gives year
    0, for any integer; and going back and forth from an astronomical year
    above [- 2 ^ 53] returns it.  The bound is sharp: at [- 2 ^ 53] the
    subtraction is absorbed and the way back gives [- 2 ^ 53 + 1]. *)
Theorem astronomical_years_skip_zero (a : Z) :
  Year.fromAstronomical a <> 0%Z /\
  ((- 2 ^ 53 < a)%Z -> Year.toAstronomical (Year.fromAstronomical a) = a) /\
  (a = (- 2 ^ 53)%Z -> Year.toAstronomical (Year.fromAstronomical a) = (a + 1)%Z).
Proof.
  split; [| split].
  - unfold Year.fromAstronomical, JSInt.sub.
    destruct (Z.leb_spec a 0) as [Hle | Hgt]; [| lia].
    pose proof (round_negative (a - 1) ltac:(lia)). lia.
  - intros Hlo. change (2 ^ 53)%Z with 9007199254740992%Z in Hlo.
    unfold Year.fromAstronomical, Year.toAstronomical, JSInt.add, JSInt.sub.
    destruct (Z.leb_spec a 0) as [Hle | Hgt].
    + rewrite (round_exact (a - 1)) by (change (2 ^ 53)%Z with 9007199254740992%Z; lia).
      destruct (Z.leb_spec (a - 1) 0) as [_ | Hpos]; [| lia].
      replace (a - 1 + 1)%Z with a by lia.
      apply round_exact. change (2 ^ 53)%Z with 9007199254740992%Z. lia.
    + destruct (Z.leb_spec a 0); [lia | reflexivity].
  - intros ->. vm_compute. reflexivity.
Qed.

Lemma astronomical_years_skip_zero_witness :
  (- 2 ^ 53 < -3099)%Z /\
  Year.fromAstronomical (-3099) = (-3100)%Z /\
  Year.toAstronomical (Year.fromAstronomical (-3099)) = (-3099)%Z.
Proof.
  assert (H : (- 2 ^ 53 < -3099)%Z) by (vm_compute; reflexivity).
  split; [exact H | split; [reflexivity |]].
  exact (proj1 (proj2 (astronomical_years_skip_zero (-3099))) H).
Defined.

(** X2: for years not below [- 2 ^ 53] the conversion keeps the order of
    years, strictly for years other than 0, and it puts 1 BCE and 1 CE
    next to each other; year 0 is not told apart from year 1.  Below the
    bound strictness is lost: [-9007199254740998] and [-9007199254740996]
    are both taken to [-9007199254740996]. *)
Theorem toAstronomical_order (y1 y2 : Z) :
  (- 2 ^ 53 <= y1)%Z -> (y1 <= y2)%Z ->
  (Year.toAstronomical y1 <= Year.toAstronomical y2)%Z /\
  (y1 < y2 -> y1 <> 0 -> y2 <> 0 -> Year.toAstronomical y1 < Year.toAstronomical y2)%Z /\
  (Year.toAstronomical 1 - Year.toAstronomical (-1) = 1)%Z /\
  Year.toAstronomical 0 = Year.toAstronomical 1 /\
  Year.toAstronomical (-9007199254740998) = Year.toAstronomical (-9007199254740996).
Proof.
  intros Hlo Hle. change (2 ^ 53)%Z with 9007199254740992%Z in Hlo.
  assert (Hexact : forall y, (-9007199254740992 <= y)%Z ->
             Year.toAstronomical y = if (y <=? 0)%Z then (y + 1)%Z else y).
  { intros y Hy. unfold Year.toAstronomical, JSInt.add.
    destruct (Z.leb_spec y 0); [| reflexivity].
    apply round_exact. change (2 ^ 53)%Z with 9007199254740992%Z. lia. }
  rewrite (Hexact y1 Hlo), (Hexact y2 ltac:(lia)).
  split; [| split; [| split; [| split]]]; try (vm_compute; reflexivity).
  - destruct (Z.leb_spec y1 0), (Z.leb_spec y2 0); lia.
  - destruct (Z.leb_spec y1 0), (Z.leb_spec y2 0); lia.
Qed.

Lemma toAstronomical_order_witness :
  (- 2 ^ 53 <= -3100)%Z /\ (-3100 <= -30)%Z /\
  (Year.toAstronomical (-3100) <= Year.toAstronomical (-30))%Z.
Proof.
  assert (H0 : (- 2 ^ 53 <= -3100)%Z) by (vm_compute; discriminate).
  assert (H1 : (-3100 <= -30)%Z) by (vm_compute; discriminate).
  split; [exact H0 | split; [exact H1 |]].
  exact (proj1 (toAstronomical_order (-3100) (-30) H0 H1)).
Defined.

(** Within that range the helper of the chart geometry agrees with the
    integer helper. *)
Lemma toAstronomicalQ_integer (y : Z) :
  (- 2 ^ 53 <= y)%Z ->
  (toAstronomicalQ (inject_Z y) == inject_Z (Year.toAstronomical y))%Q.
Proof.
  intros Hlo. change (2 ^ 53)%Z with 9007199254740992%Z in Hlo.
  unfold toAstronomicalQ, Year.toAstronomical, JSInt.add, JS.leb.
  destruct (Qle_bool (inject_Z y) 0) eqn:E.
  - apply Qle_bool_iff in E. change 0%Q with (inject_Z 0) in E.
    rewrite <- Zle_Qle in E. pose proof E as E'. apply Z.leb_le in E'. rewrite E'.
    rewrite round_exact by (change (2 ^ 53)%Z with 9007199254740992%Z; lia).
    rewrite inject_Z_plus. reflexivity.
  - apply Qle_bool_false in E. change 0%Q with (inject_Z 0) in E.
    rewrite <- Zlt_Qlt in E. apply Z.leb_gt in E. rewrite E. reflexivity.
Qed.

End YearExtras.

(** ** Bands and segments *)

Section GeometryExtras.
Import Geometry.
Local Open Scope Q_scope.

Lemma d3_min_spec l m :
  d3_min l = Some m -> In m l /\ forall x, In x l -> m <= x.
Proof.
  destruct l as [| x0 l]; [discriminate |]. cbn [d3_min]. intros [= <-].
  assert (Hgen : forall l x0,
             let r := fold_left (fun m v => if JS.ltb v m then v else m) l x0 in
             r <= x0 /\ (forall x, In x l -> r <= x) /\ (r = x0 \/ In r l)).
  { clear. induction l as [| v l IH]; intros x0; cbn [fold_left].
    - split; [lra | split; [intros x [] | left; reflexivity]].
    - destruct (IH (if JS.ltb v x0 then v else x0)) as (Hle & Hall & Hin).
      unfold JS.ltb in *. destruct (Qle_bool x0 v) eqn:E; cbn [negb] in *; js_props.
      + split; [exact Hle | split].
        * intros x [<- | Hx]; [lra | apply Hall, Hx].
        * destruct Hin as [-> | Hin]; [left; reflexivity | right; right; exact Hin].
      + split; [lra | split].
        * intros x [<- | Hx]; [exact Hle | apply Hall, Hx].
        * destruct Hin as [-> | Hin]; [right; left; reflexivity | right; right; exact Hin]. }
  destruct (Hgen l x0) as (Hle & Hall & Hin). split.
  - destruct Hin as [-> | Hin]; [left; reflexivity | right; exact Hin].
  - intros x [<- | Hx]; [exact Hle | apply Hall, Hx].
Qed.

Lemma d3_max_spec l m :
  d3_max l = Some m -> In m l /\ forall x, In x l -> x <= m.
Proof.
  destruct l as [| x0 l]; [discriminate |]. cbn [d3_max]. intros [= <-].
  assert (Hgen : forall l x0,
             let r := fold_left (fun m v => if JS.gtb v m then v else m) l x0 in
             x0 <= r /\ (forall x, In x l -> x <= r) /\ (r = x0 \/ In r l)).
  { clear. induction l as [| v l IH]; intros x0; cbn [fold_left].
    - split; [lra | split; [intros x [] | left; reflexivity]].
    - destruct (IH (if JS.gtb v x0 then v else x0)) as (Hle & Hall & Hin).
      unfold JS.gtb in *. destruct (Qle_bool v x0) eqn:E; cbn [negb] in *; js_props.
      + split; [exact Hle | split].
        * intros x [<- | Hx]; [lra | apply Hall, Hx].
        * destruct Hin as [-> | Hin]; [left; reflexivity | right; right; exact Hin].
      + split; [lra | split].
        * intros x [<- | Hx]; [exact Hle | apply Hall, Hx].
        * destruct Hin as [-> | Hin]; [right; left; reflexivity | right; right; exact Hin]. }
  destruct (Hgen l x0) as (Hle & Hall & Hin). split.
  - destruct Hin as [-> | Hin]; [left; reflexivity | right; exact Hin].
  - intros x [<- | Hx]; [exact Hle | apply Hall, Hx].
Qed.

Lemma outlineOf_segmented innerHeight d segs o :
  rd_segments d = Some segs ->
  outlineOf innerHeight d = Some o ->
  d3_min (map rs_start segs) = Some (o_start o) /\
  d3_max (map rs_end segs) = Some (o_end o) /\
  o_id o = rd_id d /\ o_y o = bandY innerHeight d /\ o_h o = bandH innerHeight d.
Proof.
  intros Hsegs. unfold outlineOf. rewrite Hsegs.
  destruct (d3_min (map rs_start segs)) as [s |]; [| discriminate].
  destruct (d3_max (map rs_end segs)) as [e |]; [| discriminate].
  intros [= <-]. cbn. auto.
Qed.

(** X3: the band of a segmented duration spans its segments: its start is
    the earliest segment start, its end the latest segment end, so every
    segment lies between them. *)
Theorem outline_spans_segments (innerHeight : Q) (d : RawDuration)
    (segs : list RawSegment) (o : Outline) :
  rd_segments d = Some segs ->
  outlineOf innerHeight d = Some o ->
  (exists s, In s segs /\ rs_start s = o_start o) /\
  (exists s, In s segs /\ rs_end s = o_end o) /\
  (forall s, In s segs -> o_start o <= rs_start s /\ rs_end s <= o_end o).
Proof.
  intros Hsegs Ho.
  destruct (outlineOf_segmented innerHeight d segs o Hsegs Ho) as (Hmin & Hmax & _).
  apply d3_min_spec in Hmin as [Hmin_in Hmin]. apply d3_max_spec in Hmax as [Hmax_in Hmax].
  apply in_map_iff in Hmin_in as (s1 & Hs1 & Hin1).
  apply in_map_iff in Hmax_in as (s2 & Hs2 & Hin2).
  split; [exists s1; auto | split; [exists s2; auto |]].
  intros s Hs. split; [apply Hmin, in_map, Hs | apply Hmax, in_map, Hs].
Qed.


Lemma outlineOf_fields innerHeight d o :
  outlineOf innerHeight d = Some o ->
  o_id o = rd_id d /\ o_y o = bandY innerHeight d /\ o_h o = bandH innerHeight d.
Proof.
  unfold outlineOf. destruct (rd_segments d) as [segs |].
  - destruct (d3_min (map rs_start segs)), (d3_max (map rs_end segs)); try discriminate.
    intros [= <-]. cbn. auto.
  - destruct (rd_start d), (rd_end d); try discriminate. intros [= <-]. cbn. auto.
Qed.


Lemma segments_In innerHeight durations row :
  In row (segments innerHeight durations) ->
  exists d segs i s,
    In d durations /\ rd_segments d = Some segs /\ segs !! i = Some s /\
    row = mkSegmentRow (rd_id d +:+ "__seg_" +:+ pretty i) (rd_id d)
                       (JS.or_str (rd_color d) "#999") (rs_start s) (rs_end s)
                       (bandY innerHeight d) (bandH innerHeight d)
                       (rs_label s) (rs_note s).
Proof.
  unfold segments. intros H. apply in_concat in H as (rows & Hrows & Hrow).
  apply in_map_iff in Hrows as (d & <- & Hd).
  unfold segmentsOf in Hrow. destruct (rd_segments d) as [segs |] eqn:Hsegs; [| destruct Hrow].
  apply list_elem_of_In, list_elem_of_lookup_1 in Hrow as [i Hi].
  rewrite list_lookup_imap in Hi.
  destruct (segs !! i) as [s |] eqn:Hs; [| discriminate]. injection Hi as <-.
  exists d, segs, i, s. auto.
Qed.


End GeometryExtras.

(** A band of two segments. *)
Lemma outline_spans_segments_witness :
  let s1 := Geometry.mkRawSegment (-3100) (-2686) (Some "Early Dynastic") None None
                                  None None None None in
  let s2 := Geometry.mkRawSegment (-2686) (-2181) (Some "Old Kingdom") None None
                                  None None None None in
  let d := Geometry.mkRawDuration "egypt-composite" "Egypt" None None None
                                  (Some 10%Q) None (Some 30%Q) None (Some [s1; s2]) in
  let o := mkOutline "egypt-composite" "Egypt" "#999" (-3100) (-2181) 10 30 in
  Geometry.rd_segments d = Some [s1; s2] /\
  Geometry.outlineOf 364 d = Some o /\
  forall s, In s [s1; s2] -> (o_start o <= Geometry.rs_start s /\ Geometry.rs_end s <= o_end o)%Q.
Proof.
  intros s1 s2 d o.
  assert (Ho : Geometry.outlineOf 364 d = Some o) by (vm_compute; reflexivity).
  split; [reflexivity | split; [exact Ho |]].
  destruct (outline_spans_segments 364 d [s1; s2] o eq_refl Ho) as (_ & _ & Hall).
  exact Hall.
Defined.


Section SegmentIds.
Import Geometry.

Lemma string_app_inj_l (s a b : string) : s +:+ a = s +:+ b -> a = b.
Proof. induction s as [| c s IH]; cbn; [auto | intros [= H]; auto]. Qed.

(** X6: the hit rects of one duration have pairwise different ids (the
    index is part of the id), one per segment, and all carry the
    duration's id as parent id. *)
Theorem segment_ids_distinct (innerHeight : Q) (d : RawDuration) :
  NoDup (map seg_id (segmentsOf innerHeight d)) /\
  length (segmentsOf innerHeight d) = length (default [] (rd_segments d)) /\
  Forall (fun row => seg_parentId row = rd_id d) (segmentsOf innerHeight d).
Proof.
  unfold segmentsOf. destruct (rd_segments d) as [segs |]; cbn [default from_option id];
    [| repeat split; constructor].
  split; [| split].
  - apply NoDup_alt. intros i j x Hi Hj.
    change (map seg_id ?l) with (seg_id <$> l) in Hi, Hj.
    rewrite list_lookup_fmap, list_lookup_imap in Hi, Hj.
    destruct (segs !! i); [| discriminate]. destruct (segs !! j); [| discriminate].
    cbn in Hi, Hj. injection Hi as <-. injection Hj as Hj.
    apply string_app_inj_l, string_app_inj_l in Hj.
    symmetry. apply (inj pretty), Hj.
  - apply length_imap.
  - apply Forall_forall. intros row Hrow.
    apply list_elem_of_lookup_1 in Hrow as [i Hi]. rewrite list_lookup_imap in Hi.
    destruct (segs !! i); [| discriminate]. injection Hi as <-. reflexivity.
Qed.

End SegmentIds.

(** ** Author and text rows *)

(** Case analysis on every comparison, also on those nested inside the
    operand of another. *)
Ltac js_split_all :=
  repeat match goal with
         | |- context [Qle_bool ?a ?b] => destruct (Qle_bool a b) eqn:?
         | H : context [if Qle_bool ?a ?b then _ else _] |- _ => destruct (Qle_bool a b) eqn:?
         end.

Ltac js_cases := js_unfold; js_split_all; cbn [negb fst snd] in *; js_props; try lra.

Section RowsExtras.
Import Rows.
Local Open Scope Q_scope.

Variable StringToNumber : string -> JSNum.
Variable NumberToString : Q -> string.
Variable stringifyAuthor : AuthorRec -> string.
Variable stringifyText : TextRec -> string.

Lemma imul_range (a b : Z) : (0 <= imul a b < 2 ^ 32)%Z.
Proof. unfold imul. apply Z.mod_pos_bound. lia. Qed.

Lemma hash_fold_range (l : list Z) (h : Z) :
  (0 <= h < 2 ^ 32)%Z ->
  (0 <= fold_left (fun h c => imul (Z.lxor h c) 16777619) l h < 2 ^ 32)%Z.
Proof.
  revert h. induction l as [| c l IH]; intros h Hh; cbn [fold_left]; [exact Hh |].
  apply IH, imul_range.
Qed.

Lemma hashString_range (str : string) : 0 <= hashString str /\ hashString str < 1.
Proof.
  unfold hashString.
  pose proof (hash_fold_range (charCodes str) 2166136261 ltac:(lia)) as [H0 H1].
  set (h := fold_left _ _ _) in *.
  assert (Hpos : 0 < inject_Z (2 ^ 32)) by reflexivity.
  split.
  - apply Qle_shift_div_l; [exact Hpos |]. rewrite Qmult_0_l.
    change 0 with (inject_Z 0). rewrite <- Zle_Qle. exact H0.
  - apply Qlt_shift_div_r; [exact Hpos |]. rewrite Qmult_1_l.
    rewrite <- Zlt_Qlt. exact H1.
Qed.

(** X7: the hash of any string is a fraction in [0, 1), whatever the
    characters: the accumulator stays an unsigned 32-bit value through
    every round, and no string hashes to 1. *)
Theorem hashString_unit_interval (str : string) :
  0 <= hashString str /\ hashString str < 1 /\
  exists h : Z, (0 <= h < 2 ^ 32)%Z /\ hashString str = inject_Z h / inject_Z (2 ^ 32).
Proof.
  destruct (hashString_range str) as [H0 H1].
  split; [exact H0 | split; [exact H1 |]].
  unfold hashString. eexists. split; [| reflexivity].
  apply hash_fold_range. lia.
Qed.

Lemma yForKey_range (durationId : string) (band : Outline) (key : string) :
  o_y band + 2 <= yForKey durationId band key /\
  yForKey durationId band key <= o_y band + 6 + JS.max 1 (o_h band - 4) /\
  (5 <= o_h band -> yForKey durationId band key < o_y band + o_h band - 2).
Proof.
  unfold yForKey.
  destruct (hashString_range
              (durationId +:+ "::" +:+ JS.or_str (Some key) "anon")) as [Hr0 Hr1].
  set (r := hashString _) in *.
  set (pad := JS.min 6 (JS.max 2 (o_h band * (15 # 100)))).
  set (M := JS.max 1 (o_h band - 2 * pad)).
  assert (Hpad : 2 <= pad /\ pad <= 6) by (subst pad; split; js_lra).
  assert (HM : 1 <= M) by (subst M; apply max_lb_l).
  assert (H0 : 0 <= r * M) by (apply Qmult_le_0_compat; lra).
  assert (H1 : r * M < M).
  { pose proof (Qmult_lt_compat_r r 1 M ltac:(lra) Hr1) as H.
    rewrite Qmult_1_l in H. exact H. }
  assert (HM' : M <= JS.max 1 (o_h band - 4)) by (subst M; js_lra).
  split; [lra | split; [lra |]].
  intros Hh.
  assert (HM2 : M == o_h band - 2 * pad).
  { subst M pad. clear - Hh. js_unfold; js_split_all; cbn [negb] in *; js_props; lra. }
  lra.
Qed.

(** X8: every author row and every text row has its base height inside
    the band of its duration: at least 2 below the band's top, and, for a
    band at least 5 high, more than 2 above its bottom. *)
Theorem row_base_height_inside_band (outlines : list Outline) (registry : list Dataset) :
  (forall r, In r (authorRows StringToNumber NumberToString stringifyAuthor stringifyText outlines registry) ->
     exists band, In band outlines /\ o_id band = ar_durationId r /\
                  o_y band + 2 <= ar_y r /\
                  (5 <= o_h band -> ar_y r < o_y band + o_h band - 2)) /\
  (forall r, In r (textRows StringToNumber NumberToString stringifyAuthor stringifyText outlines registry) ->
     exists band, In band outlines /\ o_id band = tr_durationId r /\
                  o_y band + 2 <= tr_y r /\
                  (5 <= o_h band -> tr_y r < o_y band + o_h band - 2)).
Proof.
  split; intros r Hr.
  - apply authorRows_sub, rowsA_In in Hr as (ds & band & a & _ & Hband & _ & Hrow).
    apply outlinesById_Some in Hband as (Hin & Hbid).
    exists band.
    pose proof Hrow as Hy. apply authorRowOf_y in Hy.
    apply authorRowOf_Some in Hrow as (Hd & _ & _).
    rewrite Hd, Hy.
    destruct (yForKey_range (ds_durationId ds) band (ar_name r)) as (Hlo & _ & Hhi).
    auto.
  - apply textRows_sub, rowsT_In in Hr as (ds & band & t & _ & Hband & _ & Hrow).
    apply outlinesById_Some in Hband as (Hin & Hbid).
    exists band.
    pose proof Hrow as Hy. apply textRowOf_y in Hy as (key & Hy).
    apply textRowOf_Some in Hrow as (Hd & _).
    rewrite Hd, Hy.
    destruct (yForKey_range (ds_durationId ds) band key) as (Hlo & _ & Hhi).
    auto.
Qed.

Lemma bandExtent_fold (l : list Outline) (m : gmap string Outline) :
  fold_left (fun m o => <[o_id o := (JS.min (o_start o) (o_end o),
                                     JS.max (o_start o) (o_end o))]> m) l
            ((fun o => (JS.min (o_start o) (o_end o), JS.max (o_start o) (o_end o))) <$> m) =
  (fun o => (JS.min (o_start o) (o_end o), JS.max (o_start o) (o_end o))) <$>
    fold_left (fun m o => <[o_id o := o]> m) l m.
Proof.
  revert m. induction l as [| o l IH]; intros m; cbn [fold_left]; [reflexivity |].
  rewrite <- IH, fmap_insert. reflexivity.
Qed.

(** The extent map and the band map have the same keys, and the extent is
    the one of the band stored under the key. *)
Lemma bandExtent_lookup (outlines : list Outline) (id : string) :
  bandExtent outlines !! id =
  (fun o => (JS.min (o_start o) (o_end o), JS.max (o_start o) (o_end o))) <$>
    (outlinesById outlines !! id).
Proof.
  unfold bandExtent, outlinesById.
  rewrite <- lookup_fmap, <- bandExtent_fold, fmap_empty. reflexivity.
Qed.

(** X9: the extent filter is exact and its fallback is never taken: an
    author row is kept exactly when its life span meets the span of years
    of its band, a text row exactly when its date lies in that span; start
    and end of the band may come in either order. *)
Theorem rows_clamped_to_band_extent (outlines : list Outline) (registry : list Dataset) :
  (forall r,
     In r (authorRows StringToNumber NumberToString stringifyAuthor stringifyText outlines registry) <->
     In r (rowsA StringToNumber NumberToString stringifyAuthor stringifyText outlines registry) /\
     exists band, outlinesById outlines !! ar_durationId r = Some band /\
                  JS.min (o_start band) (o_end band) <= ar_end r /\
                  ar_start r <= JS.max (o_start band) (o_end band)) /\
  (forall r,
     In r (textRows StringToNumber NumberToString stringifyAuthor stringifyText outlines registry) <->
     In r (rowsT StringToNumber NumberToString stringifyAuthor stringifyText outlines registry) /\
     exists band, outlinesById outlines !! tr_durationId r = Some band /\
                  JS.min (o_start band) (o_end band) <= tr_when r /\
                  tr_when r <= JS.max (o_start band) (o_end band)).
Proof.
  split; intros r.
  - unfold authorRows. rewrite filter_In, bandExtent_lookup.
    split.
    + intros [Hin Hkeep]. split; [exact Hin |].
      apply rowsA_In in Hin as (ds & band & a & _ & Hband & _ & Hrow).
      apply authorRowOf_Some in Hrow as (Hid & _). rewrite <- Hid in Hband.
      rewrite Hband in Hkeep. cbn [fmap option_fmap option_map fst snd] in Hkeep. exists band.
      apply andb_true_iff in Hkeep as [H1 H2]. unfold JS.geb, JS.leb in H1, H2.
      apply Qle_bool_iff in H1, H2. auto.
    + intros [Hin (band & Hband & H1 & H2)]. split; [exact Hin |].
      rewrite Hband. cbn [fmap option_fmap option_map fst snd]. apply andb_true_iff.
      split; [change (Qle_bool (JS.min (o_start band) (o_end band)) (ar_end r) = true)
             | change (Qle_bool (ar_start r) (JS.max (o_start band) (o_end band)) = true)];
        apply Qle_bool_iff; assumption.
  - unfold textRows. rewrite filter_In, bandExtent_lookup.
    split.
    + intros [Hin Hkeep]. split; [exact Hin |].
      apply rowsT_In in Hin as (ds & band & t & _ & Hband & _ & Hrow).
      apply textRowOf_Some in Hrow as (Hid & _). rewrite <- Hid in Hband.
      rewrite Hband in Hkeep. cbn [fmap option_fmap option_map fst snd] in Hkeep. exists band.
      apply andb_true_iff in Hkeep as [H1 H2]. unfold JS.geb, JS.leb in H1, H2.
      apply Qle_bool_iff in H1, H2. auto.
    + intros [Hin (band & Hband & H1 & H2)]. split; [exact Hin |].
      rewrite Hband. cbn [fmap option_fmap option_map fst snd]. apply andb_true_iff.
      split; [change (Qle_bool (JS.min (o_start band) (o_end band)) (tr_when r) = true)
             | change (Qle_bool (tr_when r) (JS.max (o_start band) (o_end band)) = true)];
        apply Qle_bool_iff; assumption.
Qed.

End RowsExtras.

(** ** Dataset discovery *)

Section DiscoveryExtras.
Import Rows.

Lemma setOf_fold_spec (l acc : list (option string)) :
  NoDup acc ->
  NoDup (fold_left (fun acc x => if decide (x ∈ acc) then acc else acc ++ [x]) l acc) /\
  forall x, x ∈ fold_left (fun acc x => if decide (x ∈ acc) then acc else acc ++ [x]) l acc <->
            x ∈ acc \/ x ∈ l.
Proof.
  revert acc. induction l as [| y l IH]; intros acc Hacc; cbn [fold_left].
  - split; [exact Hacc |]. intros x. rewrite elem_of_nil. tauto.
  - destruct (decide (y ∈ acc)) as [Hy | Hy].
    + destruct (IH acc Hacc) as [Hnd Hin]. split; [exact Hnd |].
      intros x. rewrite Hin, elem_of_cons. split; [tauto |].
      intros [H | [-> | H]]; auto.
    + assert (Hacc' : NoDup (acc ++ [y])).
      { apply NoDup_app. split; [exact Hacc |]. split; [| apply NoDup_singleton].
        intros x Hx Hx'. apply list_elem_of_singleton in Hx'. subst x. auto. }
      destruct (IH _ Hacc') as [Hnd Hin]. split; [exact Hnd |].
      intros x. rewrite Hin, elem_of_app, list_elem_of_singleton, elem_of_cons. tauto.
Qed.

Lemma setOf_NoDup (l : list (option string)) : NoDup (setOf l).
Proof. apply setOf_fold_spec, NoDup_nil_2. Qed.

Lemma setOf_elem (l : list (option string)) (x : option string) : x ∈ setOf l <-> x ∈ l.
Proof.
  unfold setOf. rewrite (proj2 (setOf_fold_spec l [] (NoDup_nil_2))), elem_of_nil. tauto.
Qed.

Lemma matchDataAt_nonempty (s r : string) : matchDataAt s = Some r -> r <> EmptyString.
Proof.
  unfold matchDataAt. destruct (String.prefix "/data/" s); [| discriminate].
  destruct (untilSlash _) as [r' |]; [| discriminate].
  destruct (String.eqb r' EmptyString) eqn:E; [discriminate |].
  intros [= <-]. apply String.eqb_neq, E.
Qed.

(** The captured folder name is never empty. *)
Lemma folderOf_nonempty (p f : string) : folderOf p = Some f -> f <> EmptyString.
Proof.
  induction p as [| c p IH]; cbn [folderOf].
  - destruct (matchDataAt EmptyString) eqn:E; [| discriminate].
    intros [= <-]. eapply matchDataAt_nonempty, E.
  - destruct (matchDataAt (String c p)) eqn:E.
    + intros [= <-]. eapply matchDataAt_nonempty, E.
    + exact IH.
Qed.

Lemma string_length_app (a b : string) :
  String.length (a +:+ b) = (String.length a + String.length b)%nat.
Proof. induction a as [| c a IH]; simpl; [reflexivity | f_equal; exact IH]. Qed.

Lemma string_app_inj_r (s a b : string) : a +:+ s = b +:+ s -> a = b.
Proof.
  revert b. induction a as [| c a IH]; intros [| c' b] H.
  - reflexivity.
  - apply (f_equal String.length) in H. simpl in H. rewrite !string_length_app in H. simpl in H. lia.
  - apply (f_equal String.length) in H. simpl in H. rewrite !string_length_app in H. simpl in H. lia.
  - simpl in H. injection H as -> H. f_equal. apply IH, H.
Qed.

Lemma NoDup_map_omap {A B C : Type} (g : A -> option B) (h : B -> C) (l : list A) :
  (forall x y u v, g x = Some u -> g y = Some v -> h u = h v -> x = y) ->
  NoDup l -> NoDup (map h (omap g l)).
Proof.
  intros Hinj. induction 1 as [| x l Hx Hl IH].
  - apply NoDup_nil_2.
  - change (omap g (x :: l)) with (match g x with Some u => u :: omap g l | None => omap g l end).
    destruct (g x) as [u |] eqn:Hu; [| exact IH].
    cbn [map]. apply NoDup_cons. split; [| exact IH].
    intros Hin. apply list_elem_of_In, in_map_iff in Hin as (v & Hv & Hin).
    apply list_elem_of_In, list_elem_of_omap in Hin as (y & Hy & Hgy).
    assert (x = y) by (eapply Hinj; eauto). subst y. auto.
Qed.

Lemma registry_entry (authorModules : list (string * option (list AuthorRec)))
    (textModules : list (string * option (list TextRec))) (ds : Dataset) :
  In ds (useDiscoveredDatasets authorModules textModules) <->
  ds_folder ds <> EmptyString /\
  (Some (ds_folder ds) ∈ map (fun e => folderOf (fst e)) authorModules ++
                          map (fun e => folderOf (fst e)) textModules) /\
  ds_durationId ds = ds_folder ds +:+ "-composite" /\
  ds_authors ds =
    concat (map (fun e => default [] (snd e))
                (List.filter (fun e => bool_decide (folderOf (fst e) = Some (ds_folder ds)))
                             authorModules)) /\
  ds_texts ds =
    concat (map (fun e => default [] (snd e))
                (List.filter (fun e => bool_decide (folderOf (fst e) = Some (ds_folder ds)))
                             textModules)).
Proof.
  unfold useDiscoveredDatasets. rewrite <- list_elem_of_In, list_elem_of_omap. split.
  - intros ([folder |] & Hin & Hf); [| discriminate].
    destruct (String.eqb folder EmptyString) eqn:E; [discriminate |].
    injection Hf as <-. cbn. apply String.eqb_neq in E.
    apply (proj1 (setOf_elem _ _)) in Hin.
    split; [exact E | split; [exact Hin | repeat split]].
  - intros (Hne & Hin & Hid & Ha & Ht). exists (Some (ds_folder ds)).
    split; [apply setOf_elem, Hin |].
    apply String.eqb_neq in Hne. rewrite Hne.
    destruct ds as [f i a t]. cbn in *. subst. reflexivity.
Qed.

Lemma dataFor_In {A : Type} (modules : list (string * option (list A))) (folder : string) (a : A) :
  In a (concat (map (fun e => default [] (snd e))
                    (List.filter (fun e => bool_decide (folderOf (fst e) = Some folder)) modules)))
  <-> exists p data, In (p, Some data) modules /\ folderOf p = Some folder /\ In a data.
Proof.
  rewrite in_concat. split.
  - intros (rows & Hrows & Ha). apply in_map_iff in Hrows as ([p d] & <- & He).
    apply filter_In in He as [He Hp]. apply bool_decide_eq_true in Hp. cbn in *.
    destruct d as [data |]; [| destruct Ha]. exists p, data. auto.
  - intros (p & data & He & Hp & Ha). exists data. split; [| exact Ha].
    apply in_map_iff. exists (p, Some data). split; [reflexivity |].
    apply filter_In. split; [exact He |]. apply bool_decide_eq_true. exact Hp.
Qed.

(** X10: the registry has one entry per discovered folder: folder names
    and duration ids are pairwise different and no folder name is empty;
    every entry stems from a module path with [/data/<folder>/] in it;
    every such path of an author or text module gives an entry; and an
    entry holds exactly the records of the array modules under its
    folder, so a module whose path has no folder, or whose export is not
    an array, contributes to no entry. *)
Theorem registry_one_entry_per_folder
    (authorModules : list (string * option (list AuthorRec)))
    (textModules : list (string * option (list TextRec))) :
  let registry := useDiscoveredDatasets authorModules textModules in
  NoDup (map ds_folder registry) /\
  NoDup (map ds_durationId registry) /\
  (forall ds, In ds registry ->
     ds_folder ds <> EmptyString /\
     exists p, (In p (map fst authorModules) \/ In p (map fst textModules)) /\
               folderOf p = Some (ds_folder ds)) /\
  (forall p f, In p (map fst authorModules) \/ In p (map fst textModules) ->
     folderOf p = Some f -> exists ds, In ds registry /\ ds_folder ds = f) /\
  (forall ds, In ds registry ->
     (forall a, In a (ds_authors ds) <->
        exists p data, In (p, Some data) authorModules /\
                       folderOf p = Some (ds_folder ds) /\ In a data) /\
     (forall t, In t (ds_texts ds) <->
        exists p data, In (p, Some data) textModules /\
                       folderOf p = Some (ds_folder ds) /\ In t data)).
Proof.
  intros registry.
  assert (Hfold : forall f,
             Some f ∈ map (fun e => folderOf (fst e)) authorModules ++
                      map (fun e => folderOf (fst e)) textModules <->
             exists p, (In p (map fst authorModules) \/ In p (map fst textModules)) /\
                       folderOf p = Some f).
  { intros f. rewrite elem_of_app, !list_elem_of_In, !in_map_iff. split.
    - intros [([p d] & Hp & He) | ([p d] & Hp & He)]; exists p; cbn in *;
        (split; [| exact Hp]); [left | right]; apply in_map_iff; exists (p, d); auto.
    - intros (p & [Hin | Hin] & Hp); apply in_map_iff in Hin as ([p' d] & <- & He);
        [left | right]; exists (p', d); auto. }
  split; [| split; [| split; [| split]]].
  - subst registry. unfold useDiscoveredDatasets. apply NoDup_map_omap; [| apply setOf_NoDup].
    intros [x |] [y |] u v Hx Hy Huv; try discriminate.
    destruct (String.eqb x EmptyString); [discriminate |].
    destruct (String.eqb y EmptyString); [discriminate |].
    injection Hx as <-. injection Hy as <-. cbn in Huv. congruence.
  - subst registry. unfold useDiscoveredDatasets. apply NoDup_map_omap; [| apply setOf_NoDup].
    intros [x |] [y |] u v Hx Hy Huv; try discriminate.
    destruct (String.eqb x EmptyString); [discriminate |].
    destruct (String.eqb y EmptyString); [discriminate |].
    injection Hx as <-. injection Hy as <-. cbn in Huv.
    apply string_app_inj_r in Huv. congruence.
  - intros ds Hds. apply registry_entry in Hds as (Hne & Hin & _).
    split; [exact Hne | apply Hfold, Hin].
  - intros p f Hp Hf.
    exists (mkDataset f (f +:+ "-composite")
              (concat (map (fun e => default [] (snd e))
                 (List.filter (fun e => bool_decide (folderOf (fst e) = Some f)) authorModules)))
              (concat (map (fun e => default [] (snd e))
                 (List.filter (fun e => bool_decide (folderOf (fst e) = Some f)) textModules)))).
    split; [| reflexivity]. apply registry_entry. cbn.
    split; [eapply folderOf_nonempty, Hf |].
    split; [apply Hfold; exists p; auto | auto].
  - intros ds Hds. apply registry_entry in Hds as (_ & _ & _ & Ha & Ht).
    split; [intros a; rewrite Ha | intros t; rewrite Ht]; apply dataFor_In.
Qed.

End DiscoveryExtras.

(** ** Detail cards, tooltips and what [apply] draws *)

Section ChartExtras.
Import Tooltip Chart.
Local Open Scope Q_scope.

Lemma cardPos_bounds (CARD_W CARD_H : Q) (wrapRect : Rect) (a : option (Q * Q)) :
  let p := cardPos CARD_W CARD_H wrapRect a in
  4 <= fst p /\ 4 <= snd p /\
  (CARD_W + 8 <= r_width wrapRect -> fst p + CARD_W <= r_width wrapRect - 4) /\
  (CARD_H + 8 <= r_height wrapRect -> snd p + CARD_H <= r_height wrapRect - 4) /\
  (r_width wrapRect < CARD_W + 8 -> fst p == 4) /\
  (r_height wrapRect < CARD_H + 8 -> snd p == 4).
Proof.
  unfold cardPos; cbn [fst snd].
  split; [| split; [| split; [| split; [| split]]]];
    [| | intros H | intros H | intros H | intros H];
    destruct a as [[ax ay] |]; cbn [fst snd]; js_cases.
Qed.

(** X11: the detail card opened by a click on an author line (420 x 360)
    or on a text dot (360 x 320) is placed at least 4 from the wrapper's
    left and top edges; when the wrapper is at least 8 wider (higher) than
    the card, the card also ends at least 4 before the right (bottom)
    edge; in a smaller wrapper the card sits at 4 and overflows. *)
Theorem detail_card_clamped_into_wrapper (zxRef zyRef : option Scale) (svgRect wrapRect : Rect) :
  (forall d,
     let p := authorCardPos zxRef zyRef svgRect wrapRect d in
     4 <= fst p /\ 4 <= snd p /\
     (428 <= r_width wrapRect -> fst p + 420 <= r_width wrapRect - 4) /\
     (368 <= r_height wrapRect -> snd p + 360 <= r_height wrapRect - 4) /\
     (r_width wrapRect < 428 -> fst p == 4) /\
     (r_height wrapRect < 368 -> snd p == 4)) /\
  (forall this_cy d,
     let p := textCardPos zxRef zyRef svgRect wrapRect this_cy d in
     4 <= fst p /\ 4 <= snd p /\
     (368 <= r_width wrapRect -> fst p + 360 <= r_width wrapRect - 4) /\
     (328 <= r_height wrapRect -> snd p + 320 <= r_height wrapRect - 4) /\
     (r_width wrapRect < 368 -> fst p == 4) /\
     (r_height wrapRect < 328 -> snd p == 4)).
Proof.
  split.
  - intros d p. subst p. unfold authorCardPos.
    destruct (cardPos_bounds 420 360 wrapRect (authorAnchorClient zxRef zyRef svgRect d))
      as (H1 & H2 & H3 & H4 & H5 & H6).
    split; [exact H1 | split; [exact H2 |]].
    split; [intros H; apply H3; lra | split; [intros H; apply H4; lra |]].
    split; intros H; [apply H5 | apply H6]; lra.
  - intros this_cy d p. subst p. unfold textCardPos.
    destruct (cardPos_bounds 360 320 wrapRect
                (textAnchorClient zxRef zyRef svgRect (Some this_cy) d))
      as (H1 & H2 & H3 & H4 & H5 & H6).
    split; [exact H1 | split; [exact H2 |]].
    split; [intros H; apply H3; lra | split; [intros H; apply H4; lra |]].
    split; intros H; [apply H5 | apply H6]; lra.
Qed.

(** X12: the pointer-anchored tooltip lies inside the wrapper whenever the
    anchor point is inside it vertically, the wrapper is at least 8 wider
    than the tooltip and at least 12 higher than twice the tooltip. *)
Theorem showTip_inside_with_room (wrapRect : Rect) (tw th cx cy : Q) :
  0 <= th ->
  tw + 8 <= r_width wrapRect ->
  2 * th + 12 <= r_height wrapRect ->
  r_top wrapRect <= cy -> cy <= r_top wrapRect + r_height wrapRect ->
  insideb (r_width wrapRect) (r_height wrapRect) tw th (showTip wrapRect tw th cx cy) = true.
Proof.
  intros Hth Hw Hh Hy0 Hy1.
  pose proof (showTip_clampedX wrapRect tw th cx cy) as [Hx0 Hx1]. specialize (Hx1 Hw).
  pose proof (showTip_flipped wrapRect tw th cx cy) as [Hup Hdown].
  unfold insideb. rewrite !andb_true_iff. unfold JS.leb. rewrite !Qle_bool_iff.
  destruct (tip_below (showTip wrapRect tw th cx cy)).
  - destruct (Hdown eq_refl) as [-> Hneg]. repeat split; lra.
  - destruct (Hup eq_refl) as [Htop Hpos]. rewrite Htop in *. repeat split; lra.
Qed.

(** X13: a card anchored at a band or a segment lies inside the wrapper
    whenever the element starts at or below the wrapper's top, ends inside
    it, the wrapper is at least 8 wider than the card and there is room
    for the element, two cards and two gaps of 8 in its height. *)
Theorem anchored_card_inside_with_room (wrapRect : Rect) (tw th : Q) (a : Anchor) :
  0 <= th ->
  tw + 8 <= r_width wrapRect ->
  0 <= an_yTop a -> 0 <= an_hPix a ->
  an_yTop a + an_hPix a <= r_height wrapRect ->
  an_hPix a + 2 * th + 16 <= r_height wrapRect ->
  insideb (r_width wrapRect) (r_height wrapRect) tw th (placeAnchored wrapRect tw th a) = true.
Proof.
  intros Hth Hw Hy Hh Hend Hroom.
  pose proof (placeAnchored_clampedX wrapRect tw th a) as [Hx0 Hx1]. specialize (Hx1 Hw).
  pose proof (placeAnchored_flipped wrapRect tw th a) as [Hdown Hup].
  unfold insideb. rewrite !andb_true_iff. unfold JS.leb. rewrite !Qle_bool_iff.
  destruct (tip_below (placeAnchored wrapRect tw th a)).
  - destruct (Hdown eq_refl) as [Htop Hfit]. rewrite Htop in *. repeat split; lra.
  - destruct (Hup eq_refl) as [Htop Hover]. rewrite Htop in *. repeat split; lra.
Qed.

Lemma anchorPx_rectAttrs (zx zy : Scale) (start end_ y h : Q) (a : Anchor) :
  anchorPx (Some zx) (Some zy) start end_ y h = Some a ->
  let r := rectAttrs zx zy start end_ y h in
  an_left a = ra_x r /\ an_right a == ra_x r + ra_width r /\
  an_xMid a == ra_x r + ra_width r / 2 /\
  an_yTop a = ra_y r /\ an_hPix a = ra_height r /\ 0 <= ra_width r.
Proof.
  unfold anchorPx, rectAttrs. intros [= <-]. cbn.
  repeat split; try reflexivity.
  - js_cases.
  - js_cases; field.
  - js_cases.
Qed.

(** X14: the anchor a band's or a segment's card is positioned from is
    the rect [apply] draws for it under the same scales: same left edge,
    top and height, right edge at [x + width], centre at [x + width / 2];
    the drawn width is never negative, whichever of start and end is
    later. *)
Theorem card_anchor_is_drawn_rect (zx zy : Scale) :
  (forall seg a,
     getSegmentAnchorPx (Some zx) (Some zy) seg = Some a ->
     let r := segmentRect zx zy seg in
     an_left a = ra_x r /\ an_right a == ra_x r + ra_width r /\
     an_xMid a == ra_x r + ra_width r / 2 /\
     an_yTop a = ra_y r /\ an_hPix a = ra_height r /\ 0 <= ra_width r) /\
  (forall o a,
     getDurationAnchorPx (Some zx) (Some zy) o = Some a ->
     let r := outlineRect zx zy o in
     an_left a = ra_x r /\ an_right a == ra_x r + ra_width r /\
     an_xMid a == ra_x r + ra_width r / 2 /\
     an_yTop a = ra_y r /\ an_hPix a = ra_height r /\ 0 <= ra_width r) /\
  (forall svgRect k d,
     exists p, authorAnchorClient (Some zx) (Some zy) svgRect d = Some p /\
       let l := authorLine zx zy k d in
       fst p == r_left svgRect + margin_left + (la_x1 l + la_x2 l) / 2 /\
       snd p == r_top svgRect + margin_top + la_y1 l /\
       la_x1 l <= la_x2 l /\ la_y1 l = la_y2 l).
Proof.
  split; [| split].
  - intros seg a H. apply (anchorPx_rectAttrs zx zy _ _ _ _ a H).
  - intros o a H. apply (anchorPx_rectAttrs zx zy _ _ _ _ a H).
  - intros svgRect k d. eexists. split; [reflexivity |].
    cbn. repeat split; try reflexivity. js_lra.
Qed.

(** X15: hovering never thins a mark.  The stroke of an author line is
    within [1, 6] at rest and within [1, 8] while hovered; the hovered
    stroke is strictly wider exactly for zoom factors above 5/8, so for
    every zoom factor at which lines react to the pointer; below that both
    are 1.  A hovered dot has 1.6 times its radius at rest. *)
Theorem hover_enlarges_marks (k : Q) :
  1 <= authorStroke k /\ authorStroke k <= 6 /\
  1 <= authorHoverStroke k /\ authorHoverStroke k <= 8 /\
  authorStroke k <= authorHoverStroke k /\
  (authorStroke k < authorHoverStroke k <-> 5 # 8 < k) /\
  (Interaction.zoomedInAt k = true -> authorStroke k < authorHoverStroke k) /\
  textHoverR k == (16 # 10) * Layout.radius k /\
  (0 < k -> Layout.radius k < textHoverR k).
Proof.
  unfold authorStroke, authorHoverStroke, textHoverR, Layout.radius, Layout.TEXT_BASE_R,
    AUTHOR_BASE_STROKE, HOVER_SCALE_LINE, HOVER_SCALE_DOT.
  split; [| split; [| split; [| split; [| split; [| split; [| split; [| split]]]]]]];
    [| | | | | split; intros H | intros H; apply zoomedInAt_true in H;
                                 unfold Interaction.ZOOM_THRESHOLD in H | | intros H];
    js_cases.
Qed.

End ChartExtras.

(** A 100 x 50 tooltip in a 200 x 200 wrapper, pointer at height 55: the
    tooltip flips below the pointer and stays inside. *)
Lemma showTip_inside_with_room_witness :
  let wrapRect := mkRect 0 0 200 200 in
  (2 * 50 + 12 <= r_height wrapRect)%Q /\
  Tooltip.tip_below (Tooltip.showTip wrapRect 100 50 100 55) = true /\
  Tooltip.insideb 200 200 100 50 (Tooltip.showTip wrapRect 100 50 100 55) = true.
Proof.
  intros wrapRect.
  assert (H0 : (0 <= 50)%Q) by lra.
  assert (H1 : (100 + 8 <= r_width wrapRect)%Q) by (cbn; lra).
  assert (H2 : (2 * 50 + 12 <= r_height wrapRect)%Q) by (cbn; lra).
  assert (H3 : (r_top wrapRect <= 55)%Q) by (cbn; lra).
  assert (H4 : (55 <= r_top wrapRect + r_height wrapRect)%Q) by (cbn; lra).
  split; [exact H2 | split; [reflexivity |]].
  exact (showTip_inside_with_room wrapRect 100 50 100 55 H0 H1 H2 H3 H4).
Defined.

(** A 100 x 50 card for an element spanning heights 100 to 160 of a
    200 x 200 wrapper: the card flips above the element and stays inside. *)
Lemma anchored_card_inside_with_room_witness :
  let wrapRect := mkRect 0 0 200 200 in
  let a := Tooltip.mkAnchor 40 120 80 100 60 in
  (Tooltip.an_hPix a + 2 * 50 + 16 <= r_height wrapRect)%Q /\
  Tooltip.tip_below (Tooltip.placeAnchored wrapRect 100 50 a) = false /\
  Tooltip.insideb 200 200 100 50 (Tooltip.placeAnchored wrapRect 100 50 a) = true.
Proof.
  intros wrapRect a.
  assert (H0 : (0 <= 50)%Q) by lra.
  assert (H1 : (100 + 8 <= r_width wrapRect)%Q) by (cbn; lra).
  assert (H2 : (0 <= Tooltip.an_yTop a)%Q) by (cbn; lra).
  assert (H3 : (0 <= Tooltip.an_hPix a)%Q) by (cbn; lra).
  assert (H4 : (Tooltip.an_yTop a + Tooltip.an_hPix a <= r_height wrapRect)%Q) by (cbn; lra).
  assert (H5 : (Tooltip.an_hPix a + 2 * 50 + 16 <= r_height wrapRect)%Q) by (cbn; lra).
  split; [exact H5 | split; [reflexivity |]].
  exact (anchored_card_inside_with_room wrapRect 100 50 a H0 H1 H2 H3 H4 H5).
Defined.

(** ** Interaction: cards, clicks and redraws *)

Ltac destruct_state s :=
  destruct s as [k0 lastK prev dragging hovDur actDur awaiting actSeg hovSeg
                 tDur tSeg tAuthor tText selAuthor selText hit].

Ltac state_cbv :=
  cbv [Interaction.kRef Interaction.lastTransformRef Interaction.prevZoomedInRef
       Interaction.zoomDraggingRef Interaction.hoveredDurationIdRef
       Interaction.activeDurationIdRef Interaction.awaitingCloseClickRef
       Interaction.activeSegIdRef Interaction.hoveredSegParentIdRef
       Interaction.tipDur Interaction.tipSeg Interaction.tipAuthor Interaction.tipText
       Interaction.selectedAuthor Interaction.selectedText Interaction.hitZoomedIn
       Interaction.set_kRef Interaction.set_lastTransformRef Interaction.set_prevZoomedInRef
       Interaction.set_zoomDraggingRef Interaction.set_hoveredDurationIdRef
       Interaction.set_activeDurationIdRef Interaction.set_awaitingCloseClickRef
       Interaction.set_activeSegIdRef Interaction.set_hoveredSegParentIdRef
       Interaction.set_tipDur Interaction.set_tipSeg Interaction.set_tipAuthor
       Interaction.set_tipText Interaction.set_selectedAuthor Interaction.set_selectedText
       Interaction.set_hitZoomedIn Interaction.clearActiveSegment
       Interaction.clearActiveDuration Interaction.setActiveSegment
       Interaction.setActiveDuration Interaction.updateInteractivity
       Interaction.syncDurationHoverFromPointer Interaction.hideAllTips
       Interaction.outlineMouseEnter Interaction.outlineMouseLeave Interaction.outlineClick
       Interaction.segMouseEnter Interaction.segMouseLeave Interaction.segClick
       Interaction.authorClick Interaction.textClick Interaction.svgClick
       Interaction.dispatchClick Interaction.zoomStart Interaction.zoomEnd
       Interaction.handle Interaction.accepts Interaction.enabled Interaction.exclusive
       Interaction.inSync cardsFollowActive fst snd negb andb] in *.

Ltac state_branch :=
  repeat (match goal with
          | |- context [if ?b then _ else _] => destruct b eqn:?
          | |- context [match ?x with Some _ => _ | None => _ end] => destruct x eqn:?
          end; state_cbv).

Section InteractionExtras.
Import Interaction.
Local Open Scope Q_scope.

Variable segments : list SegmentRow.
Variable outlines : list Outline.

(** The state inside the [zoom] listener once the transform is stored. *)
Abbreviation zooming k s :=
  (kRef s = k /\ lastTransformRef s = Some k /\ cardsFollowActive s).

Lemma updateInteractivity_cards k s :
  zooming k s -> zooming k (updateInteractivity k s).
Proof.
  destruct_state s. state_cbv. intros (-> & -> & H).
  destruct (zoomedInAt k); state_cbv; intuition congruence.
Qed.

Lemma sync_cards k se s :
  zooming k s -> zooming k (syncDurationHoverFromPointer se s).
Proof.
  destruct_state s. state_cbv. intros (-> & -> & H).
  destruct se as [newId |]; [| auto].
  destruct (zoomedInAt k); state_cbv; auto.
Qed.

Lemma keepSeg_cards k s :
  zooming k s -> zooming k (keepSegCardAnchored segments s).
Proof.
  destruct_state s. unfold keepSegCardAnchored. state_cbv. intros (-> & -> & H).
  destruct (JS.truthy actSeg); [| auto].
  destruct (find _ segments) as [sg |] eqn:E; [| auto].
  apply find_some in E as [_ E]. apply bool_decide_eq_true in E.
  state_cbv. intuition congruence.
Qed.

Lemma keepDuration_cards k s :
  zooming k s -> zooming k (keepDurationCardAnchored outlines s).
Proof.
  destruct_state s. unfold keepDurationCardAnchored. state_cbv. intros (-> & -> & H).
  destruct (JS.truthy actDur); [| auto].
  destruct (find _ outlines) as [o |] eqn:E; [| auto].
  apply find_some in E as [_ E]. apply bool_decide_eq_true in E.
  state_cbv. intuition congruence.
Qed.

Lemma handoff_cards k s :
  zooming k s -> zooming k (thresholdHandoff k s).
Proof.
  destruct_state s. unfold thresholdHandoff. state_cbv. intros (-> & -> & H).
  destruct (zoomedInAt k), prev; state_cbv; intuition congruence.
Qed.

Lemma zoomHandler_cards k se s :
  cardsFollowActive s -> zooming k (zoomHandler segments outlines k se s).
Proof.
  intros H. unfold zoomHandler.
  apply handoff_cards, keepDuration_cards, keepSeg_cards, sync_cards, updateInteractivity_cards.
  destruct_state s. state_cbv. auto.
Qed.

Lemma mount_cards s :
  cardsFollowActive s ->
  zooming (default MIN_ZOOM (lastTransformRef s)) (mount segments outlines s).
Proof.
  intros H. unfold mount. set (initK := default MIN_ZOOM (lastTransformRef s)).
  apply updateInteractivity_cards.
  assert (H1 : cardsFollowActive (zoomStart (hideAllTips (set_kRef initK s)))).
  { clearbody initK. destruct_state s. state_cbv. intuition congruence. }
  pose proof (zoomHandler_cards initK None _ H1) as H2. revert H2.
  generalize (zoomHandler segments outlines initK None
                (zoomStart (hideAllTips (set_kRef initK s)))).
  intros s' H2. destruct_state s'. state_cbv. exact H2.
Qed.

Lemma handle_cards s e :
  lastTransformRef s = Some (kRef s) -> cardsFollowActive s ->
  lastTransformRef (handle segments outlines s e) = Some (kRef (handle segments outlines s e)) /\
  cardsFollowActive (handle segments outlines s e).
Proof.
  intros Hlast Hcards.
  destruct e as [t | t | t | t | | k se | se | | |];
    try (destruct t as [o | seg | d | d |]).
  all: try (cbn [handle];
            first [ destruct (mount_cards s Hcards) as (H1 & H2 & H3);
                    split; [rewrite H1; exact H2 | exact H3]
                  | destruct (zoomHandler_cards k se s Hcards) as (H1 & H2 & H3);
                    split; [rewrite H1; exact H2 | exact H3] ]).
  all: destruct_state s; state_cbv; destruct (zoomedInAt k0) eqn:Hz; state_cbv;
    state_branch; intuition congruence.
Qed.

Lemma reachable_cards s :
  reachable segments outlines s -> lastTransformRef s = Some (kRef s) /\ cardsFollowActive s.
Proof.
  induction 1 as [| s e Hs [Hlast Hcards] Hen].
  - destruct (mount_cards initialRefs) as (H1 & H2 & H3).
    + cbv. intuition congruence.
    + split; [rewrite H1; exact H2 | exact H3].
  - apply handle_cards; assumption.
Qed.

(** X16: in every reachable state a card is shown only for the element
    that is active (the duration card for the active duration, the segment
    card for the active segment), a close click is pending exactly while a
    duration is active, the two cards are never shown together, and each
    is hidden while its layer does not take the pointer. *)
Theorem cards_follow_the_active_element (s : State) :
  reachable segments outlines s ->
  cardsFollowActive s /\
  (tipDur s = None \/ tipSeg s = None) /\
  (hitZoomedIn s = true -> tipDur s = None /\ awaitingCloseClickRef s = false) /\
  (hitZoomedIn s = false -> tipSeg s = None).
Proof.
  intros Hreach.
  destruct (reachable_cards s Hreach) as [_ Hcards].
  destruct (reachable_inv segments outlines s Hreach) as [Hex Hsync].
  split; [exact Hcards |].
  destruct_state s. state_cbv. destruct Hsync as [-> ->].
  destruct Hcards as (Haw & Hdur & Hseg).
  destruct (zoomedInAt k0); state_cbv.
  - destruct Hex as (-> & _ & ->).
    assert (tDur = None) by (destruct tDur as [id |]; [specialize (Hdur id eq_refl) |]; congruence).
    repeat split; auto; discriminate.
  - destruct Hex as (-> & _).
    assert (tSeg = None) by (destruct tSeg as [id |]; [specialize (Hseg id eq_refl) |]; congruence).
    repeat split; auto; discriminate.
Qed.

(** X17: a click on a segment toggles it, whatever the state: on a
    segment that is not active it makes that segment the active one, shows
    its card and clears the duration track; a further click on the same
    segment clears the segment track again, while a click on another
    segment switches to that one at once (no close click in between, unlike
    bands); on the active segment the first click already clears. *)
Theorem segment_click_toggles (s : State) (seg seg' : SegmentRow) :
  let s1 := handle segments outlines s (Click (OnSegment seg)) in
  (activeSegIdRef s <> Some (seg_id seg) ->
     activeSegIdRef s1 = Some (seg_id seg) /\ tipSeg s1 = Some (seg_id seg) /\
     activeDurationIdRef s1 = None /\ awaitingCloseClickRef s1 = false /\ tipDur s1 = None /\
     (let s2 := handle segments outlines s1 (Click (OnSegment seg)) in
      activeSegIdRef s2 = None /\ tipSeg s2 = None /\ hoveredSegParentIdRef s2 = None) /\
     (seg_id seg' <> seg_id seg ->
      let s2 := handle segments outlines s1 (Click (OnSegment seg')) in
      activeSegIdRef s2 = Some (seg_id seg') /\ tipSeg s2 = Some (seg_id seg'))) /\
  (activeSegIdRef s = Some (seg_id seg) ->
     activeSegIdRef s1 = None /\ tipSeg s1 = None /\ hoveredSegParentIdRef s1 = None).
Proof.
  destruct_state s. state_cbv. split.
  - intros Hne. rewrite bool_decide_eq_false_2 by exact Hne. state_cbv.
    rewrite bool_decide_eq_true_2 by reflexivity. state_cbv.
    repeat split; rewrite bool_decide_eq_false_2 by congruence; state_cbv; reflexivity.
  - intros ->. rewrite bool_decide_eq_true_2 by reflexivity. state_cbv.
    destruct awaiting; state_cbv; repeat split.
Qed.

(** X18: in a reachable state a click that lands neither on a band nor on
    a segment (on the canvas, an author line or a text dot) leaves no
    active duration, no pending close click, no active segment and neither
    card; the hovered duration is kept. *)
Theorem click_elsewhere_dismisses (s : State) (t : Target) :
  reachable segments outlines s ->
  enabled s (Click t) = true ->
  (forall o, t <> OnOutline o) -> (forall seg, t <> OnSegment seg) ->
  let s' := handle segments outlines s (Click t) in
  activeDurationIdRef s' = None /\ awaitingCloseClickRef s' = false /\ tipDur s' = None /\
  activeSegIdRef s' = None /\ hoveredSegParentIdRef s' = None /\ tipSeg s' = None /\
  hoveredDurationIdRef s' = hoveredDurationIdRef s.
Proof.
  intros Hreach Hen Hout Hseg.
  destruct (reachable_cards s Hreach) as [_ Hcards].
  destruct (reachable_inv segments outlines s Hreach) as [Hex Hsync].
  destruct t as [o | seg | d | d |];
    [exfalso; apply (Hout o); reflexivity | exfalso; apply (Hseg seg); reflexivity | | |].
  all: destruct_state s; state_cbv; destruct Hsync as [-> ->];
    destruct Hcards as (Haw & Hdur & Hsegc).
  - rewrite Hen in Hex. destruct Hex as (-> & _ & ->). repeat split.
  - rewrite Hen in Hex. destruct Hex as (-> & _ & ->). repeat split.
  - destruct awaiting; state_cbv; [| repeat split].
    destruct (zoomedInAt k0); [destruct Hex as (_ & _ & Hex); discriminate |].
    destruct Hex as (-> & ->).
    assert (tSeg = None) by (destruct tSeg as [id |]; [specialize (Hsegc id eq_refl) |]; congruence).
    subst tSeg. repeat split.
Qed.

(** X19: in every reachable state the remembered transform is the current
    zoom factor, so a re-run of the draw effect keeps the zoom factor, the
    mode, the active duration with its pending close click and the active
    segment; it hides the author and text tooltips and ends a drag. *)
Theorem redraw_keeps_zoom_and_active (s : State) :
  reachable segments outlines s ->
  let s' := handle segments outlines s Remount in
  lastTransformRef s = Some (kRef s) /\
  kRef s' = kRef s /\ hitZoomedIn s' = hitZoomedIn s /\
  activeDurationIdRef s' = activeDurationIdRef s /\
  awaitingCloseClickRef s' = awaitingCloseClickRef s /\
  activeSegIdRef s' = activeSegIdRef s /\
  tipAuthor s' = None /\ tipText s' = None /\ zoomDraggingRef s' = false.
Proof.
  intros Hreach.
  destruct (reachable_cards s Hreach) as [Hlast _].
  destruct (reachable_inv segments outlines s Hreach) as [Hex Hsync].
  cbn [handle]. split; [exact Hlast |].
  unfold mount. rewrite Hlast. cbn [default from_option id].
  destruct_state s. state_cbv. destruct Hsync as [-> ->]. clear Hlast.
  unfold zoomHandler. state_cbv.
  destruct (zoomedInAt k0) eqn:Hz; state_cbv.
  - destruct Hex as (-> & -> & ->).
    unfold keepSegCardAnchored. state_cbv.
    destruct (JS.truthy actSeg); [destruct (find _ segments) |];
      unfold keepDurationCardAnchored, thresholdHandoff; state_cbv; cbn [JS.truthy];
      rewrite ?Hz; state_cbv; rewrite ?Hz; state_cbv; repeat split.
  - destruct Hex as (-> & ->).
    unfold keepSegCardAnchored. state_cbv. cbn [JS.truthy].
    unfold keepDurationCardAnchored. state_cbv.
    destruct (JS.truthy actDur); [destruct (find _ outlines) |];
      unfold thresholdHandoff; state_cbv;
      rewrite ?Hz; state_cbv; rewrite ?Hz; state_cbv; repeat split.
Qed.

End InteractionExtras.

(** The state after a click on a band: its card is shown and a close
    click is pending. *)
Lemma cards_follow_the_active_element_witness :
  let A := mkOutline "egypt-composite" "Egypt" "#999" (-3100) 30 10 30 in
  let s0 := Interaction.mount [] [A] Interaction.initialRefs in
  let s := Interaction.handle [] [A] s0 (Interaction.Click (Interaction.OnOutline A)) in
  Interaction.reachable [] [A] s /\
  Interaction.tipDur s = Some "egypt-composite" /\
  cardsFollowActive s.
Proof.
  intros A s0 s.
  assert (Hreach : Interaction.reachable [] [A] s).
  { apply Interaction.reach_step; [apply Interaction.reach_mount | reflexivity]. }
  split; [exact Hreach | split; [reflexivity |]].
  exact (proj1 (cards_follow_the_active_element [] [A] s Hreach)).
Defined.

(** A canvas click while a band is open. *)
Lemma click_elsewhere_dismisses_witness :
  let A := mkOutline "egypt-composite" "Egypt" "#999" (-3100) 30 10 30 in
  let s0 := Interaction.mount [] [A] Interaction.initialRefs in
  let s := Interaction.handle [] [A] s0 (Interaction.Click (Interaction.OnOutline A)) in
  Interaction.reachable [] [A] s /\
  Interaction.enabled s (Interaction.Click Interaction.OnCanvas) = true /\
  Interaction.activeDurationIdRef s = Some "egypt-composite" /\
  Interaction.activeDurationIdRef
    (Interaction.handle [] [A] s (Interaction.Click Interaction.OnCanvas)) = None.
Proof.
  intros A s0 s.
  assert (Hreach : Interaction.reachable [] [A] s).
  { apply Interaction.reach_step; [apply Interaction.reach_mount | reflexivity]. }
  assert (Hen : Interaction.enabled s (Interaction.Click Interaction.OnCanvas) = true)
    by reflexivity.
  assert (Hout : forall o, Interaction.OnCanvas <> Interaction.OnOutline o) by discriminate.
  assert (Hseg : forall seg, Interaction.OnCanvas <> Interaction.OnSegment seg) by discriminate.
  split; [exact Hreach | split; [exact Hen | split; [reflexivity |]]].
  exact (proj1 (click_elsewhere_dismisses [] [A] s Interaction.OnCanvas Hreach Hen Hout Hseg)).
Defined.

(** A redraw after zooming in to 3. *)
Lemma redraw_keeps_zoom_and_active_witness :
  let s0 := Interaction.mount [] [] Interaction.initialRefs in
  let s := Interaction.handle [] [] s0 (Interaction.Zoom 3 None) in
  Interaction.reachable [] [] s /\
  Interaction.kRef s = 3%Q /\
  Interaction.kRef (Interaction.handle [] [] s Interaction.Remount) = Interaction.kRef s.
Proof.
  intros s0 s.
  assert (Hreach : Interaction.reachable [] [] s).
  { apply Interaction.reach_step; [apply Interaction.reach_mount | reflexivity]. }
  split; [exact Hreach | split; [reflexivity |]].
  exact (proj1 (proj2 (redraw_keeps_zoom_and_active [] [] s Hreach))).
Defined.

(** ** Lane layout: which lane a mark gets *)

Section LayoutExtras.
Import Layout.
Local Open Scope Q_scope.

Lemma collidesFrom_separated k cx t back :
  Forall (fun p => minDX k <= JS.abs (cx - p_cx p) \/ minDY k <= JS.abs (t - p_cy p)) back ->
  collidesFrom k cx t back = false.
Proof.
  induction 1 as [| p rest Hp Hrest IH]; cbn [collidesFrom]; [reflexivity |].
  destruct (JS.gtb (cx - p_cx p) (minDX k)); [reflexivity |].
  destruct (JS.ltb (JS.abs (cx - p_cx p)) (minDX k)) eqn:Ex;
    destruct (JS.ltb (JS.abs (t - p_cy p)) (minDY k)) eqn:Ey; cbn [andb]; try exact IH.
  unfold JS.ltb in Ex, Ey. apply negb_true_iff, Qle_bool_false in Ex, Ey.
  destruct Hp; lra.
Qed.

Lemma collides_separated k placed cx t found :
  (forall p, In p placed -> separated k p (mkPlaced cx t found)) ->
  collides k placed cx t = false.
Proof.
  intros H. unfold collides. apply collidesFrom_separated, Forall_forall.
  intros p Hp. apply list_elem_of_In, in_rev in Hp. specialize (H p Hp).
  unfold separated in H; cbn [p_cx p_cy] in H.
  rewrite (abs_sym (p_cx p) cx), (abs_sym (p_cy p) t) in H. exact H.
Qed.

Lemma maxLanes_pos k bandHeight : exists n, maxLanes k bandHeight = S n.
Proof.
  unfold maxLanes. exists (Nat.pred (Z.to_nat (Z.max 1 (JS.floor (bandHeight / laneStep k))))).
  lia.
Qed.

Lemma offsets_head k n : exists rest, offsets k (S n) = 0 :: rest.
Proof. unfold offsets. cbn [seq map Nat.eqb concat app]. eexists. reflexivity. Qed.

Lemma trialCy_zero k bandTop bandBottom baseCy :
  trialCy k bandTop bandBottom baseCy 0 ==
  JS.clamp baseCy (bandTop + radius k) (bandBottom - radius k).
Proof. unfold trialCy. js_cases. Qed.

(** A mark that is clear, at its base height, of every mark placed before
    it gets the first trial, offset 0. *)
Lemma chooseCy_uncrowded k bandTop bandBottom bandHeight placed it :
  (forall p, In p placed ->
     separated k p (mkPlaced (it_cx it) (trialCy k bandTop bandBottom (it_baseCy it) 0) true)) ->
  chooseCy k bandTop bandBottom (maxLanes k bandHeight) placed it =
  (trialCy k bandTop bandBottom (it_baseCy it) 0, true).
Proof.
  intros H. unfold chooseCy.
  destruct (maxLanes_pos k bandHeight) as [n ->].
  destruct (offsets_head k n) as [rest ->]. cbn [firstFree].
  rewrite (collides_separated _ _ _ _ true H). reflexivity.
Qed.

(** X20: in a band whose marks are pairwise at least [minDX] apart on the
    screen, the layout displaces nothing: every mark is drawn at its base
    height clamped into the padded band. *)
Theorem spread_marks_keep_base_height (zx zy : Scale) (k : Q) (band : Outline)
    (items : list TextRow) :
  NoDup (map tr_id items) ->
  (forall d d', In d items -> In d' items -> tr_id d <> tr_id d' ->
     minDX k <= JS.abs (zx (toAstronomicalQ (tr_when d)) - zx (toAstronomicalQ (tr_when d')))) ->
  forall d adj, In d items ->
    exists cy,
      fst (layoutBand zx zy k band items adj) !! tr_id d = Some cy /\
      cy == JS.clamp (zy (tr_y d)) (zy (o_y band) + radius k)
                     (zy (o_y band + o_h band) - radius k).
Proof.
  intros Hnd Hfar d adj Hd.
  destruct (layoutBand_own zx zy k band items d Hnd Hd) as (j & p & Hj & Hp & _ & Hcy).
  exists (p_cy p). split; [apply Hcy |].
  unfold layoutBand in Hp.
  set (bandTop := zy (o_y band)) in *. set (bandBottom := zy (o_y band + o_h band)) in *.
  set (lanes := maxLanes k (bandBottom - bandTop)) in *.
  set (sorted := sortedItems zx zy items) in *.
  pose proof (placeLoop_lookup k bandTop bandBottom lanes sorted ∅ [] j _ Hj) as Hlook.
  cbn zeta in Hlook. cbn [length Nat.add] in Hlook.
  set (res := snd (placeLoop k bandTop bandBottom lanes ∅ [] sorted)) in *.
  rewrite Hp in Hlook. injection Hlook as Hlook.
  assert (Hchoose :
            chooseCy k bandTop bandBottom lanes (take j res)
                     (mkItem d (zx (toAstronomicalQ (tr_when d))) (zy (tr_y d))) =
            (trialCy k bandTop bandBottom (zy (tr_y d)) 0, true)).
  { apply (chooseCy_uncrowded k bandTop bandBottom (bandBottom - bandTop)).
    cbn [it_cx it_baseCy]. intros q Hq.
    apply list_elem_of_In, list_elem_of_lookup_1 in Hq as [i Hi].
    apply lookup_take_Some in Hi as [Hi Hlt].
    assert (Hsi : is_Some (sorted !! i)).
    { apply lookup_lt_is_Some. apply lookup_lt_Some in Hj. lia. }
    destruct Hsi as [it' Hit'].
    pose proof (placeLoop_lookup k bandTop bandBottom lanes sorted ∅ [] i _ Hit') as Hq.
    cbn zeta in Hq. cbn [length Nat.add] in Hq. fold res in Hq.
    rewrite Hi in Hq. injection Hq as ->.
    left. cbn [p_cx].
    assert (Hin' : In (it_d it') items).
    { apply (sortedItems_origin zx zy), list_elem_of_In, (list_elem_of_lookup_2 _ i), Hit'. }
    assert (Hcx' : it_cx it' = zx (toAstronomicalQ (tr_when (it_d it')))).
    { apply list_elem_of_lookup_2, list_elem_of_In in Hit'. unfold sorted, sortedItems in Hit'.
      apply (Permutation_in _ (sortByCx_perm _)), in_map_iff in Hit' as (d' & <- & _).
      reflexivity. }
    rewrite Hcx'. apply Hfar; [exact Hin' | exact Hd |].
    intros Heq.
    pose proof (sortedItems_ids_NoDup zx zy items Hnd) as Hnd'. fold sorted in Hnd'.
    assert (i = j); [| lia].
    apply (NoDup_lookup _ i j (tr_id d) Hnd');
      change (map ?f ?l) with (f <$> l); rewrite list_lookup_fmap.
    - rewrite Hit'. cbn. congruence.
    - rewrite Hj. reflexivity. }
  rewrite Hchoose in Hlook. rewrite Hlook. cbn [p_cy fst].
  apply trialCy_zero.
Qed.

Lemma offsets_S k n :
  offsets k (S n) =
  offsets k n ++ (if Nat.eqb n 0 then [0]
                  else [inject_Z (Z.of_nat n) * laneStep k;
                        - inject_Z (Z.of_nat n) * laneStep k]).
Proof.
  unfold offsets. rewrite seq_S, map_app, concat_app. cbn [map concat Nat.add].
  rewrite app_nil_r. reflexivity.
Qed.

Lemma of_nat_step_le k (i n : nat) :
  0 < k -> (i <= n)%nat ->
  0 <= inject_Z (Z.of_nat i) * laneStep k /\
  inject_Z (Z.of_nat i) * laneStep k <= inject_Z (Z.of_nat n) * laneStep k.
Proof.
  intros Hk Hin. pose proof (laneStep_pos k Hk) as Hstep.
  assert (H0 : 0 <= inject_Z (Z.of_nat i)).
  { change 0 with (inject_Z 0). rewrite <- Zle_Qle. lia. }
  assert (H1 : inject_Z (Z.of_nat i) <= inject_Z (Z.of_nat n)) by (rewrite <- Zle_Qle; lia).
  split.
  - apply Qmult_le_0_compat; lra.
  - apply Qmult_le_compat_r; lra.
Qed.

Lemma offsets_abs_bound k n :
  0 < k ->
  Forall (fun o => JS.abs o <= inject_Z (Z.of_nat n) * laneStep k) (offsets k n).
Proof.
  intros Hk. induction n as [| n IH]; [constructor |].
  rewrite offsets_S. apply Forall_app. split.
  - eapply Forall_impl; [exact IH |]. intros o Ho. cbn beta in Ho.
    destruct (of_nat_step_le k n (S n) Hk ltac:(lia)) as [_ Hle]. lra.
  - destruct (of_nat_step_le k n (S n) Hk ltac:(lia)) as [H0 Hle].
    destruct (Nat.eqb n 0).
    + repeat constructor. js_cases.
    + repeat constructor; js_cases.
Qed.

(** The trial offsets come in order of distance from the base height. *)
Lemma offsets_sorted k n :
  0 < k -> StronglySorted (fun a b => JS.abs a <= JS.abs b) (offsets k n).
Proof.
  intros Hk. induction n as [| n IH]; [constructor |].
  rewrite offsets_S. apply StronglySorted_app_2; [| exact IH |].
  - intros x1 x2 Hx1 Hx2.
    pose proof (offsets_abs_bound k n Hk) as Hb. rewrite Forall_forall in Hb.
    specialize (Hb x1 Hx1). cbn beta in Hb.
    destruct (of_nat_step_le k n n Hk ltac:(lia)) as [H0 _].
    destruct (Nat.eqb_spec n 0) as [-> | Hn].
    + cbn in Hx1. apply elem_of_nil in Hx1. destruct Hx1.
    + apply elem_of_cons in Hx2 as [-> | Hx2];
        [| apply list_elem_of_singleton in Hx2; subst x2]; js_cases.
  - destruct (of_nat_step_le k n n Hk ltac:(lia)) as [H0 _].
    destruct (Nat.eqb n 0); repeat constructor. js_cases.
Qed.

Lemma firstFree_split k bandTop bandBottom placed it offs cy :
  firstFree k bandTop bandBottom placed it offs = Some cy ->
  exists pre off post,
    offs = pre ++ off :: post /\
    cy = trialCy k bandTop bandBottom (it_baseCy it) off /\
    collides k placed (it_cx it) cy = false /\
    Forall (fun o => collides k placed (it_cx it)
                       (trialCy k bandTop bandBottom (it_baseCy it) o) = true) pre.
Proof.
  induction offs as [| off rest IH]; cbn [firstFree]; [discriminate |].
  destruct (collides k placed (it_cx it) (trialCy k bandTop bandBottom (it_baseCy it) off)) eqn:E.
  - intros H. destruct (IH H) as (pre & off' & post & -> & Hcy & Hfree & Hpre).
    exists (off :: pre), off', post. repeat split; auto.
  - intros [= <-]. exists [], off, rest. repeat split; auto.
Qed.

(** X21: a mark that finds a lane gets the free trial nearest to its base
    height: the chosen height is the trial of one of the offsets, it
    collides with no mark placed before, and the trial of every offset of
    smaller size collides. *)
Theorem nearest_free_lane_is_chosen (k bandTop bandBottom : Q) (lanes : nat)
    (placed : list Placed) (it : Item) (cy : Q) :
  0 < k ->
  chooseCy k bandTop bandBottom lanes placed it = (cy, true) ->
  exists off,
    In off (offsets k lanes) /\
    cy = trialCy k bandTop bandBottom (it_baseCy it) off /\
    collides k placed (it_cx it) cy = false /\
    forall off', In off' (offsets k lanes) -> JS.abs off' < JS.abs off ->
      collides k placed (it_cx it) (trialCy k bandTop bandBottom (it_baseCy it) off') = true.
Proof.
  intros Hk. unfold chooseCy.
  destruct (firstFree k bandTop bandBottom placed it (offsets k lanes)) as [cy' |] eqn:E;
    [| discriminate].
  intros [= <-].
  apply firstFree_split in E as (pre & off & post & Heq & Hcy & Hfree & Hpre).
  exists off. split; [rewrite Heq; apply in_elt |]. split; [exact Hcy |]. split; [exact Hfree |].
  intros off' Hin Hlt.
  pose proof (offsets_sorted k lanes Hk) as Hs. rewrite Heq in Hs.
  rewrite Heq in Hin. apply in_app_or in Hin as [Hin | [<- | Hin]].
  - rewrite Forall_forall in Hpre. apply Hpre, list_elem_of_In, Hin.
  - lra.
  - apply StronglySorted_app_1_r, StronglySorted_inv in Hs as [_ Hs].
    rewrite Forall_forall in Hs. specialize (Hs off' (proj2 (list_elem_of_In _ _) Hin)).
    cbn beta in Hs. lra.
Qed.

End LayoutExtras.

(** Two marks a hundred years apart at [k = 1], where [minDX = 2.4]. *)
Lemma spread_marks_keep_base_height_witness :
  let ident : Scale := fun v => v in
  let band := mkOutline "egypt-composite" "Egypt" "#999" (-3100) 30 0 12 in
  let t1 := mkTextRow "egypt-composite__text__A__100" "egypt-composite" 100 6 "A" "x" in
  let t2 := mkTextRow "egypt-composite__text__B__200" "egypt-composite" 200 6 "B" "x" in
  NoDup (map tr_id [t1; t2]) /\
  (Layout.minDX 1 <= JS.abs (ident (toAstronomicalQ 100) - ident (toAstronomicalQ 200)))%Q /\
  exists cy, fst (Layout.layoutBand ident ident 1 band [t1; t2] ∅) !! tr_id t2 = Some cy /\
             (cy == 6)%Q.
Proof.
  intros ident band t1 t2.
  assert (Hnd : NoDup (map tr_id [t1; t2])).
  { apply NoDup_cons. split; [| apply NoDup_singleton].
    intros H. apply list_elem_of_singleton in H. discriminate H. }
  assert (H12 : (Layout.minDX 1 <=
                 JS.abs (ident (toAstronomicalQ 100) - ident (toAstronomicalQ 200)))%Q)
    by (vm_compute; discriminate).
  assert (H21 : (Layout.minDX 1 <=
                 JS.abs (ident (toAstronomicalQ 200) - ident (toAstronomicalQ 100)))%Q)
    by (vm_compute; discriminate).
  assert (Hfar : forall d d', In d [t1; t2] -> In d' [t1; t2] -> tr_id d <> tr_id d' ->
            (Layout.minDX 1 <=
             JS.abs (ident (toAstronomicalQ (tr_when d)) -
                     ident (toAstronomicalQ (tr_when d'))))%Q).
  { intros d d' [<- | [<- | []]] [<- | [<- | []]] Hne;
      first [exact H12 | exact H21 | exfalso; apply Hne; reflexivity]. }
  split; [exact Hnd | split; [exact H12 |]].
  destruct (spread_marks_keep_base_height ident ident 1 band [t1; t2] Hnd Hfar t2 ∅
              (or_intror (or_introl eq_refl))) as (cy & Hcy & Heq).
  exists cy. split; [exact Hcy |].
  rewrite Heq. vm_compute. reflexivity.
Defined.

(** A second mark at the year and base height of the first one, in a
    band of five lanes: offset 0 collides, the next trial is free. *)
Lemma nearest_free_lane_is_chosen_witness :
  let t := mkTextRow "egypt-composite__text__B__100" "egypt-composite" 100 6 "B" "x" in
  let it := Layout.mkItem t 100 6 in
  let placed := [Layout.mkPlaced 100 6 true] in
  let cy := fst (Layout.chooseCy 1 0 12 5 placed it) in
  (0 < 1)%Q /\
  Layout.chooseCy 1 0 12 5 placed it = (cy, true) /\
  Layout.collides 1 placed 100 (Layout.trialCy 1 0 12 6 0) = true /\
  Layout.collides 1 placed 100 cy = false.
Proof.
  intros t it placed cy.
  assert (Hk : (0 < 1)%Q) by reflexivity.
  assert (Hc : Layout.chooseCy 1 0 12 5 placed it = (cy, true)) by (vm_compute; reflexivity).
  split; [exact Hk | split; [exact Hc | split; [vm_compute; reflexivity |]]].
  destruct (nearest_free_lane_is_chosen 1 0 12 5 placed it cy Hk Hc) as (off & _ & _ & Hfree & _).
  exact Hfree.
Defined.

(** ** The earlier chart *)

Section EarlierChartExtras.
Import Geometry EarlierChart.
Local Open Scope Q_scope.

Lemma filter_partition {A : Type} (f : A -> bool) (l : list A) :
  Permutation (List.filter (fun x => negb (f x)) l ++ List.filter f l) l.
Proof.
  induction l as [| x l IH]; cbn [List.filter]; [reflexivity |].
  destruct (f x); cbn [negb app].
  - rewrite <- Permutation_middle. constructor. exact IH.
  - constructor. exact IH.
Qed.

(** X22: the split of the data loses and duplicates nothing: singles and
    composites together are a rearrangement of the records, a record is a
    composite exactly when it has at least one segment, and the drawn rows
    carry the ids of their records in the records' order. *)
Theorem every_record_drawn_once (innerHeight : Q) (data : list RawDuration) :
  Permutation (singles data ++ composites data) data /\
  (forall d, In d (composites data) <->
             In d data /\ exists s segs, rd_segments d = Some (s :: segs)) /\
  (forall d, In d (singles data) ->
             In d data /\ (rd_segments d = None \/ rd_segments d = Some [])) /\
  map sr_id (singleRows innerHeight data) = map rd_id (singles data) /\
  map cr_id (compositeRows innerHeight data) = map rd_id (composites data) /\
  (forall d, In d (composites data) ->
     map cs_id (cr_segments (compositeRowOf innerHeight d)) =
     imap (fun i _ => rd_id d +:+ "__seg_" +:+ pretty i) (default [] (rd_segments d))).
Proof.
  split; [apply filter_partition |].
  split; [| split; [| split; [| split]]].
  - intros d. unfold composites. rewrite filter_In. unfold isComposite.
    destruct (rd_segments d) as [[| s segs] |]; split; intros [H1 H2];
      try discriminate; try (destruct H2 as (s' & segs' & [=])); eauto.
  - intros d. unfold singles. rewrite filter_In. unfold isComposite.
    destruct (rd_segments d) as [[| s segs] |]; intros [H1 H2]; try discriminate; auto.
  - unfold singleRows. generalize (singles data). intros l.
    change (map ?f ?x) with (f <$> x). rewrite fmap_imap.
    apply list_eq. intros i. rewrite list_lookup_imap, list_lookup_fmap.
    destruct (l !! i); reflexivity.
  - unfold compositeRows, composites. rewrite map_map. reflexivity.
  - intros d _. unfold compositeRowOf. cbn [cr_segments].
    change (map ?f ?x) with (f <$> x). rewrite fmap_imap. reflexivity.
Qed.

Lemma singleRows_lookup innerHeight data i r :
  singleRows innerHeight data !! i = Some r ->
  exists d, singles data !! i = Some d /\
            sr_h r = bandH innerHeight d /\
            sr_y r = match rd_yRel d with
                     | Some yRel => yRel * innerHeight
                     | None => match rd_y d with
                               | Some y => y
                               | None => inject_Z (Z.of_nat i) * 36
                               end
                     end.
Proof.
  unfold singleRows. rewrite list_lookup_imap.
  destruct (singles data !! i) as [d |]; [| discriminate].
  intros [= <-]. exists d. auto.
Qed.

(** X23: single bars that give no position and no height of their own are
    stacked without overlap: each is 24 high and starts 36 below the slot
    of the bar before it, so two of them are at least 12 apart. *)
Theorem default_single_bars_do_not_overlap (innerHeight : Q) (data : list RawDuration)
    (i j : nat) (di dj : RawDuration) (ri rj : SingleRow) :
  (i < j)%nat ->
  singles data !! i = Some di -> singles data !! j = Some dj ->
  singleRows innerHeight data !! i = Some ri -> singleRows innerHeight data !! j = Some rj ->
  rd_y di = None -> rd_yRel di = None -> rd_height di = None -> rd_hRel di = None ->
  rd_y dj = None -> rd_yRel dj = None ->
  sr_h ri == 24 /\ sr_y ri + sr_h ri + 12 <= sr_y rj.
Proof.
  intros Hij Hdi Hdj Hri Hrj Hy Hyr Hh Hhr Hy' Hyr'.
  apply singleRows_lookup in Hri as (di' & Hdi' & Hhi & Hyi).
  apply singleRows_lookup in Hrj as (dj' & Hdj' & _ & Hyj).
  rewrite Hdi in Hdi'. injection Hdi' as <-. rewrite Hdj in Hdj'. injection Hdj' as <-.
  rewrite Hyr, Hy in Hyi. rewrite Hyr', Hy' in Hyj.
  unfold bandH in Hhi. rewrite Hhr, Hh in Hhi. unfold DEFAULT_BAR_PX in Hhi.
  rewrite Hhi, Hyi, Hyj. split; [reflexivity |].
  assert (Hz : inject_Z (Z.of_nat i) + 1 <= inject_Z (Z.of_nat j)).
  { change 1 with (inject_Z 1). rewrite <- inject_Z_plus, <- Zle_Qle. lia. }
  lra.
Qed.

Lemma xLeft_fold_spec zx (segs : list CompositeSeg) (x : Q) :
  let r := fold_left (fun xLeft s =>
                        match xLeft with
                        | None => Some (segLeft zx s)
                        | Some x => if JS.ltb (segLeft zx s) x then Some (segLeft zx s)
                                    else Some x
                        end) segs (Some x) in
  exists m, r = Some m /\ m <= x /\ (forall s, In s segs -> m <= segLeft zx s) /\
            (m = x \/ exists s, In s segs /\ m = segLeft zx s).
Proof.
  revert x. induction segs as [| s segs IH]; intros x; cbn [fold_left].
  - exists x. repeat split; [lra | intros s [] | left; reflexivity].
  - destruct (JS.ltb (segLeft zx s) x) eqn:E; unfold JS.ltb in E.
    + apply negb_true_iff, Qle_bool_false in E.
      destruct (IH (segLeft zx s)) as (m & Hm & Hle & Hall & Hfrom).
      exists m. split; [exact Hm |]. split; [lra |]. split.
      * intros s' [<- | Hs']; [exact Hle | apply Hall, Hs'].
      * right. destruct Hfrom as [-> | (s' & Hs' & ->)]; [exists s | exists s']; cbn; auto.
    + apply negb_false_iff, Qle_bool_iff in E.
      destruct (IH x) as (m & Hm & Hle & Hall & Hfrom).
      exists m. split; [exact Hm |]. split; [exact Hle |]. split.
      * intros s' [<- | Hs']; [lra | apply Hall, Hs'].
      * destruct Hfrom as [-> | (s' & Hs' & ->)]; [left; reflexivity |].
        right. exists s'. cbn. auto.
Qed.

Lemma topSeg_fold_spec (segs : list CompositeSeg) (top : Q * Q) :
  let r := fold_left (fun top s => if JS.ltb (cs_y s) (fst top) then (cs_y s, cs_h s) else top)
                     segs top in
  fst r <= fst top /\ (forall s, In s segs -> fst r <= cs_y s) /\
  (r = top \/ exists s, In s segs /\ r = (cs_y s, cs_h s)).
Proof.
  revert top. induction segs as [| s segs IH]; intros top; cbn [fold_left].
  - repeat split; [lra | intros s [] | left; reflexivity].
  - destruct (JS.ltb (cs_y s) (fst top)) eqn:E; unfold JS.ltb in E.
    + apply negb_true_iff, Qle_bool_false in E.
      destruct (IH (cs_y s, cs_h s)) as (Hle & Hall & Hfrom). cbn [fst] in Hle.
      split; [lra |]. split.
      * intros s' [<- | Hs']; [exact Hle | apply Hall, Hs'].
      * right. destruct Hfrom as [-> | (s' & Hs' & ->)]; [exists s | exists s']; cbn; auto.
    + apply negb_false_iff, Qle_bool_iff in E.
      destruct (IH top) as (Hle & Hall & Hfrom).
      split; [exact Hle |]. split.
      * intros s' [<- | Hs']; [lra | apply Hall, Hs'].
      * destruct Hfrom as [-> | (s' & Hs' & ->)]; [left; reflexivity |].
        right. exists s'. cbn. auto.
Qed.

(** X24: the label of a composite with at least one segment is anchored
    at the shape's top-left: 8 right of the leftmost pixel edge of its
    segments, and at mid-height of a segment that no other segment lies
    above. *)
Theorem composite_label_at_top_left (zx zy : Scale) (grp : CompositeRow) :
  cr_segments grp <> [] ->
  exists sl st,
    In sl (cr_segments grp) /\ In st (cr_segments grp) /\
    (forall s, In s (cr_segments grp) -> segLeft zx sl <= segLeft zx s) /\
    (forall s, In s (cr_segments grp) -> cs_y st <= cs_y s) /\
    compositeLabel zx zy grp =
    (segLeft zx sl + 8, zy (cs_y st) + (zy (cs_y st + cs_h st) - zy (cs_y st)) / 2).
Proof.
  unfold compositeLabel, xLeftOf, topSegOf.
  destruct (cr_segments grp) as [| s0 segs]; [congruence |]. intros _.
  cbn [fold_left].
  destruct (xLeft_fold_spec zx segs (segLeft zx s0)) as (m & Hm & Hle & Hall & Hfrom).
  cbn zeta in Hm. rewrite Hm.
  assert (Hs0 : JS.ltb (cs_y s0) (fst (cs_y s0, cs_h s0)) = false).
  { cbn [fst]. unfold JS.ltb. apply negb_false_iff, Qle_bool_iff. lra. }
  rewrite Hs0.
  destruct (topSeg_fold_spec segs (cs_y s0, cs_h s0)) as (Hle' & Hall' & Hfrom').
  cbn zeta in Hle', Hall', Hfrom'. cbn [fst] in Hle'.
  set (top := fold_left _ segs (cs_y s0, cs_h s0)) in *.
  assert (Hsl : exists sl, In sl (s0 :: segs) /\ m = segLeft zx sl).
  { destruct Hfrom as [-> | (s & Hs & ->)]; [exists s0 | exists s]; cbn; auto. }
  assert (Hst : exists st, In st (s0 :: segs) /\ top = (cs_y st, cs_h st)).
  { destruct Hfrom' as [-> | (s & Hs & ->)]; [exists s0 | exists s]; cbn; auto. }
  destruct Hsl as (sl & Hsl & ->). destruct Hst as (st & Hst & Htop).
  exists sl, st. rewrite Htop in *. cbn [fst snd] in *.
  split; [exact Hsl |]. split; [exact Hst |]. split; [| split; [| reflexivity]].
  - intros s [<- | Hs]; [exact Hle | apply Hall, Hs].
  - intros s [<- | Hs]; [exact Hle' | apply Hall', Hs].
Qed.

End EarlierChartExtras.

(** Two records without segments, position or height. *)
Lemma default_single_bars_do_not_overlap_witness :
  let d1 := Geometry.mkRawDuration "sumer" "Sumer" None (Some (-4500)%Q) (Some (-1900)%Q)
                                   None None None None None in
  let d2 := Geometry.mkRawDuration "akkad" "Akkad" None (Some (-2334)%Q) (Some (-2154)%Q)
                                   None None None None None in
  let r1 := EarlierChart.mkSingleRow "sumer" (inject_Z 0 * 36) 24 "#4f46e5" in
  let r2 := EarlierChart.mkSingleRow "akkad" (inject_Z 1 * 36) 24 "#4f46e5" in
  (0 < 1)%nat /\
  EarlierChart.singleRows 364 [d1; d2] !! 0%nat = Some r1 /\
  EarlierChart.singleRows 364 [d1; d2] !! 1%nat = Some r2 /\
  (EarlierChart.sr_y r1 + EarlierChart.sr_h r1 + 12 <= EarlierChart.sr_y r2)%Q.
Proof.
  intros d1 d2 r1 r2.
  assert (Hij : (0 < 1)%nat) by lia.
  assert (H1 : EarlierChart.singleRows 364 [d1; d2] !! 0%nat = Some r1) by reflexivity.
  assert (H2 : EarlierChart.singleRows 364 [d1; d2] !! 1%nat = Some r2) by reflexivity.
  split; [exact Hij | split; [exact H1 | split; [exact H2 |]]].
  exact (proj2 (default_single_bars_do_not_overlap 364 [d1; d2] 0 1 d1 d2 r1 r2 Hij
                  eq_refl eq_refl H1 H2 eq_refl eq_refl eq_refl eq_refl eq_refl eq_refl)).
Defined.

(** A composite of two segments, the later one drawn higher up. *)
Lemma composite_label_at_top_left_witness :
  let ident : Scale := fun v => v in
  let s1 := Geometry.mkCompositeSeg "egypt__seg_0" (-3100) (-2686) 40 24 "#9ca3af" in
  let s2 := Geometry.mkCompositeSeg "egypt__seg_1" (-2686) (-2181) 10 24 "#9ca3af" in
  let grp := Geometry.mkCompositeRow "egypt" "Egypt" "#9ca3af" [s1; s2] in
  Geometry.cr_segments grp <> [] /\
  exists sl st,
    In sl [s1; s2] /\ In st [s1; s2] /\
    EarlierChart.compositeLabel ident ident grp =
    ((EarlierChart.segLeft ident sl + 8)%Q,
     (ident (Geometry.cs_y st) +
      (ident (Geometry.cs_y st + Geometry.cs_h st) - ident (Geometry.cs_y st)) / 2)%Q).
Proof.
  intros ident s1 s2 grp.
  assert (Hne : Geometry.cr_segments grp <> []) by discriminate.
  split; [exact Hne |].
  destruct (composite_label_at_top_left ident ident grp Hne)
    as (sl & st & Hsl & Hst & _ & _ & Heq).
  exists sl, st. split; [exact Hsl | split; [exact Hst | exact Heq]].
Defined.

(** ** Highlighting of bands *)

Section VisualsExtras.
Import Interaction Visuals.
Local Open Scope Q_scope.

Variable segments : list SegmentRow.
Variable outlines : list Outline.

(** X25: what [updateHoverVisuals] writes in a reachable state.  Border
    opacity and width of a band are always in the same of the three
    states, and a band whose border is active has an active label.  In
    detail mode every border is at base, and a label is active exactly for
    the parent of the active segment.  While a duration with a non-empty
    id is active, that band alone is highlighted: hovering is ignored and
    every other band has border and label at base. *)
Theorem band_highlight_levels (s : State) (d : Outline) :
  reachable segments outlines s ->
  ((borderOpacity s d, borderWidth s d) = (activeOpacity, activeWidth) \/
   (borderOpacity s d, borderWidth s d) = (hoverOpacity, hoverWidth) \/
   (borderOpacity s d, borderWidth s d) = (baseOpacity, baseWidth)) /\
  (borderOpacity s d = activeOpacity -> labelOpacity segments s d = labelActive) /\
  (hitZoomedIn s = true ->
     borderOpacity s d = baseOpacity /\ borderWidth s d = baseWidth /\
     (labelOpacity segments s d = labelActive <->
      Some (o_id d) = activeParentFromSeg segments s)) /\
  (forall a, activeDurationIdRef s = Some a -> a <> EmptyString ->
     (o_id d = a ->
        borderOpacity s d = activeOpacity /\ labelOpacity segments s d = labelActive) /\
     (o_id d <> a ->
        borderOpacity s d = baseOpacity /\ borderWidth s d = baseWidth /\
        labelOpacity segments s d = labelBase)).
Proof.
  intros Hreach.
  destruct (reachable_inv segments outlines s Hreach) as [Hex Hsync].
  unfold borderOpacity, borderWidth, labelOpacity, ignoreHoverBecauseActive.
  split; [| split; [| split]].
  - destruct (bool_decide (Some (o_id d) = activeDurationIdRef s)); [auto |].
    destruct (negb (JS.truthy (activeDurationIdRef s)) &&
              bool_decide (Some (o_id d) = hoveredDurationIdRef s)); auto.
  - destruct (bool_decide (Some (o_id d) = activeDurationIdRef s)); [reflexivity |].
    destruct (negb (JS.truthy (activeDurationIdRef s)) &&
              bool_decide (Some (o_id d) = hoveredDurationIdRef s)); discriminate.
  - intros Hhit. destruct Hsync as [_ Hsync]. rewrite Hhit in Hsync.
    unfold exclusive in Hex. rewrite <- Hsync in Hex. destruct Hex as (Ha & Hh & _).
    rewrite Ha, Hh. cbn [JS.truthy negb andb orb].
    rewrite (bool_decide_eq_false_2 (Some (o_id d) = None)) by discriminate.
    cbn [andb orb]. split; [reflexivity | split; [reflexivity |]].
    destruct (bool_decide (Some (o_id d) = activeParentFromSeg segments s)) eqn:E.
    + apply bool_decide_eq_true in E. tauto.
    + apply bool_decide_eq_false in E.
      destruct (bool_decide (Some (o_id d) = hoveredSegParentIdRef s));
        split; intros H; try contradiction; discriminate.
  - intros a Ha Hne.
    assert (Htr : JS.truthy (Some a) = true).
    { cbn. apply negb_true_iff, String.eqb_neq, Hne. }
    assert (Hseg : activeParentFromSeg segments s = None).
    { unfold activeParentFromSeg. unfold exclusive in Hex.
      destruct (zoomedInAt (kRef s)).
      - destruct Hex as (Hex & _). congruence.
      - destruct Hex as (-> & _). reflexivity. }
    rewrite Ha, Htr, Hseg. cbn [negb andb].
    split; intros Hid.
    + rewrite bool_decide_eq_true_2 by congruence. auto.
    + rewrite bool_decide_eq_false_2 by congruence.
      rewrite (bool_decide_eq_false_2 (Some (o_id d) = None)) by discriminate. auto.
Qed.

End VisualsExtras.

(** The state after a click on one of two bands. *)
Lemma band_highlight_levels_witness :
  let A := mkOutline "egypt-composite" "Egypt" "#999" (-3100) 30 10 30 in
  let B := mkOutline "greece-composite" "Greece" "#999" (-800) (-31) 50 30 in
  let s0 := Interaction.mount [] [A; B] Interaction.initialRefs in
  let s1 := Interaction.handle [] [A; B] s0 (Interaction.Click (Interaction.OnOutline A)) in
  let s := Interaction.handle [] [A; B] s1 (Interaction.MouseEnter (Interaction.OnOutline B)) in
  Interaction.reachable [] [A; B] s /\
  Interaction.activeDurationIdRef s = Some "egypt-composite" /\
  Visuals.borderOpacity s A = Visuals.activeOpacity /\
  Visuals.borderOpacity s B = Visuals.baseOpacity.
Proof.
  intros A B s0 s1 s.
  assert (Hreach : Interaction.reachable [] [A; B] s).
  { apply Interaction.reach_step; [| reflexivity].
    apply Interaction.reach_step; [apply Interaction.reach_mount | reflexivity]. }
  assert (Hact : Interaction.activeDurationIdRef s = Some "egypt-composite") by reflexivity.
  assert (Hne : "egypt-composite" <> EmptyString) by discriminate.
  split; [exact Hreach | split; [exact Hact |]].
  split.
  - destruct (band_highlight_levels [] [A; B] s A Hreach) as (_ & _ & _ & H).
    exact (proj1 (proj1 (H "egypt-composite" Hact Hne) eq_refl)).
  - destruct (band_highlight_levels [] [A; B] s B Hreach) as (_ & _ & _ & H).
    assert (HAB : o_id B <> "egypt-composite") by discriminate.
    exact (proj1 (proj2 (H "egypt-composite" Hact Hne) HAB)).
Defined.

(** ** The segment under a mark *)

Section SegmentOfMark.
Import Rows Geometry Visuals.
Local Open Scope Q_scope.

Variable StringToNumber : string -> JSNum.
Variable NumberToString : Q -> string.
Variable stringifyAuthor : AuthorRec -> string.
Variable stringifyText : TextRec -> string.

Lemma authorRow_base outlines registry r :
  In r (authorRows StringToNumber NumberToString stringifyAuthor stringifyText outlines registry) ->
  exists band, In band outlines /\ o_id band = ar_durationId r /\
               o_y band + 2 <= ar_y r /\
               (5 <= o_h band -> ar_y r < o_y band + o_h band - 2).
Proof.
  intros Hr.
  apply authorRows_sub, rowsA_In in Hr as (ds & band & a & _ & Hband & _ & Hrow).
  apply outlinesById_Some in Hband as (Hin & Hbid).
  exists band.
  pose proof Hrow as Hy. apply authorRowOf_y in Hy.
  apply authorRowOf_Some in Hrow as (Hd & _ & _).
  rewrite Hd, Hy.
  destruct (yForKey_range (ds_durationId ds) band (ar_name r)) as (Hlo & _ & Hhi).
  auto.
Qed.

Lemma textRow_base outlines registry r :
  In r (textRows StringToNumber NumberToString stringifyAuthor stringifyText outlines registry) ->
  exists band, In band outlines /\ o_id band = tr_durationId r /\
               o_y band + 2 <= tr_y r /\
               (5 <= o_h band -> tr_y r < o_y band + o_h band - 2).
Proof.
  intros Hr.
  apply textRows_sub, rowsT_In in Hr as (ds & band & t & _ & Hband & _ & Hrow).
  apply outlinesById_Some in Hband as (Hin & Hbid).
  exists band.
  pose proof Hrow as Hy. apply textRowOf_y in Hy as (key & Hy).
  apply textRowOf_Some in Hrow as (Hd & _).
  rewrite Hd, Hy.
  destruct (yForKey_range (ds_durationId ds) band key) as (Hlo & _ & Hhi).
  auto.
Qed.

(** With distinct record ids, a band and a segment hit rect of the same id
    have the same vertical extent. *)
Lemma band_of_segment innerHeight durations band sg :
  NoDup (map rd_id durations) ->
  In band (Geometry.outlines innerHeight durations) ->
  In sg (Geometry.segments innerHeight durations) ->
  seg_parentId sg = o_id band ->
  seg_y sg = o_y band /\ seg_h sg = o_h band.
Proof.
  intros Hnd Hband Hsg Hid.
  apply list_elem_of_In, list_elem_of_omap in Hband as (d' & Hd' & Ho).
  apply list_elem_of_In in Hd'.
  apply outlineOf_fields in Ho as (Hoid & Hoy & Hoh).
  apply segments_In in Hsg as (d & segs & i & s & Hd & _ & _ & ->).
  cbn [seg_parentId seg_y seg_h] in *.
  assert (d = d') by (apply (NoDup_map_eq rd_id durations); auto; congruence).
  subst d'. split; congruence.
Qed.

Lemma within_band (y top h : Q) :
  top + 2 <= y -> y < top + h - 2 -> within y top (top + h) = true.
Proof.
  intros H1 H2. unfold within. apply andb_true_iff.
  split; [unfold JS.geb | unfold JS.leb at 1]; apply Qle_bool_iff; js_cases.
Qed.

Lemma find_ext_in {A : Type} (f g : A -> bool) (l : list A) :
  (forall x, In x l -> f x = g x) -> List.find f l = List.find g l.
Proof.
  induction l as [| x l IH]; intros H; cbn [List.find]; [reflexivity |].
  rewrite (H x (or_introl eq_refl)). destruct (g x); [reflexivity |].
  apply IH. intros y Hy. apply H. right. exact Hy.
Qed.

(** X26: with distinct record ids and every band at least 5 high, a mark
    lies vertically inside every segment hit rect of its own band, so the
    vertical test of [findSegForAuthor] and [findSegForText] never
    excludes a segment: the segment found for a text is the first segment
    of its band whose years contain the text's date, the one found for an
    author the first whose years meet the author's life span. *)
Theorem segment_of_mark_by_years_alone (innerHeight : Q) (durations : list RawDuration)
    (registry : list Dataset) :
  NoDup (map rd_id durations) ->
  (forall d, In d durations -> 5 <= bandH innerHeight d) ->
  let outlines := Geometry.outlines innerHeight durations in
  let segments := Geometry.segments innerHeight durations in
  (forall r, In r (textRows StringToNumber NumberToString stringifyAuthor stringifyText outlines registry) ->
     findSegForText segments r =
     List.find (fun s => String.eqb (seg_parentId s) (tr_durationId r) &&
                         JS.geb (tr_when r) (seg_start s) &&
                         JS.leb (tr_when r) (seg_end s)) segments) /\
  (forall r, In r (authorRows StringToNumber NumberToString stringifyAuthor stringifyText outlines registry) ->
     findSegForAuthor segments r =
     List.find (fun s => String.eqb (seg_parentId s) (ar_durationId r) &&
                         overlaps (JS.min (ar_start r) (ar_end r))
                                  (JS.max (ar_start r) (ar_end r))
                                  (seg_start s) (seg_end s)) segments).
Proof.
  intros Hnd Hhigh outlines segments.
  assert (Hh : forall band, In band outlines -> 5 <= o_h band).
  { intros band Hband.
    apply list_elem_of_In, list_elem_of_omap in Hband as (d & Hd & Ho).
    apply outlineOf_fields in Ho as (_ & _ & ->). apply Hhigh, list_elem_of_In, Hd. }
  split; intros r Hr.
  - destruct (textRow_base outlines registry r Hr) as (band & Hband & Hid & Hlo & Hhi).
    specialize (Hhi (Hh band Hband)).
    unfold findSegForText. apply find_ext_in. intros sg Hsg.
    destruct (String.eqb (seg_parentId sg) (tr_durationId r)) eqn:E; [| reflexivity].
    apply String.eqb_eq in E.
    destruct (band_of_segment innerHeight durations band sg Hnd Hband Hsg) as [-> ->];
      [congruence |].
    rewrite (within_band _ _ _ Hlo Hhi). apply andb_true_r.
  - destruct (authorRow_base outlines registry r Hr) as (band & Hband & Hid & Hlo & Hhi).
    specialize (Hhi (Hh band Hband)).
    unfold findSegForAuthor. apply find_ext_in. intros sg Hsg.
    destruct (String.eqb (seg_parentId sg) (ar_durationId r)) eqn:E; [| reflexivity].
    apply String.eqb_eq in E.
    destruct (band_of_segment innerHeight durations band sg Hnd Hband Hsg) as [-> ->];
      [congruence |].
    rewrite (within_band _ _ _ Hlo Hhi). apply andb_true_r.
Qed.

End SegmentOfMark.

(** One band of two segments, 30 high, and one text dated within the
    second segment. *)
Lemma segment_of_mark_by_years_alone_witness :
  let s2n : string -> Rows.JSNum := fun _ => Rows.NaN in
  let n2s : Q -> string := fun _ => "n" in
  let s1 := Geometry.mkRawSegment (-3100) (-2686) (Some "Early Dynastic") None None
                                  None None None None in
  let s2 := Geometry.mkRawSegment (-2686) (-2181) (Some "Old Kingdom") None None
                                  None None None None in
  let d := Geometry.mkRawDuration "egypt-composite" "Egypt" None None None
                                  (Some 10%Q) None (Some 30%Q) None (Some [s1; s2]) in
  let u := Rows.JUndefined in
  let t := Rows.mkTextRec (Rows.JString "Pyramid Texts") u u u u u u u u u u u u u u u u
                          (Rows.JNumber (Rows.Fin (-2400))) in
  let registry := [Rows.mkDataset "egypt" "egypt-composite" [] [t]] in
  let outlines := Geometry.outlines 364 [d] in
  let segments := Geometry.segments 364 [d] in
  NoDup (map Geometry.rd_id [d]) /\
  (forall d', In d' [d] -> (5 <= Geometry.bandH 364 d')%Q) /\
  map tr_title (Rows.textRows s2n n2s (fun _ => "a") (fun _ => "t") outlines registry) =
    ["Pyramid Texts"] /\
  forall r, In r (Rows.textRows s2n n2s (fun _ => "a") (fun _ => "t") outlines registry) ->
    Visuals.findSegForText segments r =
    List.find (fun s => String.eqb (seg_parentId s) (tr_durationId r) &&
                        JS.geb (tr_when r) (seg_start s) &&
                        JS.leb (tr_when r) (seg_end s)) segments.
Proof.
  intros s2n n2s s1 s2 d u t registry outlines segments.
  assert (Hnd : NoDup (map Geometry.rd_id [d])) by apply NoDup_singleton.
  assert (Hhigh : forall d', In d' [d] -> (5 <= Geometry.bandH 364 d')%Q).
  { intros d' [<- | []]. vm_compute. discriminate. }
  split; [exact Hnd | split; [exact Hhigh | split; [vm_compute; reflexivity |]]].
  exact (proj1 (segment_of_mark_by_years_alone s2n n2s (fun _ => "a") (fun _ => "t")
                  364 [d] registry Hnd Hhigh)).
Defined.

(** ** Grid snapping *)

Section GridExtras.
Import Grid.
Local Open Scope Q_scope.

Lemma snapX_scaled (dpr x : Q) :
  0 < dpr -> snapX dpr x * dpr == inject_Z (JS.round (x * dpr)) + (1 # 2).
Proof. intros Hd. unfold snapX, HALF_DPR_PX. field. lra. Qed.

Lemma round_bounds (a : Q) : inject_Z (JS.round a) <= a + (1 # 2) /\ a - (1 # 2) < inject_Z (JS.round a).
Proof.
  unfold JS.round. pose proof (Qfloor_le (a + (1 # 2))) as H1.
  pose proof (Qlt_floor (a + (1 # 2))) as H2.
  rewrite inject_Z_plus in H2. change (inject_Z 1) with 1 in H2. lra.
Qed.

(** X27: a grid line is snapped to the centre of a device pixel: for a
    positive device pixel ratio the snapped position, in device pixels, is
    an integer plus one half, it lies to the right of the position it
    snaps, and at most one device pixel away. *)
Theorem grid_lines_snap_to_pixel_centres (devicePixelRatio : option Q) (x : Q) :
  0 < DPR devicePixelRatio ->
  let dpr := DPR devicePixelRatio in
  (exists n : Z, snapX dpr x * dpr == inject_Z n + (1 # 2)) /\
  x < snapX dpr x /\ snapX dpr x * dpr <= x * dpr + 1.
Proof.
  intros Hd dpr. fold dpr in Hd.
  pose proof (snapX_scaled dpr x Hd) as Hs.
  destruct (round_bounds (x * dpr)) as [H1 H2].
  split; [exists (JS.round (x * dpr)); exact Hs |].
  split; [| lra].
  apply (Qmult_lt_r _ _ dpr Hd). lra.
Qed.

End GridExtras.

(** A display with two device pixels per CSS pixel. *)
Lemma grid_lines_snap_to_pixel_centres_witness :
  (0 < Grid.DPR (Some 2%Q))%Q /\
  (Grid.snapX 2 (103 # 10) == 43 # 4)%Q /\
  (103 # 10 < Grid.snapX (Grid.DPR (Some 2%Q)) (103 # 10))%Q.
Proof.
  assert (Hd : (0 < Grid.DPR (Some 2%Q))%Q) by reflexivity.
  split; [exact Hd | split; [reflexivity |]].
  exact (proj1 (proj2 (grid_lines_snap_to_pixel_centres (Some 2%Q) (103 # 10) Hd))).
Defined.
